(** * The batching translation driver of [src/main.py]

    A shallow embedding of the class [GameTranslator]: the glossary term
    selection ([prepare_request]), the chunk builders ([create_chunk],
    [create_next_chunk]), the adaptive budget ([adjust_chunk_size]), the
    atomic store ([save_json]), the response merge ([process_response]) and
    the driver loop ([translate_all]).

    Python values are modelled as follows.
    - [int] is [Z].
    - [float] is an IEEE 754 binary64 value, [spec_float] with [prec = 53]
      and [emax = 1024]; products are rounded to nearest even by [SFmul].
    - [str] is the list of its code points, so that [len] counts characters.
    - [dict] is an association list in insertion order with unique keys;
      assigning to a present key keeps the key's position.
    - the save directory is a finite map from the names of its data files
      to their contents; its [translation.log], which only the logger
      writes, is the list [log] of the records handed to the logger.
    - statements run in a state and exception monad; the backend, the disk
      and [json.loads] are oracles of the enclosing section. *)

From Stdlib Require Import ZArith Lia Bool List Sorted Permutation Ascii String.
From Stdlib Require Import Floats.SpecFloat.
From stdpp Require Import gmap strings.
Import ListNotations.

Local Open Scope Z_scope.

(** ** Python floats *)

Definition prec : Z := 53.
Definition emax : Z := 1024.

(** [float(n)] for an integer [n]. *)
Definition float_of_int (n : Z) : spec_float := binary_normalize prec emax n 0 false.

(** [a * b] on floats. *)
Definition float_mul : spec_float -> spec_float -> spec_float := SFmul prec emax.

(** The literals [1.2] and [0.8]: the doubles nearest to 12/10 and 8/10. *)
Definition float_1_2 : spec_float :=
  Eval vm_compute in SFdiv prec emax (float_of_int 12) (float_of_int 10).
Definition float_0_8 : spec_float :=
  Eval vm_compute in SFdiv prec emax (float_of_int 8) (float_of_int 10).

(** [min(a, b)] returns [b] only when [b < a]; [max(a, b)] returns [b] only
    when [b > a]. *)
Definition py_min (a b : spec_float) : spec_float := if SFltb b a then b else a.
Definition py_max (a b : spec_float) : spec_float := if SFltb a b then b else a.

(** The exact value of a finite float as an integer scaled by [2 ^ e]. *)
Definition signed_mantissa (s : bool) (m : positive) : Z := if s then Z.neg m else Z.pos m.

(** [n > f] for an int [n] and a float [f]; Python compares the two exactly,
    and every comparison with a NaN is false. *)
Definition int_gt_float (n : Z) (f : spec_float) : bool :=
  match f with
  | S754_nan => false
  | S754_infinity s => s
  | S754_zero _ => 0 <? n
  | S754_finite s m e =>
      if 0 <=? e then signed_mantissa s m * 2 ^ e <? n
      else signed_mantissa s m <? n * 2 ^ (- e)
  end.

(** [n <= f] for an int [n] and a float [f]. *)
Definition int_le_float (n : Z) (f : spec_float) : bool :=
  match f with
  | S754_nan => false
  | S754_infinity s => negb s
  | S754_zero _ => n <=? 0
  | S754_finite s m e =>
      if 0 <=? e then n <=? signed_mantissa s m * 2 ^ e
      else n * 2 ^ (- e) <=? signed_mantissa s m
  end.

(** The operating range of the budget: a binary64 value between 1200 and 2400. *)
Definition in_bounds (t : spec_float) : bool :=
  valid_binary prec emax t && SFleb (float_of_int 1200) t && SFleb t (float_of_int 2400).

(** ** Python strings *)

Definition codepoint : Type := N.
Definition str : Type := list codepoint.

Definition len {A : Type} (l : list A) : Z := Z.of_nat (length l).

Fixpoint startswith (s p : str) {struct p} : bool :=
  match p, s with
  | [], _ => true
  | _ :: _, [] => false
  | c :: p', d :: s' => bool_decide (c = d) && startswith s' p'
  end.

(** [p in s] on strings: [p] occurs in [s] as a contiguous substring. *)
Fixpoint str_in (p s : str) : bool :=
  startswith s p ||
  match s with
  | [] => false
  | _ :: s' => str_in p s'
  end.

(** ** Python dictionaries *)

Section Dict.
Context {K V : Type} `{EqDecision K}.

Definition dict : Type := list (K * V).

Definition keys (d : dict) : list K := map fst d.
Definition values (d : dict) : list V := map snd d.

Fixpoint dict_get (k : K) (d : dict) : option V :=
  match d with
  | [] => None
  | (k', v) :: d' => if decide (k = k') then Some v else dict_get k d'
  end.

(** [k in d]. *)
Definition dict_mem (k : K) (d : dict) : bool :=
  match dict_get k d with Some _ => true | None => false end.

(** [d[k] = v]. *)
Fixpoint dict_set (k : K) (v : V) (d : dict) : dict :=
  match d with
  | [] => [(k, v)]
  | (k', v') :: d' =>
      if decide (k = k') then (k, v) :: d' else (k', v') :: dict_set k v d'
  end.

(** [d.update(other)]. *)
Definition dict_update (d other : dict) : dict :=
  fold_left (fun acc kv => dict_set (fst kv) (snd kv) acc) other d.

End Dict.

Arguments dict : clear implicits.

(** [sorted(terms, key=len, reverse=True)]: a stable sort, so terms of equal
    length keep their order. *)
Fixpoint insert_by_len (x : str) (l : list str) : list str :=
  match l with
  | [] => [x]
  | y :: l' => if len y <=? len x then x :: y :: l' else y :: insert_by_len x l'
  end.

Definition sorted_by_len_desc (l : list str) : list str := fold_right insert_by_len [] l.

(** {k: v for k, v in texts.items() if k not in done} *)
Definition not_in (done texts : dict str str) : dict str str :=
  List.filter (fun kv => negb (dict_mem (fst kv) done)) texts.

(** ** Paths *)

Local Open Scope string_scope.

(** [s.rfind(c)]. *)
Fixpoint rfind (c : ascii) (s : string) : option nat :=
  match s with
  | EmptyString => None
  | String c' rest =>
      match rfind c rest with
      | Some i => Some (S i)
      | None => if Ascii.eqb c' c then Some 0%nat else None
      end
  end.

(** [PurePath.name]: the final component of a path, which is a file name
    relative to the save directory, its components separated by "/" and
    none of them empty, "." or "..". *)
Definition name (path : string) : string :=
  match rfind "/" path with
  | Some i => String.substring (S i) (String.length path - S i) path
  | None => path
  end.

(** [PurePath.suffix]: the part of the final component from its last dot on,
    unless that dot is its first or its last character. *)
Definition suffix (path : string) : string :=
  let final := name path in
  match rfind "." final with
  | Some i =>
      if ((0 <? i) && (i <? String.length final - 1))%nat
      then String.substring i (String.length final - i) final
      else ""
  | None => ""
  end.

(** [PurePath.with_suffix]: the suffix of the final component is replaced. *)
Definition with_suffix (path suf : string) : string :=
  String.substring 0 (String.length path - String.length (suffix path)) path +:+ suf.

(** The data files of the save directory, and the file the logger writes. *)
Definition glossary_json : string := "glossary.json".
Definition translations_json : string := "translations.json".
Definition failed_translations_json : string := "failed_translations.json".
Definition translation_log : string := "translation.log".

Local Close Scope string_scope.

(** ** The world the translator runs in *)

Inductive exn : Type :=
| APIError
| JSONDecodeError
| OSError
| KeyError
| ZeroDivisionError
| TypeError
| UnicodeDecodeError.

(** What a data file of the save directory holds: nothing, the beginning of
    a dump, a full dump, or bytes that cannot be read as text. *)
Inductive content : Type :=
| Empty
| Truncated (data : dict str str)
| JsonText (data : dict str str)
| Undecodable.

(** What goes wrong in the clean-up that follows a failed write, if
    anything: [temp_path.exists()] raises, or [temp_path.unlink()] does. *)
Inductive cleanup_fault : Type :=
| CleanupWorks
| ExistsFails
| UnlinkFails.

(** Where a write to the disk goes wrong, if it does, and what then goes
    wrong in the clean-up. *)
Inductive fault : Type :=
| NoFault
| OpenFails (c : cleanup_fault)
| DumpFails (c : cleanup_fault)
| ReplaceFails (c : cleanup_fault).

Definition cleanup_of (f : fault) : cleanup_fault :=
  match f with
  | NoFault => CleanupWorks
  | OpenFails c | DumpFails c | ReplaceFails c => c
  end.

(** The payload of a request: [json.dumps] of this record. *)
Record request : Type := mkRequest {
  terms_dictionary : dict str str;
  request_texts : dict str str
}.

(** The value of a field that [dict.update] is called with.  Keys are
    strings; the values are opaque to the program and are written as texts.
    - [Mapping d]: an object, or a list of pairs, that [update] takes in
      full; its [len] is that of [d].
    - [Sequence d]: a non-empty list or string on which [update] raises
      after it has taken the entries [d]: an element is not a pair.
    - [Scalar]: null, a number or a boolean; [len] and [update] raise. *)
Inductive field : Type :=
| Mapping (d : dict str str)
| Sequence (d : dict str str)
| Scalar.

(** The entries [update] takes from a field value. *)
Definition entries (v : field) : dict str str :=
  match v with
  | Mapping d | Sequence d => d
  | Scalar => []
  end.

(** A parsed object: each of the three keys the program looks for is
    present or not. *)
Record response : Type := mkResponse {
  result : option field;
  new_terms : option field;
  comment : option str
}.

(** What [json.loads] returns: an object, or a value that is no object.  A
    value of the latter kind is [quiet] when ["result" in v], ["new_terms" in
    v] and ["comment" in v] are all false (a list or a string without them);
    otherwise the first of these tests that raises or holds ends in a
    [TypeError], the test itself or the subscript that follows it. *)
Inductive json : Type :=
| JObject (r : response)
| JOther (quiet : bool).

(** [client.messages.create] raises, or returns a message whose content is a
    list of text blocks. *)
Inductive api_result : Type :=
| ApiRaises
| ApiContent (blocks : list str).

Inductive level : Type := INFO | ERROR.

Inductive message : Type :=
| ErrorLoading (filename : string) (e : exn)
| ErrorSaving (filename : string) (e : exn)
| PreparingRequest (size : Z)
| FullRequestData (r : request)
| FullResponseReceived (text : str)
| EmptyResponseReceived
| TranslatedTexts (n : Z)
| AddedNewTerms (terms : dict str str)
| TranslationComment (c : str)
| ErrorProcessingResponse (e : exn)
| RawResponseText (text : str)
| UnexpectedError (e : exn)
| RawResponse (blocks : list str)
| AdjustedTargetLength (t : spec_float)
| StartingTranslation (total processed : Z)
| ProcessingChunkSize (n : Z)
| RawApiResponse (text : str)
| Progress (processed total : Z)
| CurrentGlossarySize (n : Z)
| ErrorProcessingChunk (attempt max : Z) (e : exn)
| FailedToProcessChunk (max : Z)
| TranslationCompleted.

(** The fields of [self] and the observable world around it.  [files] holds
    the data files of the save directory; [log] holds the records handed to
    the logger, which its handlers append to [translation.log] and print. *)
Record state : Type := mkState {
  glossary : dict str str;
  translated : dict str str;
  target_length : spec_float;
  files : gmap string content;
  log : list (level * message);
  calls : list request;
  saves : nat;
  sleeps : list Z
}.

Definition set_glossary (g : dict str str) (st : state) : state :=
  mkState g (translated st) (target_length st) (files st) (log st) (calls st) (saves st) (sleeps st).
Definition set_translated (t : dict str str) (st : state) : state :=
  mkState (glossary st) t (target_length st) (files st) (log st) (calls st) (saves st) (sleeps st).
Definition set_target_length (t : spec_float) (st : state) : state :=
  mkState (glossary st) (translated st) t (files st) (log st) (calls st) (saves st) (sleeps st).
Definition set_files (f : gmap string content) (st : state) : state :=
  mkState (glossary st) (translated st) (target_length st) f (log st) (calls st) (saves st) (sleeps st).
Definition add_log (e : level * message) (st : state) : state :=
  mkState (glossary st) (translated st) (target_length st) (files st) (log st ++ [e]) (calls st)
    (saves st) (sleeps st).
Definition add_call (r : request) (st : state) : state :=
  mkState (glossary st) (translated st) (target_length st) (files st) (log st) (calls st ++ [r])
    (saves st) (sleeps st).
Definition add_save (st : state) : state :=
  mkState (glossary st) (translated st) (target_length st) (files st) (log st) (calls st)
    (S (saves st)) (sleeps st).
Definition add_sleep (d : Z) (st : state) : state :=
  mkState (glossary st) (translated st) (target_length st) (files st) (log st) (calls st)
    (saves st) (sleeps st ++ [d]).

(** ** The state and exception monad *)

Inductive outcome (A : Type) : Type :=
| Ret (a : A)
| Raise (e : exn)
| Timeout.

Arguments Ret {A} a.
Arguments Raise {A} e.
Arguments Timeout {A}.

Definition M (A : Type) : Type := state -> outcome A * state.

Definition ret {A : Type} (a : A) : M A := fun st => (Ret a, st).

Definition bind {A B : Type} (m : M A) (k : A -> M B) : M B :=
  fun st =>
    match m st with
    | (Ret a, st') => k a st'
    | (Raise e, st') => (Raise e, st')
    | (Timeout, st') => (Timeout, st')
    end.

Definition raise {A : Type} (e : exn) : M A := fun st => (Raise e, st).

(** The loop ran out of fuel. *)
Definition timeout {A : Type} : M A := fun st => (Timeout, st).

(** [try: m  except Exception as e: h e]. *)
Definition try_except {A : Type} (m : M A) (h : exn -> M A) : M A :=
  fun st =>
    match m st with
    | (Raise e, st') => h e st'
    | r => r
    end.

Definition gets {A : Type} (f : state -> A) : M A := fun st => (Ret (f st), st).
Definition modify (f : state -> state) : M unit := fun st => (Ret tt, f st).

Notation "x <- m ;; k" := (bind m (fun x => k))
  (at level 100, m at next level, k at level 200, right associativity).
Notation "m ;; k" := (bind m (fun _ => k))
  (at level 100, k at level 200, right associativity).

Definition logger_info (msg : message) : M unit := modify (add_log (INFO, msg)).
Definition logger_error (msg : message) : M unit := modify (add_log (ERROR, msg)).

(** [time.sleep(d)]. *)
Definition sleep (d : Z) : M unit := modify (add_sleep d).

(** *** File operations, under a disk fault *)

(** [open(path, "w")] creates or truncates the file. *)
Definition open_w (f : fault) (path : string) : M unit :=
  match f with
  | OpenFails _ => raise OSError
  | _ => modify (fun st => set_files (<[path := Empty]> (files st)) st)
  end.

(** [json.dump(data, f)] up to the end of the [with] block. *)
Definition json_dump (f : fault) (data : dict str str) (path : string) : M unit :=
  match f with
  | DumpFails _ =>
      modify (fun st => set_files (<[path := Truncated data]> (files st)) st) ;;
      raise OSError
  | _ => modify (fun st => set_files (<[path := JsonText data]> (files st)) st)
  end.

(** [src.replace(dst)]: an atomic rename over the target. *)
Definition replace (f : fault) (src dst : string) : M unit :=
  match f with
  | ReplaceFails _ => raise OSError
  | _ =>
      c <- gets (fun st => files st !! src) ;;
      match c with
      | Some c => modify (fun st => set_files (<[dst := c]> (delete src (files st))) st)
      | None => raise OSError
      end
  end.

(** [path.exists()]. *)
Definition path_exists (f : fault) (path : string) : M bool :=
  match cleanup_of f with
  | ExistsFails => raise OSError
  | _ => gets (fun st => bool_decide (is_Some (files st !! path)))
  end.

(** [path.unlink()]. *)
Definition unlink (f : fault) (path : string) : M unit :=
  match cleanup_of f with
  | UnlinkFails => raise OSError
  | _ =>
      c <- gets (fun st => files st !! path) ;;
      match c with
      | Some _ => modify (fun st => set_files (delete path (files st)) st)
      | None => raise OSError
      end
  end.

Definition lift {A : Type} (o : outcome A) : M A := fun st => (o, st).

(** ** The translator *)

Definition max_retries : Z := 3.

(** The state [__init__] builds from the loaded glossary and translations. *)
Definition init (loaded_glossary loaded_translations : dict str str)
    (dir : gmap string content) : state :=
  mkState loaded_glossary loaded_translations (float_of_int 1000) dir [] [] 0%nat [].

(** A stored file parses only when it was written in full; only the
    [JSONDecodeError] of a file that does not parse is caught. *)
Definition load_json (filename : string) (default_value : dict str str) : M (dict str str) :=
  c <- gets (fun st => files st !! filename) ;;
  match c with
  | None => ret default_value
  | Some (JsonText data) => ret data
  | Some Undecodable => raise UnicodeDecodeError
  | Some _ =>
      logger_error (ErrorLoading filename JSONDecodeError) ;;
      ret default_value
  end.

(** The assignments of [__init__]. *)
Definition startup : M unit :=
  g <- load_json glossary_json [] ;;
  modify (set_glossary g) ;;
  t <- load_json translations_json [] ;;
  modify (set_translated t) ;;
  modify (set_target_length (float_of_int 1000)).

(** [is_subprocess] of [prepare_request]: is [short_term] part of another,
    longer term of the list? *)
Fixpoint is_subprocess (short_term : str) (term_list : list str) : bool :=
  match term_list with
  | [] => false
  | long_term :: rest =>
      if negb (bool_decide (short_term = long_term)) && str_in short_term long_term
      then true
      else is_subprocess short_term rest
  end.

(** The loop of [prepare_request] over the sorted terms; [g[term]] raises
    [KeyError] on a missing key. *)
Fixpoint select_terms (g chunk : dict str str) (sorted_terms : list str)
    (relevant_terms : dict str str) : outcome (dict str str) :=
  match sorted_terms with
  | [] => Ret relevant_terms
  | term :: rest =>
      if existsb (fun text => str_in term text) (values chunk) then
        if negb (is_subprocess term (keys relevant_terms)) then
          match dict_get term g with
          | Some v => select_terms g chunk rest (dict_set term v relevant_terms)
          | None => Raise KeyError
          end
        else select_terms g chunk rest relevant_terms
      else select_terms g chunk rest relevant_terms
  end.

Definition prepare_request (chunk : dict str str) : M (request * dict str str) :=
  g <- gets glossary ;;
  let sorted_terms := sorted_by_len_desc (keys g) in
  relevant_terms <- lift (select_terms g chunk sorted_terms []) ;;
  let request_data := mkRequest relevant_terms chunk in
  logger_info (PreparingRequest (len relevant_terms)) ;;
  logger_info (FullRequestData request_data) ;;
  ret (request_data, chunk).

(** The [for] loop of [create_next_chunk]; the result is [current_chunk]
    when the loop ends or breaks. *)
Fixpoint next_chunk_loop (done : dict str str) (target : spec_float)
    (items current_chunk : dict str str) (total_length : Z) : dict str str :=
  match items with
  | [] => current_chunk
  | (id_, text) :: rest =>
      if dict_mem id_ done then next_chunk_loop done target rest current_chunk total_length
      else
        let text_length := len text in
        if int_gt_float (total_length + text_length) target then current_chunk
        else
          next_chunk_loop done target rest (dict_set id_ text current_chunk)
            (total_length + text_length)
  end.

(** [(None, None)] is [None]. *)
Definition create_next_chunk (remaining : dict str str) : M (option (request * dict str str)) :=
  done <- gets translated ;;
  target <- gets target_length ;;
  match next_chunk_loop done target remaining [] 0 with
  | [] => ret None
  | current_chunk => r <- prepare_request current_chunk ;; ret (Some r)
  end.

(** The [for] loop of [create_chunk], which closes a chunk before the
    fragment that would overflow it, unless the chunk is still empty. *)
Fixpoint create_chunk_loop (items : dict str str) (chunks : list (request * dict str str))
    (current_chunk : dict str str) (current_length : Z) : M (list (request * dict str str)) :=
  match items with
  | [] =>
      match current_chunk with
      | [] => ret chunks
      | _ => r <- prepare_request current_chunk ;; ret (chunks ++ [r])
      end
  | (id_, text) :: rest =>
      done <- gets translated ;;
      if dict_mem id_ done then create_chunk_loop rest chunks current_chunk current_length
      else
        let text_length := len text in
        target <- gets target_length ;;
        if int_gt_float (current_length + text_length) target
           && negb (bool_decide (current_chunk = []))
        then
          r <- prepare_request current_chunk ;;
          create_chunk_loop rest (chunks ++ [r]) (dict_set id_ text []) (0 + text_length)
        else
          create_chunk_loop rest chunks (dict_set id_ text current_chunk)
            (current_length + text_length)
  end.

Definition create_chunk (all_texts : dict str str) : M (list (request * dict str str)) :=
  create_chunk_loop all_texts [] [] 0.

(** The arithmetic of [adjust_chunk_size]. *)
Definition adjust (success : bool) (t : spec_float) : spec_float :=
  if success then py_min (float_mul t float_1_2) (float_of_int 2400)
  else py_max (float_mul t float_0_8) (float_of_int 1200).

Definition adjust_chunk_size (success : bool) : M unit :=
  t <- gets target_length ;;
  modify (set_target_length (adjust success t)) ;;
  t' <- gets target_length ;;
  logger_info (AdjustedTargetLength t').

(** A run of adjustments, one per event. *)
Fixpoint adjust_all (events : list bool) : M unit :=
  match events with
  | [] => ret tt
  | success :: rest => adjust_chunk_size success ;; adjust_all rest
  end.

Section Driver.

(** The backend's answer to the [n]-th call, [n] counting from 0. *)
Variable backend : nat -> request -> api_result.

(** The fault of the [n]-th [save_json]. *)
Variable disk : nat -> fault.

(** [json.loads]; [None] is a [JSONDecodeError]. *)
Variable json_loads : str -> option json.

(** The handler is not itself protected: what its clean-up raises leaves
    [save_json]. *)
Definition save_json (data : dict str str) (filename : string) : M unit :=
  let file_path := filename in
  let temp_path := with_suffix file_path ".tmp"%string in
  f <- gets (fun st => disk (saves st)) ;;
  modify add_save ;;
  try_except
    (open_w f temp_path ;;
     json_dump f data temp_path ;;
     replace f temp_path file_path)
    (fun e =>
       logger_error (ErrorSaving filename e) ;;
       b <- path_exists f temp_path ;;
       if b : bool then unlink f temp_path else ret tt).

(** [d.update(v)] on a field of [self]: the entries a sequence yields are
    taken before the error.  [TypeError] stands for the [TypeError] or
    [ValueError] that [update] raises; no handler tells them apart. *)
Definition update (get : state -> dict str str) (set : dict str str -> state -> state)
    (v : field) : M unit :=
  modify (fun st => set (dict_update (get st) (entries v)) st) ;;
  match v with
  | Mapping _ => ret tt
  | _ => raise TypeError
  end.

(** [len(v) > 0]. *)
Definition nonempty (v : field) : M bool :=
  match v with
  | Mapping d => ret (0 <? len d)
  | Sequence _ => ret true
  | Scalar => raise TypeError
  end.

(** [response[0].text if response else ""]. *)
Definition first_text (blocks : list str) : str :=
  match blocks with
  | [] => []
  | t :: _ => t
  end.

Definition process_response (blocks : list str) (original_texts : dict str str) : M unit :=
  let response_text := first_text blocks in
  try_except
    (logger_info (FullResponseReceived response_text) ;;
     match response_text with
     | [] => logger_error EmptyResponseReceived
     | _ =>
         j <- match json_loads response_text with
              | Some j => ret j
              | None => raise JSONDecodeError
              end ;;
         match j with
         | JOther quiet => if quiet then ret tt else raise TypeError
         | JObject r =>
             match result r with
             | Some res =>
                 update translated set_translated res ;;
                 t <- gets translated ;;
                 save_json t translations_json ;;
                 logger_info (TranslatedTexts (len (entries res)))
             | None => ret tt
             end ;;
             match new_terms r with
             | Some terms =>
                 b <- nonempty terms ;;
                 if b : bool then
                   update glossary set_glossary terms ;;
                   g <- gets glossary ;;
                   save_json g glossary_json ;;
                   logger_info (AddedNewTerms (entries terms))
                 else ret tt
             | None => ret tt
             end ;;
             match comment r with
             | Some c => logger_info (TranslationComment c)
             | None => ret tt
             end
         end
     end)
    (fun e =>
       match e with
       | JSONDecodeError =>
           logger_error (ErrorProcessingResponse e) ;;
           logger_error (RawResponseText response_text)
       | _ =>
           logger_error (UnexpectedError e) ;;
           logger_error (RawResponse blocks)
       end).

(** [self.client.messages.create(...)] for the payload [request_data]. *)
Definition messages_create (request_data : request) : M (list str) :=
  n <- gets (fun st => length (calls st)) ;;
  modify (add_call request_data) ;;
  match backend n request_data with
  | ApiRaises => raise APIError
  | ApiContent blocks => ret blocks
  end.

(** How one pass of the retry loop ends: by [break], with the remaining
    texts recomputed, or by falling through with the new retry count. *)
Inductive pass : Type :=
| Break (remaining : dict str str)
| Again (retry_count : Z).

(** One pass of [while retry_count < max_retries]. *)
Definition attempt (all_texts : dict str str) (request_data : request)
    (original_chunk : dict str str) (retry_count : Z) : M pass :=
  let total_texts := len all_texts in
  try_except
    (logger_info (ProcessingChunkSize (len original_chunk)) ;;
     blocks <- messages_create request_data ;;
     logger_info (RawApiResponse (first_text blocks)) ;;
     process_response blocks original_chunk ;;
     adjust_chunk_size true ;;
     done <- gets translated ;;
     let remaining := not_in done all_texts in
     let processed_count := len done in
     (if total_texts =? 0 then raise ZeroDivisionError else ret tt) ;;
     logger_info (Progress processed_count total_texts) ;;
     g <- gets glossary ;;
     logger_info (CurrentGlossarySize (len g)) ;;
     sleep 1 ;;
     ret (Break remaining))
    (fun e =>
       let retry_count := retry_count + 1 in
       logger_error (ErrorProcessingChunk retry_count max_retries e) ;;
       adjust_chunk_size false ;;
       (if retry_count =? max_retries then
          logger_error (FailedToProcessChunk max_retries) ;;
          save_json original_chunk failed_translations_json
        else sleep (retry_count * 2)) ;;
       ret (Again retry_count)).

(** [while retry_count < max_retries]; the result is [remaining_texts] after
    the loop. *)
Fixpoint retry_loop (fuel : nat) (all_texts : dict str str) (request_data : request)
    (original_chunk remaining : dict str str) (retry_count : Z) : M (dict str str) :=
  if retry_count <? max_retries then
    match fuel with
    | O => timeout
    | S fuel' =>
        p <- attempt all_texts request_data original_chunk retry_count ;;
        match p with
        | Break remaining' => ret remaining'
        | Again retry_count' =>
            retry_loop fuel' all_texts request_data original_chunk remaining retry_count'
        end
    end
  else ret remaining.

(** [while remaining_texts], at most [fuel] passes. *)
Fixpoint chunk_loop (fuel : nat) (all_texts remaining : dict str str) : M unit :=
  match remaining with
  | [] => ret tt
  | _ =>
      match fuel with
      | O => timeout
      | S fuel' =>
          c <- create_next_chunk remaining ;;
          match c with
          | None => ret tt
          | Some (request_data, original_chunk) =>
              remaining' <- retry_loop (Z.to_nat max_retries) all_texts request_data
                              original_chunk remaining 0 ;;
              chunk_loop fuel' all_texts remaining'
          end
      end
  end.

Definition translate_all (fuel : nat) (all_texts : dict str str) : M (dict str str) :=
  let total_texts := len all_texts in
  done <- gets translated ;;
  let processed_count := len done in
  let remaining := not_in done all_texts in
  logger_info (StartingTranslation total_texts processed_count) ;;
  chunk_loop fuel all_texts remaining ;;
  logger_info TranslationCompleted ;;
  gets translated.

End Driver.

(** ** Vocabulary of the statements *)

(** [in_bounds] spelled out: 1200 is [5277655813324800 * 2 ^ -42] and 2400
    is [5277655813324800 * 2 ^ -41]. *)
Definition bounds_form (t : spec_float) : Prop :=
  exists m e, t = S754_finite false m e /\ Z.pos (digits2_pos m) = 53
    /\ ((e = -42 /\ 5277655813324800 <= Z.pos m)
        \/ (e = -41 /\ Z.pos m <= 5277655813324800)).

(** [p] is a contiguous part of [s]. *)
Definition substring (p s : str) : Prop := exists a b, s = a ++ p ++ b.

(** Longest first. *)
Definition longer_first (a b : str) : Prop := len b <= len a.

(** [term] occurs in at least one text of the chunk. *)
Definition occurs (term : str) (chunk : dict str str) : Prop :=
  exists text, In text (values chunk) /\ substring term text.

(** No accepted term properly contains [t]. *)
Definition uncovered (t : str) (accepted : dict str str) : Prop :=
  forall long_term : str, In long_term (keys accepted) -> t <> long_term -> ~ substring t long_term.

(** The total source-text length of a chunk. *)
Definition chunk_length (chunk : dict str str) : Z :=
  fold_right (fun kv acc => len (snd kv) + acc) 0 chunk.

(** Does the clean-up of a failed write raise?  [temp_exists] says whether
    the temporary file was there before the write. *)
Definition cleanup_raises (f : fault) (temp_exists : bool) : bool :=
  match f with
  | NoFault => false
  | OpenFails c =>
      match c with
      | CleanupWorks => false
      | ExistsFails => true
      | UnlinkFails => temp_exists
      end
  | DumpFails c | ReplaceFails c =>
      match c with
      | CleanupWorks => false
      | _ => true
      end
  end.

(** Does [save_json] of [filename] raise in [st]? *)
Definition save_raises (disk : nat -> fault) (filename : string) (st : state) : bool :=
  cleanup_raises (disk (saves st))
    (bool_decide (is_Some (files st !! with_suffix filename ".tmp"))).

(** What a failed write leaves at the temporary path when the clean-up
    raises. *)
Definition left_behind (f : fault) (data : dict str str) (before : option content)
    : option content :=
  match f with
  | DumpFails _ => Some (Truncated data)
  | ReplaceFails _ => Some (JsonText data)
  | _ => before
  end.

(** What [save_json] leaves behind, by the fault of the disk. *)
Definition saved (f : fault) (data : dict str str) (filename : string) (st st' : state) : Prop :=
  let temp_path := with_suffix filename ".tmp" in
  match f with
  | NoFault =>
      files st' = <[filename := JsonText data]> (delete temp_path (files st))
      /\ log st' = log st
  | _ =>
      files st' !! filename = files st !! filename
      /\ files st' !! temp_path
         = (if cleanup_raises f (bool_decide (is_Some (files st !! temp_path)))
            then left_behind f data (files st !! temp_path)
            else None)
      /\ (forall path : string, path <> temp_path -> files st' !! path = files st !! path)
      /\ log st' = log st ++ [(ERROR, ErrorSaving filename OSError)]
  end.

(** The state in which the [except] branch of a pass decides between giving
    up and backing off. *)
Definition failed_pass (request_data : request) (original_chunk : dict str str)
    (retry_count : Z) (e : exn) (st : state) : state :=
  add_log (INFO, AdjustedTargetLength (adjust false (target_length st)))
    (set_target_length (adjust false (target_length st))
       (add_log (ERROR, ErrorProcessingChunk (retry_count + 1) max_retries e)
          (add_call request_data
             (add_log (INFO, ProcessingChunkSize (len original_chunk)) st)))).

(** The state after a pass whose response could not be parsed. *)
Definition unparsed_pass (request_data : request) (original_chunk all_texts : dict str str)
    (text : str) (st : state) : state :=
  add_sleep 1
    (add_log (INFO, CurrentGlossarySize (len (glossary st)))
       (add_log (INFO, Progress (len (translated st)) (len all_texts))
          (add_log (INFO, AdjustedTargetLength (adjust true (target_length st)))
             (set_target_length (adjust true (target_length st))
                (add_log (ERROR, RawResponseText text)
                   (add_log (ERROR, ErrorProcessingResponse JSONDecodeError)
                      (add_log (INFO, FullResponseReceived text)
                         (add_log (INFO, RawApiResponse text)
                            (add_call request_data
                               (add_log (INFO, ProcessingChunkSize (len original_chunk))
                                  st)))))))))).

(** The value of a positive finite float in units of [2 ^ -42]: 1200 is
    [5277655813324800] of them. *)
Definition scaled (t : spec_float) : Z :=
  match t with
  | S754_finite false m e => Z.pos m * 2 ^ (e + 42)
  | _ => 0
  end.

(** The budgets a run can meet: the initial 1000 and the operating range. *)
Definition budget_ok (t : spec_float) : Prop :=
  t = float_of_int 1000 \/ in_bounds t = true.

(** [st'] continues [st]: no key has left [translated] or [glossary], the
    log, the calls and the sleeps have only grown at their end, and the
    budget is still one a run can meet. *)
Definition continues (st st' : state) : Prop :=
  (forall k : str, In k (keys (translated st)) -> In k (keys (translated st')))
  /\ (forall k : str, In k (keys (glossary st)) -> In k (keys (glossary st')))
  /\ (exists l, log st' = log st ++ l)
  /\ (exists c, calls st' = calls st ++ c)
  /\ (exists s, sleeps st' = sleeps st ++ s)
  /\ (saves st <= saves st')%nat
  /\ (budget_ok (target_length st) -> budget_ok (target_length st')).

(** Every run of [m] ends in a state that continues the one it started in. *)
Definition keeps {A : Type} (m : M A) : Prop := forall st, continues st (snd (m st)).

(** No run of [m] ends in an exception. *)
Definition never_raises {A : Type} (m : M A) : Prop := forall st e, fst (m st) <> Raise e.

(** A run of [m] that ends in an exception ends in one that [ok] admits. *)
Definition raises_only {A : Type} (ok : exn -> Prop) (m : M A) : Prop :=
  forall st e, fst (m st) = Raise e -> ok e.

(** The one exception that leaves the driver: the [OSError] of a clean-up
    that fails, on a disk that has such a fault in store. *)
Definition cleanup_error (disk : nat -> fault) (e : exn) : Prop :=
  e = OSError /\ exists n : nat, cleanup_of (disk n) <> CleanupWorks.

(** What [process_response] gets to merge: nothing for an empty text or a
    text that does not parse. *)
Definition parsed_response (json_loads : str -> option json) (blocks : list str)
    : option json :=
  match first_text blocks with
  | [] => None
  | text => json_loads text
  end.

(** The entries of a field that may be absent. *)
Definition entries_of (v : option field) : dict str str :=
  match v with
  | Some v => entries v
  | None => []
  end.

(** [translated] after [process_response]: the entries [update] took from
    the result. *)
Definition merged_translated (j : option json) (t : dict str str) : dict str str :=
  match j with
  | Some (JObject r) => dict_update t (entries_of (result r))
  | _ => t
  end.

(** Does the block of [process_response] that merges the result end in an
    exception?  It does when the result is no mapping, and when the save
    that follows the merge raises. *)
Definition result_block_raises (disk : nat -> fault) (r : response) (st : state) : bool :=
  match result r with
  | None => false
  | Some (Mapping _) => save_raises disk translations_json st
  | Some _ => true
  end.

(** [glossary] after [process_response]: the entries [update] took from the
    new terms, unless the result block raised before. *)
Definition merged_glossary (disk : nat -> fault) (j : option json) (st : state)
    : dict str str :=
  match j with
  | Some (JObject r) =>
      if result_block_raises disk r st then glossary st
      else dict_update (glossary st) (entries_of (new_terms r))
  | _ => glossary st
  end.

(** A backend that cooperates on [all_texts]: every request for fragments
    of [all_texts] is answered by a text that parses to a response whose
    result has an entry for each fragment sent. *)
Definition cooperative (backend : nat -> request -> api_result)
    (json_loads : str -> option json) (all_texts : dict str str) : Prop :=
  forall (n : nat) (r : request),
    (forall id_ : str, In id_ (keys (request_texts r)) -> In id_ (keys all_texts)) ->
    exists blocks resp res,
      backend n r = ApiContent blocks
      /\ parsed_response json_loads blocks = Some (JObject resp)
      /\ result resp = Some (Mapping res)
      /\ forall id_ : str, In id_ (keys (request_texts r)) -> In id_ (keys res).

(** A request worth sending from [st]: it carries at least one fragment,
    and only fragments of [all_texts] that [st] has no translation for. *)
Definition fresh_request (all_texts : dict str str) (st : state) (r : request) : Prop :=
  request_texts r <> []
  /\ forall id_ : str,
       In id_ (keys (request_texts r)) ->
       In id_ (keys all_texts) /\ ~ In id_ (keys (translated st)).

(** [st'] differs from [st] in the log at most. *)
Definition only_logged (st st' : state) : Prop :=
  glossary st' = glossary st /\ translated st' = translated st
  /\ target_length st' = target_length st /\ files st' = files st
  /\ calls st' = calls st /\ saves st' = saves st /\ sleeps st' = sleeps st.

(** A chunk within budget, or a single fragment. *)
Definition well_sized (target : spec_float) (chunk : dict str str) : Prop :=
  int_gt_float (chunk_length chunk) target = false \/ length chunk = 1%nat.

(** ** Inputs of the concrete runs *)

(** The glossary and the terms of the suppression example: "刀法" and
    "快刀法" with their translations "검법" and "쾌검법". *)
Definition dao_fa : str := [0x5200; 0x6CD5]%N.

Definition kuai_dao_fa : str := [0x5FEB; 0x5200; 0x6CD5]%N.

Definition geom_beop : str := [0xAC80; 0xBC95]%N.

Definition kwae_geom_beop : str := [0xCF8C; 0xAC80; 0xBC95]%N.

Definition sword_glossary : dict str str := [(dao_fa, geom_beop); (kuai_dao_fa, kwae_geom_beop)].

(** A single fragment of 1001 characters, one more than the initial budget. *)
Definition oversized_fragment : dict str str := [([65%N], repeat 0x4F60%N 1001)].

(** A save directory with an earlier [translations.json]. *)
Definition old_translations : dict str str := [([65%N], [0xC548; 0xB155]%N)].

Definition old_directory : gmap string content :=
  <[translations_json := JsonText old_translations]> ∅.

(** A save directory with an earlier [failed_translations.json]. *)
Definition failed_directory : gmap string content :=
  <[failed_translations_json := JsonText old_translations]> ∅.

(** The fragments "A" : "你好" and "B" : "世界". *)
Definition two_fragments : dict str str :=
  [([65%N], [0x4F60; 0x597D]%N); ([66%N], [0x4E16; 0x754C]%N)].

(** A backend that always raises, one that always answers "oops", a disk
    without faults and a [json.loads] that rejects every text. *)
Definition failing_backend (n : nat) (r : request) : api_result := ApiRaises.

Definition oops_backend (n : nat) (r : request) : api_result :=
  ApiContent [[0x6F; 0x6F; 0x70; 0x73]%N].

Definition sound_disk (n : nat) : fault := NoFault.

Definition no_json (text : str) : option json := None.

(** The translations "안녕" and "세계" of the two fragments, an answer that
    carries them with the two sword terms, the text "{}" that stands for
    it, and the oracles that return that text and parse every text to a
    given response. *)
Definition two_translations : dict str str :=
  [([65%N], [0xC548; 0xB155]%N); ([66%N], [0xC138; 0xACC4]%N)].

Definition full_answer : response :=
  mkResponse (Some (Mapping two_translations)) (Some (Mapping sword_glossary)) None.

Definition braces : list str := [[123; 125]%N].

Definition answering_backend (n : nat) (r : request) : api_result := ApiContent braces.

Definition parses_to (r : response) (text : str) : option json := Some (JObject r).

(** A disk on which every dump fails and the temporary file can then not be
    removed. *)
Definition stuck_disk (n : nat) : fault := DumpFails UnlinkFails.

(** A translator whose budget has reached the floor of 1200. *)
Definition at_floor : state := set_target_length (float_of_int 1200) (init [] [] ∅).

(** * Proofs *)

(** ** The model at work *)

Example float_1_2_bits : float_1_2 = S754_finite false 0x13333333333333 (-52).
Proof. reflexivity. Qed.

Example float_0_8_bits : float_0_8 = S754_finite false 0x1999999999999A (-53).
Proof. reflexivity. Qed.

Example adjust_from_1000 :
  adjust true (float_of_int 1000) = float_of_int 1200
  /\ adjust false (float_of_int 1000) = float_of_int 1200
  /\ adjust true (float_of_int 1200) = float_of_int 1440
  /\ adjust false (float_of_int 1200) = float_of_int 1200
  /\ adjust true (float_of_int 2400) = float_of_int 2400
  /\ adjust false (float_of_int 2400) = float_of_int 1920.
Proof. vm_compute. repeat split; reflexivity. Qed.

Example with_suffix_tmp :
  with_suffix glossary_json ".tmp" = "glossary.tmp"%string
  /\ with_suffix "a.b.c" ".tmp" = "a.b.tmp"%string
  /\ with_suffix ".hidden" ".tmp" = ".hidden.tmp"%string
  /\ with_suffix "plain" ".tmp" = "plain.tmp"%string
  /\ with_suffix "a.b/c" ".tmp" = "a.b/c.tmp"%string
  /\ with_suffix "a.b/c.json" ".tmp" = "a.b/c.tmp"%string
  /\ with_suffix "a/.hidden" ".tmp" = "a/.hidden.tmp"%string.
Proof. vm_compute. repeat split; reflexivity. Qed.

Example sorted_keeps_ties_in_order :
  sorted_by_len_desc [[1]; [2; 2]; [3]; [4; 4; 4]; [5; 5]; [6]]%N
  = [[4; 4; 4]; [2; 2]; [5; 5]; [1]; [3]; [6]]%N.
Proof. reflexivity. Qed.

Example dict_set_keeps_position :
  dict_set [66%N] [1%N] two_fragments = [([65%N], [0x4F60; 0x597D]%N); ([66%N], [1%N])]
  /\ dict_set [67%N] [1%N] two_fragments = two_fragments ++ [([67%N], [1%N])].
Proof. vm_compute. split; reflexivity. Qed.

(** The end-to-end scenario: both fragments go out in one request, the
    answer is merged and saved, and the loop ends after one pass. *)
Example end_to_end :
  let answer := mkResponse
                  (Some (Mapping [([65%N], [0xC548; 0xB155]%N); ([66%N], [0xC138; 0xACC4]%N)]))
                  (Some (Mapping [])) None in
  let r := translate_all (fun _ _ => ApiContent [[123; 125]%N]) sound_disk
             (fun _ => Some (JObject answer)) 1 two_fragments (init [] [] ∅) in
  fst r = Ret [([65%N], [0xC548; 0xB155]%N); ([66%N], [0xC138; 0xACC4]%N)]
  /\ calls (snd r) = [mkRequest [] two_fragments]
  /\ files (snd r) !! translations_json = Some (JsonText (translated (snd r)))
  /\ not_in (translated (snd r)) two_fragments = []
  /\ sleeps (snd r) = [1].
Proof. vm_compute. repeat split; reflexivity. Qed.

(** Start-up resumes from the saved translations and falls back to an
    empty glossary when the stored one does not parse. *)
Example startup_resumes :
  let dir := <[glossary_json := Truncated sword_glossary]> old_directory in
  let st := snd (startup (init [] [] dir)) in
  translated st = old_translations
  /\ glossary st = []
  /\ log st = [(ERROR, ErrorLoading glossary_json JSONDecodeError)]
  /\ not_in (translated st) two_fragments = [([66%N], [0x4E16; 0x754C]%N)].
Proof. vm_compute. repeat split; reflexivity. Qed.

(** A chunk that fails twice and then succeeds: the back-off grows by 2. *)
Example third_attempt_succeeds :
  let answer := mkResponse
                  (Some (Mapping [([65%N], [0xC548; 0xB155]%N); ([66%N], [0xC138; 0xACC4]%N)]))
                  None None in
  let backend := fun (n : nat) (_ : request) =>
                   if (n <? 2)%nat then ApiRaises else ApiContent [[123; 125]%N] in
  let r := translate_all backend sound_disk (fun _ => Some (JObject answer)) 1 two_fragments
             (init [] [] ∅) in
  length (calls (snd r)) = 3%nat
  /\ sleeps (snd r) = [2; 4; 1]
  /\ translated (snd r) = [([65%N], [0xC548; 0xB155]%N); ([66%N], [0xC138; 0xACC4]%N)]
  /\ files (snd r) !! failed_translations_json = None.
Proof. vm_compute. repeat split; reflexivity. Qed.

(** ** Rounding of binary64 products

    [binary_round_aux] shifts the exact product right until 53 digits are
    left, rounds to nearest even and renormalises.  For a product of two
    53-digit mantissas the result is the truncated quotient or its successor. *)

Lemma digits2_pos_bounds p :
  2 ^ (Z.pos (digits2_pos p) - 1) <= Z.pos p < 2 ^ Z.pos (digits2_pos p).
Proof.
  induction p as [p IH|p IH|]; cbn [digits2_pos].
  - rewrite Pos2Z.inj_succ.
    replace (Z.succ (Z.pos (digits2_pos p)) - 1) with (Z.succ (Z.pos (digits2_pos p) - 1)) by lia.
    rewrite !Z.pow_succ_r by lia. lia.
  - rewrite Pos2Z.inj_succ.
    replace (Z.succ (Z.pos (digits2_pos p)) - 1) with (Z.succ (Z.pos (digits2_pos p) - 1)) by lia.
    rewrite !Z.pow_succ_r by lia. lia.
  - cbn. lia.
Qed.

Lemma digits2_pos_unique p k :
  2 ^ (k - 1) <= Z.pos p < 2 ^ k -> Z.pos (digits2_pos p) = k.
Proof.
  intros [Hlo Hhi].
  pose proof (digits2_pos_bounds p) as [Dlo Dhi].
  set (d := Z.pos (digits2_pos p)) in *.
  assert (0 < k).
  { destruct k as [|k|k]; [cbn in Hhi; lia|lia|]. rewrite Z.pow_neg_r in Hhi; lia. }
  destruct (Z.lt_trichotomy d k) as [Hlt|[Heq|Hgt]]; [|done|].
  - assert (2 ^ d <= 2 ^ (k - 1)) by (apply Z.pow_le_mono_r; lia). lia.
  - assert (2 ^ k <= 2 ^ (d - 1)) by (apply Z.pow_le_mono_r; lia). lia.
Qed.

Lemma shr_1_m mrs : 0 <= shr_m mrs -> shr_m (shr_1 mrs) = shr_m mrs / 2 /\ 0 <= shr_m (shr_1 mrs).
Proof.
  destruct mrs as [m r s]; cbn [shr_m]. intros Hm.
  destruct m as [|[p|p|]|p]; cbn [shr_1 shr_m]; try lia; (split; [|lia]).
  - reflexivity.
  - apply Z.div_unique with 1; lia.
  - apply Z.div_unique with 0; lia.
  - reflexivity.
Qed.

Lemma pow2_xO p : 2 ^ Z.pos p~0 = 2 ^ Z.pos p * 2 ^ Z.pos p.
Proof. rewrite Pos2Z.inj_xO, <- Z.pow_add_r by lia. f_equal. lia. Qed.

Lemma pow2_xI p : 2 ^ Z.pos p~1 = 2 * (2 ^ Z.pos p * 2 ^ Z.pos p).
Proof.
  rewrite Pos2Z.inj_xI, <- Z.pow_add_r by lia.
  replace (2 * Z.pos p + 1) with (Z.succ (Z.pos p + Z.pos p)) by lia.
  now rewrite Z.pow_succ_r by lia.
Qed.

Lemma iter_shr_1_m p : forall mrs, 0 <= shr_m mrs ->
  shr_m (SpecFloat.iter_pos shr_1 p mrs) = shr_m mrs / 2 ^ Z.pos p
  /\ 0 <= shr_m (SpecFloat.iter_pos shr_1 p mrs).
Proof.
  induction p as [p IH|p IH|]; intros mrs Hm; cbn [SpecFloat.iter_pos].
  - destruct (shr_1_m mrs Hm) as [E1 P1].
    destruct (IH _ P1) as [E2 P2]. destruct (IH _ P2) as [E3 P3].
    split; [|done]. rewrite E3, E2, E1, pow2_xI.
    rewrite !Z.div_div by lia. reflexivity.
  - destruct (IH _ Hm) as [E2 P2]. destruct (IH _ P2) as [E3 P3].
    split; [|done]. rewrite E3, E2, pow2_xO.
    rewrite !Z.div_div by lia. reflexivity.
  - destruct (shr_1_m mrs Hm) as [E1 P1]. split; [|done]. rewrite E1. done.
Qed.

Lemma round_nearest_even_bounds m l :
  m <= round_nearest_even m l <= m + 1.
Proof. destruct l as [|[| |]]; cbn; [| destruct (Z.even m) | |]; lia. Qed.

Lemma fexp_normal k : -1074 <= k - 53 -> fexp prec emax k = k - 53.
Proof. unfold fexp, emin, prec, emax. lia. Qed.

Lemma shr_fexp_shift P E :
  53 < Z.pos (digits2_pos P) ->
  -1074 <= E + Z.pos (digits2_pos P) - 53 ->
  exists mrs,
    shr_fexp prec emax (Z.pos P) E loc_Exact = (mrs, E + Z.pos (digits2_pos P) - 53)
    /\ shr_m mrs = Z.pos P / 2 ^ (Z.pos (digits2_pos P) - 53).
Proof.
  intros Hd He. unfold shr_fexp. cbn [Zdigits2 shr_record_of_loc].
  rewrite fexp_normal by lia.
  remember (Z.pos (digits2_pos P) + E - 53 - E) as n eqn:Hn.
  assert (n = Z.pos (digits2_pos P) - 53) as Hn' by lia.
  destruct n as [|pn|pn]; try lia. cbn [shr].
  eexists. split; [f_equal; lia|].
  rewrite <- Hn'.
  apply (iter_shr_1_m pn (Build_shr_record (Z.pos P) false false)). cbn. lia.
Qed.

Lemma shr_fexp_keep p e :
  Z.pos (digits2_pos p) = 53 -> -1074 <= e ->
  shr_fexp prec emax (Z.pos p) e loc_Exact = (Build_shr_record (Z.pos p) false false, e).
Proof.
  intros Hd He. unfold shr_fexp. cbn [Zdigits2 shr_record_of_loc].
  rewrite Hd, fexp_normal by lia.
  replace (53 + e - 53 - e) with 0 by lia. reflexivity.
Qed.

Lemma shr_fexp_carry e :
  -1074 <= e ->
  shr_fexp prec emax (2 ^ 53) e loc_Exact = (Build_shr_record (2 ^ 52) false false, e + 1).
Proof.
  intros He. unfold shr_fexp.
  change (Zdigits2 (2 ^ 53)) with 54.
  rewrite fexp_normal by lia.
  replace (54 + e - 53 - e) with 1 by lia. reflexivity.
Qed.

Lemma binary_round_aux_spec s P E :
  53 < Z.pos (digits2_pos P) ->
  -1074 <= E + Z.pos (digits2_pos P) - 53 ->
  E + Z.pos (digits2_pos P) - 52 <= 971 ->
  exists m e,
    binary_round_aux prec emax s (Z.pos P) E loc_Exact = S754_finite s m e
    /\ Z.pos (digits2_pos m) = 53
    /\ ((e = E + Z.pos (digits2_pos P) - 53
         /\ Z.pos P / 2 ^ (Z.pos (digits2_pos P) - 53) <= Z.pos m
            <= Z.pos P / 2 ^ (Z.pos (digits2_pos P) - 53) + 1)
        \/ (e = E + Z.pos (digits2_pos P) - 52 /\ Z.pos m = 2 ^ 52
            /\ Z.pos P / 2 ^ (Z.pos (digits2_pos P) - 53) = 2 ^ 53 - 1)).
Proof.
  intros Hd Hlo Hhi.
  destruct (shr_fexp_shift P E Hd Hlo) as (mrs & Hshr & Hq).
  pose proof (digits2_pos_bounds P) as [Plo Phi].
  set (d := Z.pos (digits2_pos P)) in *.
  set (q := Z.pos P / 2 ^ (d - 53)) in *.
  assert (2 ^ 52 <= q < 2 ^ 53) as [Qlo Qhi].
  { assert (0 < 2 ^ (d - 53)) by (apply Z.pow_pos_nonneg; lia).
    assert (2 ^ (d - 1) = 2 ^ 52 * 2 ^ (d - 53)) as E1
      by (rewrite <- Z.pow_add_r by lia; f_equal; lia).
    assert (2 ^ d = 2 ^ 53 * 2 ^ (d - 53)) as E2
      by (rewrite <- Z.pow_add_r by lia; f_equal; lia).
    split.
    - apply Z.div_le_lower_bound; lia.
    - apply Z.div_lt_upper_bound; lia. }
  pose proof (round_nearest_even_bounds q (loc_of_shr_record mrs)) as Hr.
  unfold binary_round_aux. rewrite Hshr, Hq. fold q.
  set (m1 := round_nearest_even q (loc_of_shr_record mrs)) in *.
  destruct (Z.eq_dec m1 (2 ^ 53)) as [Hc|Hc].
  - rewrite Hc, shr_fexp_carry by lia. cbn [shr_m].
    change (2 ^ 52) with (Z.pos (2 ^ 52)%positive).
    cbv iota beta.
    destruct (Z.leb_spec (E + d - 53 + 1) (emax - prec)) as [_|Hbad];
      [|unfold emax, prec in Hbad; lia].
    exists (2 ^ 52)%positive, (E + d - 53 + 1). split; [done|]. split; [done|].
    right. split; [lia|]. split; [done|lia].
  - destruct m1 as [|p1|p1] eqn:Hm1; try lia.
    assert (Z.pos (digits2_pos p1) = 53) as Hd1
      by (apply digits2_pos_unique; change (53 - 1) with 52; lia).
    rewrite shr_fexp_keep by (done || lia). cbn [shr_m].
    destruct (Z.leb_spec (E + d - 53) (emax - prec)) as [_|Hbad];
      [|unfold emax, prec in Hbad; lia].
    exists p1, (E + d - 53). split; [done|]. split; [done|].
    left. split; [done|lia].
Qed.

Ltac cmp_cases := split; intros; first [done | lia | exfalso; lia].

Lemma SFltb_pos m1 e1 m2 e2 :
  SFltb (S754_finite false m1 e1) (S754_finite false m2 e2) = true
  <-> e1 < e2 \/ (e1 = e2 /\ Z.pos m1 < Z.pos m2).
Proof.
  unfold SFltb, SFcompare.
  destruct (Z.compare_spec e1 e2); [|cmp_cases ..].
  change (Pos.compare_cont Eq m1 m2) with (Pos.compare m1 m2).
  destruct (Pos.compare_spec m1 m2); cmp_cases.
Qed.

Lemma SFleb_pos m1 e1 m2 e2 :
  SFleb (S754_finite false m1 e1) (S754_finite false m2 e2) = true
  <-> e1 < e2 \/ (e1 = e2 /\ Z.pos m1 <= Z.pos m2).
Proof.
  unfold SFleb, SFcompare.
  destruct (Z.compare_spec e1 e2); [|cmp_cases ..].
  change (Pos.compare_cont Eq m1 m2) with (Pos.compare m1 m2).
  destruct (Pos.compare_spec m1 m2); cmp_cases.
Qed.

Lemma float_of_int_1200 : float_of_int 1200 = S754_finite false 5277655813324800 (-42).
Proof. vm_compute. reflexivity. Qed.

Lemma float_of_int_2400 : float_of_int 2400 = S754_finite false 5277655813324800 (-41).
Proof. vm_compute. reflexivity. Qed.

Lemma valid_binary_normal s m e :
  -1074 < e <= 971 ->
  valid_binary prec emax (S754_finite s m e) = true <-> Z.pos (digits2_pos m) = 53.
Proof.
  intros He. cbn [valid_binary]. unfold bounded, canonical_mantissa.
  rewrite andb_true_iff, Z.eqb_eq, Z.leb_le.
  unfold fexp, emin, prec, emax. lia.
Qed.

Lemma in_bounds_form t : in_bounds t = true <-> bounds_form t.
Proof.
  unfold in_bounds, bounds_form.
  rewrite float_of_int_1200, float_of_int_2400, !andb_true_iff.
  split.
  - intros [[Hv Hlo] Hhi].
    destruct t as [s|s| |s m e]; try discriminate; try (destruct s; discriminate).
    destruct s; [discriminate|].
    apply SFleb_pos in Hlo, Hhi.
    apply valid_binary_normal in Hv.
    + exists m, e. repeat split; [done|lia].
    + cbn [valid_binary] in Hv. unfold bounded in Hv.
      apply andb_true_iff in Hv as [_ Hv]. apply Z.leb_le in Hv.
      unfold emax, prec in Hv. lia.
  - intros (m & e & -> & Hd & He). repeat split.
    + apply valid_binary_normal; [lia|done].
    + apply SFleb_pos. lia.
    + apply SFleb_pos. lia.
Qed.

Lemma mul_digits (m c : positive) :
  Z.pos (digits2_pos m) = 53 -> Z.pos (digits2_pos c) = 53 ->
  Z.pos (digits2_pos (m * c)) = 105 \/ Z.pos (digits2_pos (m * c)) = 106.
Proof.
  intros Hm Hc.
  pose proof (digits2_pos_bounds m) as Bm. rewrite Hm in Bm.
  pose proof (digits2_pos_bounds c) as Bc. rewrite Hc in Bc.
  pose proof (digits2_pos_bounds (m * c)) as Bp.
  rewrite Pos2Z.inj_mul in Bp.
  set (d := Z.pos (digits2_pos (m * c))) in *.
  change (53 - 1) with 52 in *.
  assert (2 ^ 104 <= Z.pos m * Z.pos c < 2 ^ 106) as [Plo Phi].
  { change (2 ^ 104) with (2 ^ 52 * 2 ^ 52). change (2 ^ 106) with (2 ^ 53 * 2 ^ 53).
    split; [apply Z.mul_le_mono_nonneg; lia | apply Z.mul_lt_mono_nonneg; lia]. }
  destruct (Z.le_gt_cases d 104) as [Hle|Hgt].
  { assert (2 ^ d <= 2 ^ 104) by (apply Z.pow_le_mono_r; lia). lia. }
  destruct (Z.le_gt_cases 107 d) as [Hge|Hlt]; [|lia].
  assert (2 ^ 106 <= 2 ^ (d - 1)) by (apply Z.pow_le_mono_r; lia). lia.
Qed.

Lemma bounds_form_2400 : bounds_form (S754_finite false 5277655813324800 (-41)).
Proof.
  exists 5277655813324800%positive, (-41).
  split; [done|]. split; [vm_compute; reflexivity|]. right. lia.
Qed.

Lemma bounds_form_1200 : bounds_form (S754_finite false 5277655813324800 (-42)).
Proof.
  exists 5277655813324800%positive, (-42).
  split; [done|]. split; [vm_compute; reflexivity|]. left. lia.
Qed.

Lemma adjust_success_form t : bounds_form t -> bounds_form (adjust true t).
Proof.
  intros (m & e & -> & Hd & He).
  unfold adjust, float_1_2, float_mul, SFmul, py_min. cbn [xorb].
  rewrite float_of_int_2400.
  assert (Z.pos (digits2_pos 5404319552844595) = 53) as Hc by (vm_compute; reflexivity).
  pose proof (mul_digits m _ Hd Hc) as HD.
  destruct (binary_round_aux_spec false (m * 5404319552844595) (e + -52))
    as (m' & e' & -> & Hd' & Hcase); [lia ..|].
  destruct (SFltb _ (S754_finite false m' e')) eqn:Hlt; [apply bounds_form_2400|].
  assert (~ (-41 < e' \/ (-41 = e' /\ 5277655813324800 < Z.pos m'))) as Hle
    by (rewrite <- SFltb_pos, Hlt; discriminate).
  exists m', e'. split; [done|]. split; [done|].
  destruct Hcase as [[-> Hq]|(-> & Hm' & _)]; [|lia].
  destruct HD as [HD|HD]; rewrite HD in *; [|lia].
  destruct He as [[-> Hm]|[-> Hm]]; [|lia].
  left. split; [lia|].
  change (2 ^ (105 - 53)) with 4503599627370496 in Hq.
  assert (Z.pos m <= Z.pos (m * 5404319552844595) / 4503599627370496); [|lia].
  apply Z.div_le_lower_bound; lia.
Qed.

Lemma adjust_failure_form t : bounds_form t -> bounds_form (adjust false t).
Proof.
  intros (m & e & -> & Hd & He).
  unfold adjust, float_0_8, float_mul, SFmul, py_max. cbn [xorb].
  rewrite float_of_int_1200.
  assert (Z.pos (digits2_pos 7205759403792794) = 53) as Hc by (vm_compute; reflexivity).
  pose proof (mul_digits m _ Hd Hc) as HD.
  destruct (binary_round_aux_spec false (m * 7205759403792794) (e + -53))
    as (m' & e' & -> & Hd' & Hcase); [lia ..|].
  destruct (SFltb (S754_finite false m' e') _) eqn:Hlt; [apply bounds_form_1200|].
  assert (~ (e' < -42 \/ (e' = -42 /\ Z.pos m' < 5277655813324800))) as Hge
    by (rewrite <- SFltb_pos, Hlt; discriminate).
  exists m', e'. split; [done|]. split; [done|].
  assert (e = -41 -> Z.pos (m * 7205759403792794) / 2 ^ 53 < 5277655813324800) as Hq53.
  { intros ->. apply Z.div_lt_upper_bound; lia. }
  change (2 ^ 53) with 9007199254740992 in Hq53.
  destruct HD as [HD|HD]; rewrite HD in *;
    change (2 ^ (105 - 53)) with 4503599627370496 in *;
    change (2 ^ (106 - 53)) with 9007199254740992 in *;
    change (2 ^ 53 - 1) with 9007199254740991 in *;
    change (2 ^ 52) with 4503599627370496 in *; lia.
Qed.

Lemma adjust_in_bounds success t :
  in_bounds t = true -> in_bounds (adjust success t) = true.
Proof.
  rewrite !in_bounds_form. destruct success; [apply adjust_success_form|apply adjust_failure_form].
Qed.

(** ** The adaptive budget *)

Lemma adjust_chunk_size_run success st :
  adjust_chunk_size success st
  = (Ret tt,
     add_log (INFO, AdjustedTargetLength (adjust success (target_length st)))
       (set_target_length (adjust success (target_length st)) st)).
Proof. reflexivity. Qed.

(** C4: once the target-length budget lies in [1200, 2400], every sequence of
    success and failure adjustments made by [adjust_chunk_size] returns
    normally and leaves the budget in [1200, 2400]. *)
Theorem budget_stays_in_bounds (events : list bool) (st : state) :
  in_bounds (target_length st) = true ->
  fst (adjust_all events st) = Ret tt
  /\ in_bounds (target_length (snd (adjust_all events st))) = true.
Proof.
  revert st. induction events as [|success rest IH]; intros st Hin.
  - split; [reflexivity|exact Hin].
  - cbn [adjust_all]. unfold bind at 1. rewrite adjust_chunk_size_run.
    apply IH. cbn. now apply adjust_in_bounds.
Qed.

Lemma budget_stays_in_bounds_witness :
  let st := set_target_length (float_of_int 1200) (init [] [] ∅) in
  let events := [true; true; false; true; true; true; false] in
  in_bounds (target_length st) = true
  /\ fst (adjust_all events st) = Ret tt
  /\ in_bounds (target_length (snd (adjust_all events st))) = true.
Proof.
  split; [vm_compute; reflexivity|].
  apply (budget_stays_in_bounds
           [true; true; false; true; true; true; false]
           (set_target_length (float_of_int 1200) (init [] [] ∅))).
  vm_compute. reflexivity.
Defined.

(** ** Strings and dictionaries *)

Lemma startswith_spec s p : startswith s p = true <-> exists b, s = p ++ b.
Proof.
  revert s. induction p as [|c p IH]; intros s; cbn [startswith].
  - split; [intros _; now exists s|done].
  - destruct s as [|d s].
    + split; [done|intros [b Hb]; discriminate].
    + rewrite andb_true_iff, bool_decide_eq_true, IH. split.
      * intros [-> [b ->]]. now exists b.
      * intros [b Hb]. injection Hb as -> ->. split; [done|now exists b].
Qed.

Lemma str_in_spec p s : str_in p s = true <-> substring p s.
Proof.
  unfold substring. induction s as [|d s IH]; cbn [str_in].
  - rewrite orb_false_r, startswith_spec. split.
    + intros [b Hb]. now exists [], b.
    + intros (a & b & Hab). destruct a; [now exists b|discriminate].
  - rewrite orb_true_iff, startswith_spec, IH. split.
    + intros [[b Hb]|(a & b & Hab)]; [now exists [], b|].
      exists (d :: a), b. now rewrite Hab.
    + intros (a & b & Hab). destruct a as [|x a]; [left; now exists b|].
      right. injection Hab as -> ->. now exists a, b.
Qed.

Lemma substring_len p s : substring p s -> len p <= len s.
Proof. intros (a & b & ->). unfold len. rewrite !length_app. lia. Qed.

Lemma substring_same_len p s : substring p s -> len p = len s -> p = s.
Proof.
  intros (a & b & ->). unfold len. rewrite !length_app. intros Hl.
  destruct a; [|cbn in Hl; lia]. destruct b; [|cbn in Hl; lia].
  now rewrite app_nil_r.
Qed.

Lemma proper_substring_len p s : substring p s -> p <> s -> len p < len s.
Proof.
  intros Hs Hne. pose proof (substring_len p s Hs).
  destruct (Z.eq_dec (len p) (len s)) as [He|He]; [|lia].
  now apply substring_same_len in He.
Qed.

Lemma is_subprocess_spec short_term term_list :
  is_subprocess short_term term_list = true
  <-> exists long_term,
        In long_term term_list /\ short_term <> long_term /\ substring short_term long_term.
Proof.
  induction term_list as [|t l IH]; cbn [is_subprocess].
  - split; [done|intros (? & [] & _)].
  - destruct (negb (bool_decide (short_term = t)) && str_in short_term t) eqn:E.
    + apply andb_true_iff in E as [E1 E2].
      apply negb_true_iff, bool_decide_eq_false in E1. apply str_in_spec in E2.
      split; [intros _; exists t; cbn; tauto|done].
    + rewrite IH. split.
      * intros (x & Hx & Hne & Hs). exists x. cbn. tauto.
      * intros (x & [<-|Hx] & Hne & Hs); [|now exists x].
        apply str_in_spec in Hs.
        rewrite (bool_decide_eq_false_2 _ Hne), Hs in E. discriminate.
Qed.

Section DictFacts.
Context {K V : Type} `{EqDecision K}.
Implicit Types (d : dict K V) (k : K) (v : V).

Lemma dict_get_set k k' v d :
  dict_get k' (dict_set k v d) = if decide (k' = k) then Some v else dict_get k' d.
Proof.
  induction d as [|[k0 v0] d IH]; cbn [dict_set dict_get].
  - destruct (decide (k' = k)); reflexivity.
  - destruct (decide (k = k0)) as [->|Hne]; cbn [dict_get].
    + destruct (decide (k' = k0)); reflexivity.
    + rewrite IH. destruct (decide (k' = k0)) as [->|]; [|reflexivity].
      destruct (decide (k0 = k)); [congruence|reflexivity].
Qed.

Lemma dict_get_keys k d : In k (keys d) <-> is_Some (dict_get k d).
Proof.
  induction d as [|[k0 v0] d IH]; cbn [keys map dict_get In fst].
  - split; [done|intros [? ?]; discriminate].
  - destruct (decide (k = k0)) as [->|Hne].
    + split; [intros _; now exists v0|auto].
    + fold (keys d). rewrite <- IH. split; [intros [?|?]; [congruence|done]|auto].
Qed.

Lemma dict_mem_keys k d : dict_mem k d = true <-> In k (keys d).
Proof.
  rewrite dict_get_keys. unfold dict_mem.
  destruct (dict_get k d); split; intros Hm; try done.
  all: try (now eexists); try (destruct Hm; discriminate).
Qed.

Lemma keys_dict_set k k' v d : In k' (keys (dict_set k v d)) <-> k' = k \/ In k' (keys d).
Proof.
  rewrite !dict_get_keys, dict_get_set.
  destruct (decide (k' = k)) as [->|Hne].
  - split; [auto|intros _; now eexists].
  - split; [auto|intros [?|?]; [congruence|done]].
Qed.

Lemma dict_set_fresh k v d : ~ In k (keys d) -> dict_set k v d = d ++ [(k, v)].
Proof.
  induction d as [|[k0 v0] d IH]; cbn [dict_set keys map In fst app]; [done|].
  intros Hn. destruct (decide (k = k0)) as [->|Hne]; [tauto|].
  fold (keys d) in Hn. rewrite IH; [done|tauto].
Qed.

End DictFacts.

Lemma insert_by_len_In x y l : In y (insert_by_len x l) <-> y = x \/ In y l.
Proof.
  induction l as [|z l IH]; cbn [insert_by_len In]; [intuition|].
  destruct (len z <=? len x); cbn [In]; [intuition|]. rewrite IH. intuition.
Qed.

Lemma sorted_by_len_desc_In y l : In y (sorted_by_len_desc l) <-> In y l.
Proof.
  induction l as [|x l IH]; cbn [sorted_by_len_desc fold_right In]; [done|].
  fold (sorted_by_len_desc l). rewrite insert_by_len_In, IH. intuition.
Qed.

Lemma insert_by_len_sorted x l :
  StronglySorted longer_first l -> StronglySorted longer_first (insert_by_len x l).
Proof.
  induction 1 as [|z l Hs IH Hz]; cbn [insert_by_len].
  - repeat constructor.
  - destruct (Z.leb_spec (len z) (len x)) as [Hle|Hgt].
    + constructor; [now constructor|]. constructor; [exact Hle|].
      rewrite List.Forall_forall in *. intros y Hy. specialize (Hz y Hy).
      unfold longer_first in *. lia.
    + constructor; [exact IH|]. rewrite List.Forall_forall in *. intros y Hy.
      apply insert_by_len_In in Hy as [->|Hy]; [unfold longer_first; lia|auto].
Qed.

Lemma sorted_by_len_desc_sorted l : StronglySorted longer_first (sorted_by_len_desc l).
Proof.
  induction l as [|x l IH]; cbn [sorted_by_len_desc fold_right]; [constructor|].
  now apply insert_by_len_sorted.
Qed.

(** The sort is stable: terms of one length come out in the order they came
    in. *)
Lemma insert_by_len_stable n x l :
  List.filter (fun t => len t =? n) (insert_by_len x l)
  = List.filter (fun t => len t =? n) (x :: l).
Proof.
  induction l as [|y l IH]; cbn [insert_by_len]; [reflexivity|].
  destruct (Z.leb_spec (len y) (len x)) as [Hle|Hgt]; [reflexivity|].
  cbn [List.filter] in *. rewrite IH.
  destruct (Z.eqb_spec (len x) n) as [Hx|Hx]; [|reflexivity].
  destruct (Z.eqb_spec (len y) n) as [Hy|Hy]; [lia|reflexivity].
Qed.

Lemma sorted_by_len_desc_stable n l :
  List.filter (fun t => len t =? n) (sorted_by_len_desc l)
  = List.filter (fun t => len t =? n) l.
Proof.
  induction l as [|x l IH]; cbn [sorted_by_len_desc fold_right]; [reflexivity|].
  fold (sorted_by_len_desc l). rewrite insert_by_len_stable. cbn [List.filter].
  now rewrite IH.
Qed.

(** ** The term selector *)

Lemma existsb_occurs term chunk :
  existsb (fun text => str_in term text) (values chunk) = true <-> occurs term chunk.
Proof.
  unfold occurs. rewrite existsb_exists.
  split; intros (text & Hin & Hs); exists text; (split; [done|]); now apply str_in_spec.
Qed.

Section SelectTerms.
Variables g chunk : dict str str.

Lemma is_subprocess_uncovered t accepted :
  is_subprocess t (keys accepted) = false <-> uncovered t accepted.
Proof.
  unfold uncovered. rewrite <- not_true_iff_false, is_subprocess_spec. split.
  - intros Hn long_term Hin Hne Hs. apply Hn. now exists long_term.
  - intros Hu (long_term & Hin & Hne & Hs). now apply (Hu long_term).
Qed.

Lemma select_terms_spec (sorted_terms : list str) :
  forall acc : dict str str,
    (forall t : str, In t sorted_terms -> is_Some (dict_get t g)) ->
    StronglySorted longer_first sorted_terms ->
    (forall a t : str, In a (keys acc) -> In t sorted_terms -> len t <= len a) ->
    (forall t v : str, dict_get t acc = Some v -> dict_get t g = Some v) ->
    exists r : dict str str,
      select_terms g chunk sorted_terms acc = Ret r
      /\ (forall t v : str, dict_get t r = Some v -> dict_get t g = Some v)
      /\ (forall t : str, In t (keys r) <->
            In t (keys acc)
            \/ (In t sorted_terms /\ occurs t chunk /\ uncovered t r)).
Proof.
  induction sorted_terms as [|x rest IH]; intros acc Hg Hsorted Hlen Hval.
  - exists acc. split; [done|]. split; [done|]. cbn [In]. intros t. tauto.
  - apply StronglySorted_inv in Hsorted as [Hsrest Hx].
    rewrite List.Forall_forall in Hx.
    assert (forall t : str, In t rest -> is_Some (dict_get t g)) as Hg'
      by (intros t Ht; apply Hg; now right).
    cbn [select_terms].
    destruct (existsb (fun text => str_in x text) (values chunk)) eqn:Hocc;
      [destruct (is_subprocess x (keys acc)) eqn:Hsub; cbn [negb]|].
    + (* covered by an accepted term *)
      assert (forall a t : str, In a (keys acc) -> In t rest -> len t <= len a) as Hlen'
        by (intros a t Ha Ht; apply Hlen; [done|now right]).
      destruct (IH acc Hg' Hsrest Hlen' Hval) as (r & Hr & Hrv & Hrk).
      exists r. split; [done|]. split; [done|]. intros t. rewrite Hrk.
      split; [cbn [In]; tauto|].
      intros [Ht|([<-|Ht] & Ho & Hu)]; [tauto| |tauto].
      exfalso. apply is_subprocess_spec in Hsub as (long_term & Hin & Hne & Hs).
      apply (Hu long_term); [|done|done]. apply Hrk. now left.
    + (* accepted *)
      destruct (Hg x) as [v Hv]; [now left|]. rewrite Hv.
      assert (forall a t : str, In a (keys (dict_set x v acc)) -> In t rest -> len t <= len a)
        as Hlen'.
      { intros a t Ha Ht. apply keys_dict_set in Ha as [->|Ha].
        - apply (Hx t Ht).
        - apply Hlen; [done|now right]. }
      assert (forall t w : str, dict_get t (dict_set x v acc) = Some w -> dict_get t g = Some w)
        as Hval'.
      { intros t w. rewrite dict_get_set.
        destruct (decide (t = x)) as [->|]; [congruence|apply Hval]. }
      destruct (IH (dict_set x v acc) Hg' Hsrest Hlen' Hval') as (r & Hr & Hrv & Hrk).
      exists r. split; [done|]. split; [done|]. intros t. rewrite Hrk, keys_dict_set.
      split.
      * intros [[->|Ht]|(Ht & Ho & Hu)]; [|tauto|cbn [In]; tauto].
        right. split; [now left|]. split; [now apply existsb_occurs|].
        intros long_term Hin Hne Hs.
        apply Hrk in Hin as [Hin|(Hin & _)].
        -- apply keys_dict_set in Hin as [->|Hin]; [done|].
           apply is_subprocess_uncovered in Hsub. now apply (Hsub long_term).
        -- pose proof (proper_substring_len _ _ Hs Hne).
           specialize (Hx long_term Hin). unfold longer_first in Hx. lia.
      * intros [Ht|([<-|Ht] & Ho & Hu)]; tauto.
    + (* occurs in no text *)
      apply not_true_iff_false in Hocc. rewrite existsb_occurs in Hocc.
      assert (forall a t : str, In a (keys acc) -> In t rest -> len t <= len a) as Hlen'
        by (intros a t Ha Ht; apply Hlen; [done|now right]).
      destruct (IH acc Hg' Hsrest Hlen' Hval) as (r & Hr & Hrv & Hrk).
      exists r. split; [done|]. split; [done|]. intros t. rewrite Hrk.
      split; [cbn [In]; tauto|].
      intros [Ht|([<-|Ht] & Ho & Hu)]; tauto.
Qed.

End SelectTerms.

Lemma prepare_request_run chunk st terms :
  select_terms (glossary st) chunk (sorted_by_len_desc (keys (glossary st))) [] = Ret terms ->
  prepare_request chunk st
  = (Ret (mkRequest terms chunk, chunk),
     add_log (INFO, FullRequestData (mkRequest terms chunk))
       (add_log (INFO, PreparingRequest (len terms)) st)).
Proof. intros Hsel. unfold prepare_request, bind, gets, lift. now rewrite Hsel. Qed.

Lemma prepare_request_total chunk st :
  exists terms,
    select_terms (glossary st) chunk (sorted_by_len_desc (keys (glossary st))) [] = Ret terms
    /\ forall term v,
         dict_get term terms = Some v <->
         dict_get term (glossary st) = Some v /\ occurs term chunk /\ uncovered term terms.
Proof.
  destruct (select_terms_spec (glossary st) chunk (sorted_by_len_desc (keys (glossary st))) [])
    as (terms & Hsel & Hval & Hkeys).
  - intros t Ht. now apply dict_get_keys, sorted_by_len_desc_In.
  - apply sorted_by_len_desc_sorted.
  - intros a t [].
  - intros t v Hget. discriminate.
  - exists terms. split; [done|]. intros term v. split.
    + intros Hget. split; [now apply Hval|].
      assert (In term (keys terms)) as Hin by (apply dict_get_keys; now exists v).
      apply Hkeys in Hin as [[]|(_ & Ho & Hu)]. tauto.
    + intros (Hget & Ho & Hu).
      assert (In term (keys terms)) as Hin.
      { apply Hkeys. right. split; [|tauto].
        apply sorted_by_len_desc_In, dict_get_keys. now exists v. }
      apply dict_get_keys in Hin as [w Hw]. pose proof (Hval _ _ Hw). congruence.
Qed.

(** C5: [prepare_request] returns normally, and its terms dictionary maps
    [term] to [v] exactly when the glossary does, [term] occurs in a text of
    the chunk and no other selected term contains [term]; with the glossary
    of "刀法" and "快刀法" and a text containing "快刀法", the terms
    dictionary is exactly the entry of "快刀法". *)
Theorem prepare_request_relevant_terms :
  (forall chunk st, exists terms st',
      prepare_request chunk st = (Ret (mkRequest terms chunk, chunk), st')
      /\ forall term v,
           dict_get term terms = Some v <->
           dict_get term (glossary st) = Some v
           /\ (exists text, In text (values chunk) /\ substring term text)
           /\ (forall long_term,
                 In long_term (keys terms) -> term <> long_term -> ~ substring term long_term))
  /\ (forall chunk st,
        glossary st = sword_glossary ->
        (exists text, In text (values chunk) /\ substring kuai_dao_fa text) ->
        exists st',
          prepare_request chunk st
          = (Ret (mkRequest [(kuai_dao_fa, kwae_geom_beop)] chunk, chunk), st')).
Proof.
  split.
  - intros chunk st. destruct (prepare_request_total chunk st) as (terms & Hsel & Hspec).
    exists terms. eexists. split; [now apply prepare_request_run|exact Hspec].
  - intros chunk st Hg Hocc. eexists. apply prepare_request_run. rewrite Hg.
    apply existsb_occurs in Hocc.
    change (sorted_by_len_desc (keys sword_glossary)) with [kuai_dao_fa; dao_fa].
    cbn [select_terms]. rewrite Hocc. cbn.
    now destruct (existsb (fun text => str_in dao_fa text) (values chunk)).
Qed.

Lemma prepare_request_relevant_terms_witness :
  exists st',
    prepare_request [([65%N], [0x4ED6; 0x7684; 0x5FEB; 0x5200; 0x6CD5]%N)]
      (init sword_glossary [] ∅)
    = (Ret (mkRequest [(kuai_dao_fa, kwae_geom_beop)]
              [([65%N], [0x4ED6; 0x7684; 0x5FEB; 0x5200; 0x6CD5]%N)],
            [([65%N], [0x4ED6; 0x7684; 0x5FEB; 0x5200; 0x6CD5]%N)]), st').
Proof.
  apply (proj2 prepare_request_relevant_terms); [reflexivity|].
  exists [0x4ED6; 0x7684; 0x5FEB; 0x5200; 0x6CD5]%N. split; [now left|].
  now exists [0x4ED6; 0x7684]%N, [].
Defined.

(** ** The chunker *)

Lemma len_nonneg {A : Type} (l : list A) : 0 <= len l.
Proof. unfold len. lia. Qed.

Lemma chunk_length_nonneg chunk : 0 <= chunk_length chunk.
Proof.
  induction chunk as [|[k v] chunk IH]; cbn [chunk_length fold_right snd]; [lia|].
  fold (chunk_length chunk). pose proof (len_nonneg v). lia.
Qed.

Lemma chunk_length_set k v chunk :
  chunk_length (dict_set k v chunk) <= chunk_length chunk + len v.
Proof.
  induction chunk as [|[k0 v0] chunk IH]; cbn [dict_set chunk_length fold_right snd]; [lia|].
  destruct (decide (k = k0)); cbn [chunk_length fold_right snd];
    fold (chunk_length chunk); fold (chunk_length (dict_set k v chunk)).
  - pose proof (len_nonneg v0). lia.
  - lia.
Qed.

Lemma chunk_length_In k v chunk : In (k, v) chunk -> len v <= chunk_length chunk.
Proof.
  induction chunk as [|[k0 v0] chunk IH]; cbn [In chunk_length fold_right snd]; [done|].
  fold (chunk_length chunk). pose proof (chunk_length_nonneg chunk). pose proof (len_nonneg v0).
  intros [[= -> ->]|Hin]; [lia|]. specialize (IH Hin). lia.
Qed.

Lemma int_gt_float_mono n n' f :
  n' <= n -> int_gt_float n f = false -> int_gt_float n' f = false.
Proof.
  intros Hle. destruct f as [s|s| |s m e]; cbn [int_gt_float]; try done.
  - rewrite !Z.ltb_ge. lia.
  - destruct (0 <=? e); rewrite !Z.ltb_ge; [lia|].
    intros H. etransitivity; [|exact H].
    apply Z.mul_le_mono_nonneg_r; [|done]. apply Z.pow_nonneg. lia.
Qed.

Lemma int_le_float_gt n f : f <> S754_nan -> int_le_float n f = negb (int_gt_float n f).
Proof.
  intros Hf. destruct f as [s|s| |s m e]; cbn [int_gt_float int_le_float]; try done.
  - apply Z.leb_antisym.
  - destruct (0 <=? e); apply Z.leb_antisym.
Qed.

Section NextChunk.
Variable done_ : dict str str.
Variable target : spec_float.

Lemma next_chunk_loop_keys (items : dict str str) :
  forall (current_chunk : dict str str) (total_length : Z) (id_ : str),
    In id_ (keys (next_chunk_loop done_ target items current_chunk total_length)) ->
    In id_ (keys current_chunk) \/ (In id_ (keys items) /\ dict_mem id_ done_ = false).
Proof.
  induction items as [|[k v] rest IH]; intros cur total id_; cbn [next_chunk_loop].
  - tauto.
  - cbn [keys map fst In]. fold (keys rest).
    destruct (dict_mem k done_) eqn:Hk.
    + intros Hin. apply IH in Hin. tauto.
    + destruct (int_gt_float (total + len v) target); [tauto|].
      intros Hin. apply IH in Hin as [Hin|Hin]; [|tauto].
      apply keys_dict_set in Hin as [->|Hin]; tauto.
Qed.

Lemma next_chunk_loop_length (items : dict str str) :
  forall (current_chunk : dict str str) (total_length : Z),
    chunk_length current_chunk <= total_length ->
    int_gt_float total_length target = false ->
    int_gt_float
      (chunk_length (next_chunk_loop done_ target items current_chunk total_length)) target
    = false.
Proof.
  induction items as [|[k v] rest IH]; intros cur total Hle Hfit; cbn [next_chunk_loop].
  - now apply (int_gt_float_mono total).
  - destruct (dict_mem k done_); [now apply IH|].
    destruct (int_gt_float (total + len v) target) eqn:Hgt.
    + now apply (int_gt_float_mono total).
    + apply IH; [|done]. pose proof (chunk_length_set k v cur). lia.
Qed.

(** An untranslated first fragment that alone exceeds the budget stops the
    loop with the chunk still empty. *)
Lemma next_chunk_loop_oversized (id_ text : str) (rest : dict str str) :
  dict_mem id_ done_ = false ->
  int_gt_float (len text) target = true ->
  next_chunk_loop done_ target ((id_, text) :: rest) [] 0 = [].
Proof. intros Hk Hgt. cbn [next_chunk_loop]. now rewrite Hk, Z.add_0_l, Hgt. Qed.

End NextChunk.

Lemma create_next_chunk_unfold remaining st :
  create_next_chunk remaining st
  = match next_chunk_loop (translated st) (target_length st) remaining [] 0 with
    | [] => (Ret None, st)
    | kv :: chunk => (r <- prepare_request (kv :: chunk) ;; ret (Some r)) st
    end.
Proof.
  unfold create_next_chunk, bind at 1 2, gets.
  now destruct (next_chunk_loop (translated st) (target_length st) remaining [] 0).
Qed.

Lemma create_next_chunk_some remaining st request_data chunk st' :
  create_next_chunk remaining st = (Ret (Some (request_data, chunk)), st') ->
  chunk = next_chunk_loop (translated st) (target_length st) remaining [] 0
  /\ chunk <> []
  /\ request_texts request_data = chunk
  /\ glossary st' = glossary st /\ translated st' = translated st
  /\ target_length st' = target_length st /\ files st' = files st
  /\ calls st' = calls st /\ saves st' = saves st /\ sleeps st' = sleeps st.
Proof.
  rewrite create_next_chunk_unfold.
  destruct (next_chunk_loop (translated st) (target_length st) remaining [] 0)
    as [|kv c] eqn:Hloop; [discriminate|].
  destruct (prepare_request_total (kv :: c) st) as (terms & Hsel & _).
  unfold bind. rewrite (prepare_request_run _ _ _ Hsel). unfold ret.
  intros [= <- <- <-]. cbn. repeat split; done.
Qed.

Lemma create_next_chunk_none remaining st :
  next_chunk_loop (translated st) (target_length st) remaining [] 0 = [] ->
  create_next_chunk remaining st = (Ret None, st).
Proof. intros Hloop. now rewrite create_next_chunk_unfold, Hloop. Qed.

Lemma create_next_chunk_nonempty remaining st :
  next_chunk_loop (translated st) (target_length st) remaining [] 0 <> [] ->
  exists terms,
    create_next_chunk remaining st
    = (let chunk := next_chunk_loop (translated st) (target_length st) remaining [] 0 in
       (Ret (Some (mkRequest terms chunk, chunk)),
        add_log (INFO, FullRequestData (mkRequest terms chunk))
          (add_log (INFO, PreparingRequest (len terms)) st))).
Proof.
  intros Hne. rewrite create_next_chunk_unfold.
  destruct (next_chunk_loop (translated st) (target_length st) remaining [] 0)
    as [|kv c] eqn:Hloop; [done|].
  destruct (prepare_request_total (kv :: c) st) as (terms & Hsel & _).
  exists terms. unfold bind. now rewrite (prepare_request_run _ _ _ Hsel).
Qed.

(** C9: a chunk built by [create_next_chunk], which is also the texts of the
    request, holds no fragment id that is in [translated] when it is built. *)
Theorem create_next_chunk_skips_translated remaining st request_data chunk st' :
  create_next_chunk remaining st = (Ret (Some (request_data, chunk)), st') ->
  request_texts request_data = chunk
  /\ forall id_ : str, In id_ (keys chunk) ->
       dict_mem id_ (translated st) = false /\ ~ In id_ (keys (translated st)).
Proof.
  intros Hc. apply create_next_chunk_some in Hc as (-> & _ & Hreq & _).
  split; [exact Hreq|]. intros id_ Hin.
  apply next_chunk_loop_keys in Hin as [[]|[_ Hmem]].
  split; [exact Hmem|]. rewrite <- dict_mem_keys, Hmem. discriminate.
Qed.

Lemma create_next_chunk_skips_translated_witness :
  create_next_chunk two_fragments (init [] old_translations ∅)
  = (Ret (Some (mkRequest [] [([66%N], [0x4E16; 0x754C]%N)], [([66%N], [0x4E16; 0x754C]%N)])),
     snd (create_next_chunk two_fragments (init [] old_translations ∅)))
  /\ forall id_ : str, In id_ [[66%N]] ->
       dict_mem id_ old_translations = false /\ ~ In id_ (keys old_translations).
Proof.
  assert (create_next_chunk two_fragments (init [] old_translations ∅)
          = (Ret (Some (mkRequest [] [([66%N], [0x4E16; 0x754C]%N)],
                        [([66%N], [0x4E16; 0x754C]%N)])),
             snd (create_next_chunk two_fragments (init [] old_translations ∅)))) as Hrun
    by (vm_compute; reflexivity).
  split; [exact Hrun|].
  exact (proj2 (create_next_chunk_skips_translated _ _ _ _ _ Hrun)).
Defined.

(** C10: the total source-text length of a chunk returned by
    [create_next_chunk] does not exceed the target length it was built
    under, so neither does the length of any fragment in it. *)
Theorem create_next_chunk_within_budget remaining st request_data chunk st' :
  create_next_chunk remaining st = (Ret (Some (request_data, chunk)), st') ->
  int_gt_float (chunk_length chunk) (target_length st) = false
  /\ (target_length st <> S754_nan ->
      int_le_float (chunk_length chunk) (target_length st) = true)
  /\ forall id_ text : str, In (id_, text) chunk ->
       int_gt_float (len text) (target_length st) = false.
Proof.
  intros Hc. apply create_next_chunk_some in Hc as (Hchunk & Hne & _).
  assert (int_gt_float (chunk_length chunk) (target_length st) = false) as Hfit.
  { destruct (int_gt_float 0 (target_length st)) eqn:H0.
    - (* a negative budget: the loop never adds a fragment *)
      exfalso. apply Hne. rewrite Hchunk. clear Hchunk Hne.
      induction remaining as [|[k v] rest IH]; cbn [next_chunk_loop]; [done|].
      destruct (dict_mem k (translated st)); [exact IH|].
      destruct (int_gt_float (0 + len v) (target_length st)) eqn:Hgt; [done|].
      pose proof (len_nonneg v).
      rewrite (int_gt_float_mono (0 + len v) 0) in H0; [discriminate|lia|done].
    - rewrite Hchunk. apply next_chunk_loop_length; [cbn; lia|done]. }
  split; [exact Hfit|]. split.
  - intros Hnan. now rewrite int_le_float_gt, Hfit.
  - intros id_ text Hin. apply chunk_length_In in Hin.
    now apply (int_gt_float_mono (chunk_length chunk)).
Qed.

Lemma create_next_chunk_within_budget_witness :
  create_next_chunk two_fragments (init [] [] ∅)
  = (Ret (Some (mkRequest [] two_fragments, two_fragments)),
     snd (create_next_chunk two_fragments (init [] [] ∅)))
  /\ int_gt_float (chunk_length two_fragments) (float_of_int 1000) = false
  /\ int_le_float (chunk_length two_fragments) (float_of_int 1000) = true.
Proof.
  assert (create_next_chunk two_fragments (init [] [] ∅)
          = (Ret (Some (mkRequest [] two_fragments, two_fragments)),
             snd (create_next_chunk two_fragments (init [] [] ∅)))) as Hrun
    by (vm_compute; reflexivity).
  split; [exact Hrun|].
  destruct (create_next_chunk_within_budget _ _ _ _ _ Hrun) as (Hgt & Hle & _).
  split; [exact Hgt|]. apply Hle. vm_compute. discriminate.
Defined.

Lemma create_next_chunk_oversized st id_ text rest :
  dict_mem id_ (translated st) = false ->
  int_gt_float (len text) (target_length st) = true ->
  create_next_chunk ((id_, text) :: rest) st = (Ret None, st).
Proof.
  intros Hk Hgt. apply create_next_chunk_none. now apply next_chunk_loop_oversized.
Qed.

(** C1, where the code departs from it: for the single untranslated fragment
    [oversized_fragment] and the initial budget of 1000, [create_next_chunk]
    returns no chunk, although [create_chunk] puts the same fragment alone
    in a chunk; [translate_all] then ends without a backend call and without
    a translation. *)
Theorem create_next_chunk_drops_oversized_fragment :
  create_next_chunk oversized_fragment (init [] [] ∅) = (Ret None, init [] [] ∅)
  /\ (exists st',
        create_chunk oversized_fragment (init [] [] ∅)
        = (Ret [(mkRequest [] oversized_fragment, oversized_fragment)], st'))
  /\ forall backend disk json_loads fuel, exists st',
       translate_all backend disk json_loads (S fuel) oversized_fragment (init [] [] ∅)
       = (Ret [], st')
       /\ calls st' = [] /\ translated st' = [].
Proof.
  assert (create_next_chunk oversized_fragment (init [] [] ∅) = (Ret None, init [] [] ∅))
    as Hnone by (apply create_next_chunk_oversized; vm_compute; reflexivity).
  split; [exact Hnone|]. split.
  - eexists. vm_compute. reflexivity.
  - intros backend disk json_loads fuel. eexists.
    split; [vm_compute; reflexivity|]. split; reflexivity.
Qed.

(** ** The atomic store *)

Lemma temp_paths_differ :
  with_suffix glossary_json ".tmp" <> glossary_json
  /\ with_suffix translations_json ".tmp" <> translations_json
  /\ with_suffix failed_translations_json ".tmp" <> failed_translations_json.
Proof. repeat split; vm_compute; discriminate. Qed.

(** Runs the monad's plumbing on the state at hand. *)
Ltac run_io :=
  repeat (progress (unfold bind, gets, modify, raise, ret, try_except, lift;
                    cbn [glossary translated target_length files log calls saves sleeps
                         set_glossary set_translated set_target_length set_files
                         add_log add_call add_save add_sleep]));
  cbv beta.

Lemma save_json_spec disk data filename st :
  with_suffix filename ".tmp" <> filename ->
  exists st',
    save_json disk data filename st
    = ((if save_raises disk filename st then Raise OSError else Ret tt), st')
    /\ saved (disk (saves st)) data filename st st'
    /\ glossary st' = glossary st /\ translated st' = translated st
    /\ target_length st' = target_length st /\ calls st' = calls st
    /\ saves st' = S (saves st) /\ sleeps st' = sleeps st.
Proof.
  intros Hne. set (temp_path := with_suffix filename ".tmp") in *.
  unfold save_json, save_raises, saved. fold temp_path.
  unfold open_w, json_dump, replace, unlink, path_exists, logger_error.
  destruct (disk (saves st)) as [|c|c|c] eqn:Hf; try destruct c;
    run_io; rewrite ?Hf; cbn [cleanup_of cleanup_raises left_behind]; run_io.
  - (* the write succeeds *)
    rewrite lookup_insert_eq. eexists. split; [reflexivity|]. cbn.
    rewrite !delete_insert_eq. repeat split; done.
  - (* open fails, the clean-up works *)
    case_bool_decide as Hex.
    + destruct Hex as [c Hc]. run_io. rewrite Hc.
      eexists. split; [reflexivity|]. cbn.
      split; [|repeat split; done].
      split; [now rewrite lookup_delete_ne|]. split; [apply lookup_delete_eq|].
      split; [|done]. intros path Hp. now rewrite lookup_delete_ne.
    + eexists. split; [reflexivity|]. cbn.
      split; [|repeat split; done].
      split; [done|]. split; [|done].
      destruct (files st !! temp_path) eqn:E; [|done]. exfalso. apply Hex. now eexists.
  - (* open fails, exists raises *)
    eexists. split; [reflexivity|]. cbn. repeat split; done.
  - (* open fails, unlink raises *)
    case_bool_decide as Hex; (eexists; split; [reflexivity|]); cbn; repeat split; try done.
    destruct (files st !! temp_path) eqn:E; [|done]. exfalso. apply Hex. now eexists.
  - (* the dump fails, the clean-up works *)
    rewrite bool_decide_eq_true_2 by (rewrite lookup_insert_eq; now eexists).
    run_io. rewrite lookup_insert_eq.
    eexists. split; [reflexivity|]. cbn.
    split; [|repeat split; done].
    rewrite !delete_insert_eq.
    split; [now rewrite lookup_delete_ne|]. split; [apply lookup_delete_eq|].
    split; [|done]. intros path Hp. now rewrite lookup_delete_ne.
  - (* the dump fails, exists raises *)
    eexists. split; [reflexivity|]. cbn.
    split; [|repeat split; done].
    split; [now rewrite !lookup_insert_ne|]. split; [apply lookup_insert_eq|].
    split; [|done]. intros path Hp. now rewrite !lookup_insert_ne.
  - (* the dump fails, unlink raises *)
    rewrite bool_decide_eq_true_2 by (rewrite lookup_insert_eq; now eexists).
    eexists. split; [reflexivity|]. cbn.
    split; [|repeat split; done].
    split; [now rewrite !lookup_insert_ne|]. split; [apply lookup_insert_eq|].
    split; [|done]. intros path Hp. now rewrite !lookup_insert_ne.
  - (* the replace fails, the clean-up works *)
    rewrite bool_decide_eq_true_2 by (rewrite lookup_insert_eq; now eexists).
    run_io. rewrite lookup_insert_eq.
    eexists. split; [reflexivity|]. cbn.
    split; [|repeat split; done].
    rewrite !delete_insert_eq.
    split; [now rewrite lookup_delete_ne|]. split; [apply lookup_delete_eq|].
    split; [|done]. intros path Hp. now rewrite lookup_delete_ne.
  - (* the replace fails, exists raises *)
    eexists. split; [reflexivity|]. cbn.
    split; [|repeat split; done].
    split; [now rewrite !lookup_insert_ne|]. split; [apply lookup_insert_eq|].
    split; [|done]. intros path Hp. now rewrite !lookup_insert_ne.
  - (* the replace fails, unlink raises *)
    rewrite bool_decide_eq_true_2 by (rewrite lookup_insert_eq; now eexists).
    eexists. split; [reflexivity|]. cbn.
    split; [|repeat split; done].
    split; [now rewrite !lookup_insert_ne|]. split; [apply lookup_insert_eq|].
    split; [|done]. intros path Hp. now rewrite !lookup_insert_ne.
Qed.

Lemma cleanup_works_returns (f : fault) (temp_exists : bool) :
  cleanup_of f = CleanupWorks -> cleanup_raises f temp_exists = false.
Proof. destruct f as [|c|c|c]; cbn; intros Hc; subst; reflexivity. Qed.

(** What was saved without a fault is what [load_json] reads back. *)
Lemma load_json_after_save disk data filename default_value st st' :
  with_suffix filename ".tmp" <> filename ->
  disk (saves st) = NoFault ->
  save_json disk data filename st = (Ret tt, st') ->
  load_json filename default_value st' = (Ret data, st').
Proof.
  intros Hne Hf Hrun.
  destruct (save_json_spec disk data filename st Hne) as (st2 & Hrun2 & Hsaved & _).
  rewrite Hrun in Hrun2. injection Hrun2 as _ <-.
  rewrite Hf in Hsaved. cbn [saved] in Hsaved. destruct Hsaved as [Hfiles _].
  unfold load_json, bind, gets. now rewrite Hfiles, lookup_insert_eq.
Qed.

(** C6, where the code departs from it: the clean-up of [save_json] runs in
    the [except] branch with no protection of its own.  When the dump fails
    and [temp_path.unlink()] then raises, [save_json] raises and the
    truncated temporary file stays; the claim has it removed and
    [save_json] returning.  The rest of the claim holds: the target is never
    touched by a failed write, whatever the clean-up does, and when the
    clean-up works [save_json] returns, with no temporary file left and the
    failure logged after a failed write, and with the new data moved over
    the target in one step after a successful one. *)
Theorem save_json_cleanup_is_unprotected :
  (let r := save_json stuck_disk two_translations translations_json
              (init [] old_translations old_directory) in
   fst r = Raise OSError
   /\ files (snd r) !! with_suffix translations_json ".tmp"
      = Some (Truncated two_translations)
   /\ files (snd r) !! translations_json = Some (JsonText old_translations)
   /\ log (snd r) = [(ERROR, ErrorSaving translations_json OSError)])
  /\ forall disk data filename st,
       with_suffix filename ".tmp" <> filename ->
       exists o st',
         save_json disk data filename st = (o, st')
         /\ (o = Ret tt \/ o = Raise OSError)
         /\ (disk (saves st) <> NoFault ->
             files st' !! filename = files st !! filename
             /\ log st' = log st ++ [(ERROR, ErrorSaving filename OSError)])
         /\ (cleanup_of (disk (saves st)) = CleanupWorks ->
             o = Ret tt
             /\ (disk (saves st) <> NoFault ->
                 files st' !! with_suffix filename ".tmp" = None)
             /\ (disk (saves st) = NoFault ->
                 files st'
                 = <[filename := JsonText data]>
                     (delete (with_suffix filename ".tmp") (files st))
                 /\ log st' = log st)).
Proof.
  split; [vm_compute; repeat split; reflexivity|].
  intros disk data filename st Hne.
  destruct (save_json_spec disk data filename st Hne) as (st' & Hrun & Hsaved & _).
  eexists _, st'. split; [exact Hrun|]. unfold saved, save_raises in *. split; [|split].
  - destruct (cleanup_raises _ _); [now right|now left].
  - intros Hf. destruct (disk (saves st)); [done|tauto ..].
  - intros Hc. rewrite (cleanup_works_returns _ _ Hc) in *.
    split; [reflexivity|]. split; intros Hf.
    + destruct (disk (saves st)); [done|tauto ..].
    + rewrite Hf in Hsaved. exact Hsaved.
Qed.

(** ** The driver *)

Section DriverFacts.
Variable backend : nat -> request -> api_result.
Variable disk : nat -> fault.
Variable json_loads : str -> option json.

Lemma attempt_raises all_texts request_data original_chunk retry_count st :
  backend (length (calls st)) request_data = ApiRaises ->
  attempt backend disk json_loads all_texts request_data original_chunk retry_count st
  = ((if retry_count + 1 =? max_retries then
        logger_error (FailedToProcessChunk max_retries) ;;
        save_json disk original_chunk failed_translations_json
      else sleep ((retry_count + 1) * 2)) ;;
     ret (Again (retry_count + 1)))
      (failed_pass request_data original_chunk retry_count APIError st).
Proof.
  intros Hb. unfold attempt, messages_create, logger_info, logger_error.
  unfold try_except, bind at 1 2 3, gets, modify.
  cbn [calls add_log]. rewrite Hb. reflexivity.
Qed.

Lemma retry_loop_backoff fuel all_texts request_data original_chunk remaining retry_count st :
  retry_count < max_retries ->
  retry_count + 1 <> max_retries ->
  backend (length (calls st)) request_data = ApiRaises ->
  retry_loop backend disk json_loads (S fuel) all_texts request_data original_chunk remaining
    retry_count st
  = retry_loop backend disk json_loads fuel all_texts request_data original_chunk remaining
      (retry_count + 1)
      (add_sleep ((retry_count + 1) * 2)
         (failed_pass request_data original_chunk retry_count APIError st)).
Proof.
  intros Hlt Hne Hb. cbn [retry_loop].
  destruct (Z.ltb_spec retry_count max_retries) as [_|]; [|lia].
  unfold bind at 1. rewrite (attempt_raises _ _ _ _ _ Hb).
  destruct (Z.eqb_spec (retry_count + 1) max_retries) as [|_]; [lia|].
  reflexivity.
Qed.

Lemma retry_loop_give_up fuel all_texts request_data original_chunk remaining retry_count st :
  retry_count + 1 = max_retries ->
  backend (length (calls st)) request_data = ApiRaises ->
  retry_loop backend disk json_loads (S fuel) all_texts request_data original_chunk remaining
    retry_count st
  = (save_json disk original_chunk failed_translations_json ;;
     ret remaining)
      (add_log (ERROR, FailedToProcessChunk max_retries)
         (failed_pass request_data original_chunk retry_count APIError st)).
Proof.
  intros Heq Hb. cbn [retry_loop].
  destruct (Z.ltb_spec retry_count max_retries) as [_|]; [|lia].
  unfold bind at 1. rewrite (attempt_raises _ _ _ _ _ Hb).
  destruct (Z.eqb_spec (retry_count + 1) max_retries) as [_|]; [|lia].
  unfold bind, logger_error, modify, ret.
  destruct (save_json disk original_chunk failed_translations_json _) as [[[]| |] st']; try done.
  destruct fuel; cbn [retry_loop]; rewrite Heq, Z.ltb_irrefl; reflexivity.
Qed.

(** Three raising calls in a row: the retry loop backs off twice, gives up
    and records the chunk; what the clean-up of that save raises leaves the
    loop. *)
Lemma retry_loop_exhausted all_texts request_data original_chunk remaining st :
  (forall k : nat, (k < 3)%nat ->
     backend (length (calls st) + k) request_data = ApiRaises) ->
  exists st',
    retry_loop backend disk json_loads (Z.to_nat max_retries) all_texts request_data
      original_chunk remaining 0 st
    = ((if save_raises disk failed_translations_json st then Raise OSError
        else Ret remaining), st')
    /\ calls st' = calls st ++ [request_data; request_data; request_data]
    /\ translated st' = translated st
    /\ glossary st' = glossary st
    /\ sleeps st' = sleeps st ++ [2; 4]
    /\ target_length st' = adjust false (adjust false (adjust false (target_length st)))
    /\ In (ERROR, FailedToProcessChunk 3) (log st')
    /\ (disk (saves st) = NoFault ->
        files st' !! failed_translations_json = Some (JsonText original_chunk)
        /\ forall path : string,
             path <> failed_translations_json ->
             path <> with_suffix failed_translations_json ".tmp" ->
             files st' !! path = files st !! path).
Proof.
  intros Hb. change (Z.to_nat max_retries) with 3%nat.
  pose proof (Hb 0%nat ltac:(lia)) as H0. rewrite Nat.add_0_r in H0.
  rewrite retry_loop_backoff by (done || (unfold max_retries; lia)).
  set (st1 := add_sleep _ _).
  assert (calls st1 = calls st ++ [request_data]) as Hc1 by reflexivity.
  assert (backend (length (calls st1)) request_data = ApiRaises) as H1
    by (rewrite Hc1, length_app; apply Hb; cbn; lia).
  rewrite retry_loop_backoff by (done || (unfold max_retries; lia)).
  set (st2 := add_sleep _ _).
  assert (calls st2 = (calls st ++ [request_data]) ++ [request_data]) as Hc2
    by reflexivity.
  assert (backend (length (calls st2)) request_data = ApiRaises) as H2
    by (rewrite Hc2, !length_app, <- Nat.add_assoc; apply Hb; cbn; lia).
  rewrite retry_loop_give_up by done.
  set (st3 := add_log _ _).
  destruct (save_json_spec disk original_chunk failed_translations_json st3)
    as (st' & Hrun & Hsaved & Hg & Ht & Htl & Hc & _ & Hs);
    [apply temp_paths_differ|].
  change (save_raises disk failed_translations_json st3)
    with (save_raises disk failed_translations_json st) in Hrun.
  exists st'. unfold bind. rewrite Hrun.
  split; [now destruct (save_raises disk failed_translations_json st)|].
  split; [rewrite Hc; change (calls st3) with (calls st2 ++ [request_data]);
          rewrite Hc2, <- !app_assoc; reflexivity|].
  split; [rewrite Ht; reflexivity|]. split; [rewrite Hg; reflexivity|].
  split; [rewrite Hs; change (sleeps st3) with ((sleeps st ++ [2]) ++ [4]);
          rewrite <- app_assoc; reflexivity|].
  split; [rewrite Htl; reflexivity|].
  change (saves st3) with (saves st) in Hsaved.
  split.
  - assert (exists l, log st' = log st3 ++ l) as [l ->].
    { destruct (disk (saves st)); cbn [saved] in Hsaved.
      - destruct Hsaved as [_ ->]. exists []. now rewrite app_nil_r.
      - destruct Hsaved as (_ & _ & _ & ->). now eexists.
      - destruct Hsaved as (_ & _ & _ & ->). now eexists.
      - destruct Hsaved as (_ & _ & _ & ->). now eexists. }
    apply in_or_app. left. subst st3. cbn. apply in_or_app. right. now left.
  - intros Hf. rewrite Hf in Hsaved. cbn [saved] in Hsaved. destruct Hsaved as [-> _].
    split; [apply lookup_insert_eq|].
    intros path Hp Ht'. rewrite lookup_insert_ne, lookup_delete_ne by done. reflexivity.
Qed.

(** C7: when the three backend calls made for a chunk all raise, the retry
    loop ends after exactly these three calls, with no entry added to
    [translated]; and, the disk permitting, [failed_translations.json] then
    holds the chunk's own mapping, whatever it held before.  The loop
    returns unless the clean-up of a failed save raises. *)
Theorem failed_chunk_is_recorded all_texts request_data original_chunk remaining st :
  (forall k : nat, (k < 3)%nat ->
     backend (length (calls st) + k) request_data = ApiRaises) ->
  exists o st',
    retry_loop backend disk json_loads (Z.to_nat max_retries) all_texts request_data
      original_chunk remaining 0 st
    = (o, st')
    /\ (o = Ret remaining \/ o = Raise OSError)
    /\ (cleanup_of (disk (saves st)) = CleanupWorks -> o = Ret remaining)
    /\ calls st' = calls st ++ [request_data; request_data; request_data]
    /\ translated st' = translated st
    /\ (disk (saves st) = NoFault ->
        files st' !! failed_translations_json = Some (JsonText original_chunk)).
Proof.
  intros Hb.
  destruct (retry_loop_exhausted all_texts request_data original_chunk remaining st Hb)
    as (st' & Hrun & Hcalls & Htr & _ & _ & _ & _ & Hfiles).
  eexists _, st'. split; [exact Hrun|]. unfold save_raises.
  split; [destruct (cleanup_raises _ _); [now right|now left]|].
  split; [intros Hc; now rewrite (cleanup_works_returns _ _ Hc)|].
  split; [exact Hcalls|]. split; [exact Htr|].
  intros Hf. now apply Hfiles.
Qed.

Lemma not_in_all_done (done_ all_texts : dict str str) :
  (forall id_ : str, In id_ (keys all_texts) -> In id_ (keys done_)) ->
  not_in done_ all_texts = [].
Proof.
  unfold not_in. induction all_texts as [|[k v] rest IH]; intros Hall; [done|].
  cbn [List.filter fst]. rewrite (proj2 (dict_mem_keys k done_)) by (apply Hall; now left).
  cbn [negb]. apply IH. intros id_ Hin. apply Hall. now right.
Qed.

Lemma not_in_keys (done_ all_texts : dict str str) (id_ : str) :
  In id_ (keys (not_in done_ all_texts)) <-> In id_ (keys all_texts) /\ ~ In id_ (keys done_).
Proof.
  unfold not_in. induction all_texts as [|[k v] rest IH]; cbn [List.filter keys map fst In].
  - tauto.
  - fold (keys rest). destruct (dict_mem k done_) eqn:Hk; cbn [negb keys map fst In].
    + apply dict_mem_keys in Hk. fold (keys (List.filter
        (fun kv : str * str => negb (dict_mem (fst kv) done_)) rest)).
      rewrite IH. split; [tauto|]. intros [[<-|Hin] Hn]; tauto.
    + assert (~ In k (keys done_)) as Hn by (rewrite <- dict_mem_keys, Hk; discriminate).
      fold (keys (List.filter (fun kv : str * str => negb (dict_mem (fst kv) done_)) rest)).
      rewrite IH. split; [|tauto]. intros [<-|Hin]; tauto.
Qed.

(** C8: when every fragment id of the input is already in [translated],
    [translate_all] returns [translated] at once: no backend call, no
    write to the save directory, glossary and translations untouched. *)
Theorem translate_all_is_a_no_op_when_done fuel all_texts st :
  (forall id_ : str, In id_ (keys all_texts) -> In id_ (keys (translated st))) ->
  exists st',
    translate_all backend disk json_loads fuel all_texts st = (Ret (translated st), st')
    /\ calls st' = calls st
    /\ translated st' = translated st
    /\ glossary st' = glossary st
    /\ files st' = files st
    /\ saves st' = saves st
    /\ sleeps st' = sleeps st
    /\ target_length st' = target_length st.
Proof.
  intros Hall. unfold translate_all. unfold bind at 1, gets.
  rewrite (not_in_all_done _ _ Hall).
  eexists. split; [destruct fuel; reflexivity|]. repeat split; reflexivity.
Qed.

Lemma process_response_unparseable blocks original_texts st :
  first_text blocks <> [] ->
  json_loads (first_text blocks) = None ->
  process_response disk json_loads blocks original_texts st
  = (Ret tt,
     add_log (ERROR, RawResponseText (first_text blocks))
       (add_log (ERROR, ErrorProcessingResponse JSONDecodeError)
          (add_log (INFO, FullResponseReceived (first_text blocks)) st))).
Proof.
  intros Hne Hjson. unfold process_response.
  destruct (first_text blocks) as [|c text] eqn:Hfirst; [done|].
  unfold try_except, bind at 1 2, logger_info, modify. rewrite Hjson. reflexivity.
Qed.

Lemma attempt_unparseable all_texts request_data original_chunk retry_count blocks st :
  backend (length (calls st)) request_data = ApiContent blocks ->
  first_text blocks <> [] ->
  json_loads (first_text blocks) = None ->
  all_texts <> [] ->
  attempt backend disk json_loads all_texts request_data original_chunk retry_count st
  = (Ret (Break (not_in (translated st) all_texts)),
     unparsed_pass request_data original_chunk all_texts (first_text blocks) st).
Proof.
  intros Hb Hne Hjson Htexts. unfold attempt, messages_create, logger_info.
  unfold try_except, bind at 1 2 3 4 5 6, gets, modify.
  cbn [calls add_log]. rewrite Hb. unfold ret at 1.
  rewrite (process_response_unparseable _ _ _ Hne Hjson).
  unfold bind at 1. rewrite adjust_chunk_size_run.
  assert ((len all_texts =? 0) = false) as ->.
  { apply Z.eqb_neq. destruct all_texts; [done|]. unfold len. cbn. lia. }
  unfold unparsed_pass, sleep, logger_info. run_io. reflexivity.
Qed.

(** C2, where the code departs from it: when the text of the response
    cannot be parsed, [process_response] catches the [JSONDecodeError]
    itself, logs it with the raw text and returns, so that the handler of
    the retry loop never sees a failure and the pass ends as a success.  The
    retry loop stops after this one call, the budget takes the success
    adjustment, the pause of 1 follows, and nothing is translated, so the
    same texts remain for the next chunk.  The claim has the retry counter
    incremented, the failure adjustment made and the chunk attempted again
    within the loop. *)
Theorem unparseable_response_ends_the_pass all_texts request_data original_chunk remaining
    blocks st :
  backend (length (calls st)) request_data = ApiContent blocks ->
  first_text blocks <> [] ->
  json_loads (first_text blocks) = None ->
  all_texts <> [] ->
  exists st',
    retry_loop backend disk json_loads (Z.to_nat max_retries) all_texts request_data
      original_chunk remaining 0 st
    = (Ret (not_in (translated st) all_texts), st')
    /\ calls st' = calls st ++ [request_data]
    /\ target_length st' = adjust true (target_length st)
    /\ sleeps st' = sleeps st ++ [1]
    /\ translated st' = translated st
    /\ glossary st' = glossary st
    /\ files st' = files st
    /\ log st'
       = log st ++
         [(INFO, ProcessingChunkSize (len original_chunk));
          (INFO, RawApiResponse (first_text blocks));
          (INFO, FullResponseReceived (first_text blocks));
          (ERROR, ErrorProcessingResponse JSONDecodeError);
          (ERROR, RawResponseText (first_text blocks));
          (INFO, AdjustedTargetLength (adjust true (target_length st)));
          (INFO, Progress (len (translated st)) (len all_texts));
          (INFO, CurrentGlossarySize (len (glossary st)))].
Proof.
  intros Hb Hne Hjson Htexts. change (Z.to_nat max_retries) with 3%nat.
  cbn [retry_loop]. change (0 <? max_retries) with true. cbv iota.
  unfold bind at 1. rewrite (attempt_unparseable _ _ _ _ _ _ Hb Hne Hjson Htexts).
  eexists. split; [reflexivity|]. unfold unparsed_pass. cbn.
  repeat split; try reflexivity.
  rewrite <- !app_assoc. reflexivity.
Qed.

End DriverFacts.

(** ** Runs on concrete inputs *)

(** On the answer "oops": an unparseable response is followed by the
    success adjustment (1200 becomes 1440, where the failure adjustment
    leaves 1200) and by the pause of 1, and the chunk is sent once, not three
    times. *)
Lemma unparseable_response_is_not_retried :
  let r := retry_loop oops_backend sound_disk no_json (Z.to_nat max_retries) two_fragments
             (mkRequest [] two_fragments) two_fragments two_fragments 0 at_floor in
  fst r = Ret two_fragments
  /\ calls (snd r) = [mkRequest [] two_fragments]
  /\ target_length (snd r) = adjust true (float_of_int 1200)
  /\ target_length (snd r) <> adjust false (float_of_int 1200)
  /\ sleeps (snd r) = [1].
Proof. vm_compute. repeat split; try reflexivity. discriminate. Qed.

Lemma unparseable_response_ends_the_pass_witness :
  oops_backend (length (calls at_floor)) (mkRequest [] two_fragments)
  = ApiContent [[0x6F; 0x6F; 0x70; 0x73]%N]
  /\ exists st',
       retry_loop oops_backend sound_disk no_json (Z.to_nat max_retries) two_fragments
         (mkRequest [] two_fragments) two_fragments two_fragments 0 at_floor
       = (Ret (not_in (translated at_floor) two_fragments), st')
       /\ calls st' = calls at_floor ++ [mkRequest [] two_fragments]
       /\ target_length st' = adjust true (target_length at_floor)
       /\ sleeps st' = sleeps at_floor ++ [1].
Proof.
  split; [reflexivity|].
  destruct (unparseable_response_ends_the_pass oops_backend sound_disk no_json two_fragments
              (mkRequest [] two_fragments) two_fragments two_fragments
              [[0x6F; 0x6F; 0x70; 0x73]%N] at_floor)
    as (st' & Hrun & Hcalls & Htarget & Hsleeps & _);
    [reflexivity|discriminate|reflexivity|discriminate|].
  exists st'. repeat split; assumption.
Defined.

(** A budget in bounds admits every chunk of at most 1200 characters. *)
Lemma in_bounds_fits n t : n <= 1200 -> in_bounds t = true -> int_gt_float n t = false.
Proof.
  intros Hn Hin. apply in_bounds_form in Hin as (m & e & -> & Hd & He).
  pose proof (digits2_pos_bounds m) as [Hlo _]. rewrite Hd in Hlo.
  change (2 ^ (53 - 1)) with 4503599627370496 in Hlo.
  cbn [int_gt_float signed_mantissa].
  destruct He as [[-> Hm]|[-> Hm]]; cbn [Z.leb Z.compare Z.opp].
  - change (2 ^ 42) with 4398046511104. apply Z.ltb_ge. lia.
  - change (2 ^ 41) with 2199023255552. apply Z.ltb_ge. lia.
Qed.

Lemma initial_budget_fits n : n <= 1000 -> int_gt_float n (float_of_int 1000) = false.
Proof.
  intros Hn. change (float_of_int 1000) with (S754_finite false 8796093022208000 (-43)).
  cbn [int_gt_float signed_mantissa Z.leb Z.compare Z.opp].
  change (2 ^ 43) with 8796093022208. apply Z.ltb_ge. lia.
Qed.

(** With a backend that always raises, every pass of the driver loop finds
    the two fragments untranslated, builds the same chunk, sends it three
    times and gives up; on a disk whose clean-ups work the loop only stops
    when the fuel runs out. *)
Lemma chunk_loop_failing_backend disk json_loads (fuel : nat) :
  (forall n : nat, cleanup_of (disk n) = CleanupWorks) ->
  forall st : state,
    translated st = [] -> glossary st = [] ->
    target_length st = float_of_int 1000 \/ in_bounds (target_length st) = true ->
    exists st',
      chunk_loop failing_backend disk json_loads fuel two_fragments two_fragments st
      = (Timeout, st')
      /\ calls st' = calls st ++ repeat (mkRequest [] two_fragments) (3 * fuel)
      /\ translated st' = [].
Proof.
  intros Hdisk. induction fuel as [|fuel IH]; intros st Ht Hg Hbudget.
  - exists st. split; [reflexivity|]. split; [now rewrite app_nil_r|exact Ht].
  - assert (forall n, n <= 1000 -> int_gt_float n (target_length st) = false) as Hfits.
    { intros n Hn. destruct Hbudget as [->|Hin]; [now apply initial_budget_fits|].
      apply in_bounds_fits; [lia|done]. }
    assert (create_next_chunk two_fragments st
            = (Ret (Some (mkRequest [] two_fragments, two_fragments)),
               add_log (INFO, FullRequestData (mkRequest [] two_fragments))
                 (add_log (INFO, PreparingRequest 0) st))) as Hchunk.
    { rewrite create_next_chunk_unfold, Ht.
      assert (next_chunk_loop [] (target_length st) two_fragments [] 0 = two_fragments) as ->.
      { cbn [next_chunk_loop two_fragments dict_mem dict_get].
        change (0 + len [20320%N; 22909%N]) with 2. rewrite (Hfits 2) by lia.
        change (2 + len [19990%N; 30028%N]) with 4. rewrite (Hfits 4) by lia.
        reflexivity. }
      unfold two_fragments at 1. cbv iota beta. fold two_fragments.
      unfold bind. rewrite (prepare_request_run _ _ []); [reflexivity|].
      now rewrite Hg. }
    cbn [chunk_loop two_fragments]. fold two_fragments.
    unfold bind at 1. rewrite Hchunk. unfold bind at 1.
    set (st1 := add_log _ _).
    destruct (retry_loop_exhausted failing_backend disk json_loads two_fragments
                (mkRequest [] two_fragments) two_fragments two_fragments st1)
      as (st2 & Hrun & Hcalls & Htr & Hgl & _ & Htarget & _); [reflexivity|].
    unfold save_raises in Hrun. rewrite (cleanup_works_returns _ _ (Hdisk _)) in Hrun.
    rewrite Hrun.
    destruct (IH st2) as (st' & Hloop & Hcalls' & Htr').
    + now rewrite Htr.
    + now rewrite Hgl.
    + right. rewrite Htarget. change (target_length st1) with (target_length st).
      do 2 apply adjust_in_bounds.
      destruct Hbudget as [->|Hin]; [vm_compute; reflexivity|now apply adjust_in_bounds].
    + exists st'. split; [exact Hloop|]. split; [|exact Htr'].
      rewrite Hcalls', Hcalls. change (calls st1) with (calls st).
      rewrite <- app_assoc. f_equal.
      replace (3 * S fuel)%nat with (3 + 3 * fuel)%nat by lia. reflexivity.
Qed.

(** C3, where the code departs from it: with a backend that always raises,
    the first pass of the driver loop sends the chunk of "A" and "B" three
    times and records it in [failed_translations.json]; every later pass
    builds the same chunk again and sends it three more times, so that
    [translate_all] never returns: on every disk whose clean-ups work,
    whatever its write faults and whatever the fuel, the fuel is used up. *)
Theorem abandoned_chunk_is_selected_again :
  (let one := translate_all failing_backend sound_disk no_json 1 two_fragments (init [] [] ∅) in
   calls (snd one) = repeat (mkRequest [] two_fragments) 3
   /\ files (snd one) !! failed_translations_json = Some (JsonText two_fragments)
   /\ In (ERROR, FailedToProcessChunk 3) (log (snd one)))
  /\ forall disk json_loads fuel,
       (forall n : nat, cleanup_of (disk n) = CleanupWorks) ->
       exists st',
         translate_all failing_backend disk json_loads fuel two_fragments (init [] [] ∅)
         = (Timeout, st')
         /\ calls st' = repeat (mkRequest [] two_fragments) (3 * fuel)
         /\ translated st' = [].
Proof.
  split.
  - vm_compute. repeat split; try reflexivity. do 12 right. now left.
  - intros disk json_loads fuel Hdisk.
    unfold translate_all, bind at 1 2, gets, logger_info, modify.
    change (not_in (translated (init [] [] ∅)) two_fragments) with two_fragments.
    destruct (chunk_loop_failing_backend disk json_loads fuel Hdisk
                (add_log (INFO, StartingTranslation (len two_fragments) (len (@nil (str * str))))
                   (init [] [] ∅)))
      as (st' & Hloop & Hcalls & Htr); [reflexivity|reflexivity|now left|].
    exists st'. unfold bind. cbn [translated init].
    split; [now rewrite Hloop|]. split; [exact Hcalls|exact Htr].
Qed.

Lemma failed_chunk_is_recorded_witness :
  (forall k : nat, (k < 3)%nat ->
     failing_backend (length (calls (init [] [] failed_directory)) + k)
       (mkRequest [] two_fragments) = ApiRaises)
  /\ exists st',
       retry_loop failing_backend sound_disk no_json (Z.to_nat max_retries) two_fragments
         (mkRequest [] two_fragments) two_fragments two_fragments 0 (init [] [] failed_directory)
       = (Ret two_fragments, st')
       /\ length (calls st') = 3%nat
       /\ translated st' = []
       /\ files st' !! failed_translations_json = Some (JsonText two_fragments).
Proof.
  split; [reflexivity|].
  destruct (failed_chunk_is_recorded failing_backend sound_disk no_json two_fragments
              (mkRequest [] two_fragments) two_fragments two_fragments
              (init [] [] failed_directory))
    as (o & st' & Hrun & _ & Hret & Hcalls & Htr & Hfiles); [reflexivity|].
  exists st'. rewrite Hrun, (Hret eq_refl).
  split; [reflexivity|]. split; [now rewrite Hcalls|]. split; [exact Htr|].
  apply Hfiles. reflexivity.
Defined.

Lemma translate_all_is_a_no_op_when_done_witness :
  (forall id_ : str, In id_ (keys two_fragments) ->
     In id_ (keys (translated (init [] two_fragments ∅))))
  /\ exists st',
       translate_all failing_backend sound_disk no_json 0 two_fragments
         (init [] two_fragments ∅)
       = (Ret two_fragments, st')
       /\ calls st' = [].
Proof.
  split; [intros id_ Hin; exact Hin|].
  destruct (translate_all_is_a_no_op_when_done failing_backend sound_disk no_json 0
              two_fragments (init [] two_fragments ∅))
    as (st' & Hrun & Hcalls & _); [intros id_ Hin; exact Hin|].
  exists st'. split; [exact Hrun|exact Hcalls].
Defined.

(** * Further properties of the code *)

(** ** The store *)

Lemma save_json_other_files disk data filename st path :
  path <> filename ->
  path <> with_suffix filename ".tmp" ->
  files (snd (save_json disk data filename st)) !! path = files st !! path.
Proof.
  intros Hp Ht. set (temp_path := with_suffix filename ".tmp") in *.
  unfold save_json. fold temp_path.
  unfold open_w, json_dump, replace, unlink, path_exists, logger_error.
  destruct (disk (saves st)) as [|c|c|c] eqn:Hf; try destruct c;
    run_io; rewrite ?Hf; cbn [cleanup_of]; run_io;
    rewrite ?bool_decide_eq_true_2 by (rewrite lookup_insert_eq; now eexists);
    run_io; rewrite ?lookup_insert_eq; cbn [snd]; run_io;
    try (now rewrite ?lookup_insert_ne, ?lookup_delete_ne, ?lookup_insert_ne by done).
  - case_bool_decide as Hex; [|reflexivity].
    destruct Hex as [c Hc]. run_io. rewrite Hc. cbn [snd]; run_io.
    now rewrite lookup_delete_ne.
  - now case_bool_decide.
Qed.

Lemma save_json_log disk data filename st :
  log (snd (save_json disk data filename st))
  = log st ++ match disk (saves st) with
              | NoFault => []
              | _ => [(ERROR, ErrorSaving filename OSError)]
              end.
Proof.
  set (temp_path := with_suffix filename ".tmp").
  unfold save_json. fold temp_path.
  unfold open_w, json_dump, replace, unlink, path_exists, logger_error.
  destruct (disk (saves st)) as [|c|c|c] eqn:Hf; try destruct c;
    run_io; rewrite ?Hf; cbn [cleanup_of]; run_io;
    rewrite ?bool_decide_eq_true_2 by (rewrite lookup_insert_eq; now eexists);
    run_io; rewrite ?lookup_insert_eq; cbn [snd]; run_io;
    rewrite ?app_nil_r; try reflexivity.
  - case_bool_decide as Hex; [|reflexivity].
    destruct Hex as [c Hc]. run_io. now rewrite Hc.
  - now case_bool_decide.
Qed.

(** X1: among the data files of the save directory [save_json] touches only
    its target and its temporary path: every other one is as before,
    whether the write succeeds or fails and whatever the clean-up does.
    [translation.log] grows by the record of the failure when the write
    fails, and by nothing when it succeeds. *)
Theorem save_json_touches_only_its_paths disk data filename st path :
  path <> filename ->
  path <> with_suffix filename ".tmp" ->
  path <> translation_log ->
  files (snd (save_json disk data filename st)) !! path = files st !! path
  /\ log (snd (save_json disk data filename st))
     = log st ++ match disk (saves st) with
                 | NoFault => []
                 | _ => [(ERROR, ErrorSaving filename OSError)]
                 end.
Proof.
  intros Hp Ht _. split; [now apply save_json_other_files|apply save_json_log].
Qed.

Lemma save_json_touches_only_its_paths_witness :
  (translations_json <> failed_translations_json
   /\ translations_json <> with_suffix failed_translations_json ".tmp"
   /\ translations_json <> translation_log)
  /\ files (snd (save_json stuck_disk two_fragments failed_translations_json
                   (init [] old_translations old_directory))) !! translations_json
     = Some (JsonText old_translations)
  /\ log (snd (save_json stuck_disk two_fragments failed_translations_json
                 (init [] old_translations old_directory)))
     = [(ERROR, ErrorSaving failed_translations_json OSError)].
Proof.
  assert (translations_json <> failed_translations_json) as H1 by (vm_compute; discriminate).
  assert (translations_json <> with_suffix failed_translations_json ".tmp") as H2
    by (vm_compute; discriminate).
  assert (translations_json <> translation_log) as H3 by (vm_compute; discriminate).
  split; [split; [exact H1|split; [exact H2|exact H3]]|].
  destruct (save_json_touches_only_its_paths stuck_disk two_fragments
              failed_translations_json (init [] old_translations old_directory)
              translations_json H1 H2 H3) as [Hfiles Hlog].
  split; [rewrite Hfiles; reflexivity|rewrite Hlog; reflexivity].
Defined.



(** X3: a [save_json] that fails is invisible to [load_json]: it returns
    what it returned before the failed save. *)
Theorem failed_save_is_invisible disk data filename default_value st :
  with_suffix filename ".tmp" <> filename ->
  disk (saves st) <> NoFault ->
  fst (load_json filename default_value (snd (save_json disk data filename st)))
  = fst (load_json filename default_value st).
Proof.
  intros Hne Hf.
  destruct (save_json_spec disk data filename st Hne) as (st' & Hrun & Hsaved & _).
  rewrite Hrun. cbn [snd]. unfold load_json, bind, gets.
  assert (files st' !! filename = files st !! filename) as ->.
  { revert Hf Hsaved. unfold saved.
    destruct (disk (saves st)); intros Hf Hsaved; [done|tauto ..]. }
  destruct (files st !! filename) as [[| | |]|]; reflexivity.
Qed.

Lemma failed_save_is_invisible_witness :
  (with_suffix translations_json ".tmp" <> translations_json
   /\ stuck_disk (saves (init [] [] old_directory)) <> NoFault)
  /\ fst (load_json translations_json []
            (snd (save_json stuck_disk two_fragments translations_json
                    (init [] [] old_directory))))
     = Ret old_translations.
Proof.
  split; [split; [vm_compute; discriminate|discriminate]|].
  rewrite (failed_save_is_invisible stuck_disk two_fragments translations_json []
             (init [] [] old_directory)); [reflexivity|vm_compute; discriminate|discriminate].
Defined.

(** ** What every operation keeps *)

Lemma continues_refl st : continues st st.
Proof.
  repeat split; try done; try (exists []; now rewrite app_nil_r).
Qed.

Lemma continues_trans st1 st2 st3 : continues st1 st2 -> continues st2 st3 -> continues st1 st3.
Proof.
  intros (Ht & Hg & [l Hl] & [c Hc] & [s Hs] & Hn & Hb)
         (Ht' & Hg' & [l' Hl'] & [c' Hc'] & [s' Hs'] & Hn' & Hb').
  repeat split.
  - intros k Hk. auto.
  - intros k Hk. auto.
  - exists (l ++ l'). now rewrite Hl', Hl, app_assoc.
  - exists (c ++ c'). now rewrite Hc', Hc, app_assoc.
  - exists (s ++ s'). now rewrite Hs', Hs, app_assoc.
  - lia.
  - auto.
Qed.

Lemma keys_dict_update (d other : dict str str) (k : str) :
  In k (keys (dict_update d other)) <-> In k (keys d) \/ In k (keys other).
Proof.
  unfold dict_update. revert d. induction other as [|[k0 v0] other IH]; intros d; cbn [fold_left].
  - cbn. tauto.
  - rewrite IH, keys_dict_set. cbn [keys map fst snd In].
    fold (keys other). fold (keys d). intuition congruence.
Qed.

Lemma continues_add_log e st : continues st (add_log e st).
Proof. repeat split; try done; try (exists []; now rewrite app_nil_r). now exists [e]. Qed.

Lemma continues_add_call r st : continues st (add_call r st).
Proof. repeat split; try done; try (exists []; now rewrite app_nil_r). now exists [r]. Qed.

Lemma continues_add_sleep d st : continues st (add_sleep d st).
Proof. repeat split; try done; try (exists []; now rewrite app_nil_r). now exists [d]. Qed.

Lemma continues_add_save st : continues st (add_save st).
Proof. repeat split; try done; try (exists []; now rewrite app_nil_r). cbn. lia. Qed.

Lemma continues_set_files f st : continues st (set_files f st).
Proof. repeat split; try done; try (exists []; now rewrite app_nil_r). Qed.

Lemma budget_ok_adjust success t : budget_ok t -> budget_ok (adjust success t).
Proof.
  intros [->|Hin]; right; [destruct success; vm_compute; reflexivity|].
  now apply adjust_in_bounds.
Qed.

Lemma continues_adjust success st :
  continues st (set_target_length (adjust success (target_length st)) st).
Proof.
  repeat split; try done; try (exists []; now rewrite app_nil_r).
  apply budget_ok_adjust.
Qed.

Lemma continues_merge_translated res st :
  continues st (set_translated (dict_update (translated st) res) st).
Proof.
  repeat split; try done; try (exists []; now rewrite app_nil_r).
  intros k Hk. cbn. apply keys_dict_update. now left.
Qed.

Lemma continues_merge_glossary terms st :
  continues st (set_glossary (dict_update (glossary st) terms) st).
Proof.
  repeat split; try done; try (exists []; now rewrite app_nil_r).
  intros k Hk. cbn. apply keys_dict_update. now left.
Qed.

Section Keeps.
Context {A B : Type}.

Lemma keeps_ret (a : A) : keeps (ret a).
Proof. intros st. apply continues_refl. Qed.

Lemma keeps_raise (e : exn) : keeps (@raise A e).
Proof. intros st. apply continues_refl. Qed.

Lemma keeps_timeout : keeps (@timeout A).
Proof. intros st. apply continues_refl. Qed.

Lemma keeps_gets (f : state -> A) : keeps (gets f).
Proof. intros st. apply continues_refl. Qed.

Lemma keeps_lift (o : outcome A) : keeps (lift o).
Proof. intros st. apply continues_refl. Qed.

Lemma keeps_bind (m : M A) (k : A -> M B) :
  keeps m -> (forall a, keeps (k a)) -> keeps (bind m k).
Proof.
  intros Hm Hk st. unfold bind. specialize (Hm st).
  destruct (m st) as [[a|e|] st1]; cbn [snd] in *; [|done|done].
  apply (continues_trans _ st1); [done|apply Hk].
Qed.

Lemma keeps_try_except (m : M A) (h : exn -> M A) :
  keeps m -> (forall e, keeps (h e)) -> keeps (try_except m h).
Proof.
  intros Hm Hh st. unfold try_except. specialize (Hm st).
  destruct (m st) as [[a|e|] st1]; cbn [snd] in *; [done| |done].
  apply (continues_trans _ st1); [done|apply Hh].
Qed.

Lemma never_raises_bind (m : M A) (k : A -> M B) :
  never_raises m -> (forall a, never_raises (k a)) -> never_raises (bind m k).
Proof.
  intros Hm Hk st e. unfold bind. specialize (Hm st).
  destruct (m st) as [[a|e'|] st1]; cbn [fst] in *; [apply Hk|now destruct (Hm e')|done].
Qed.

Lemma never_raises_try_except (m : M A) (h : exn -> M A) :
  (forall e, never_raises (h e)) -> never_raises (try_except m h).
Proof.
  intros Hh st e. unfold try_except.
  destruct (m st) as [[a|e'|] st1]; cbn [fst]; [done|apply Hh|done].
Qed.

Lemma never_raises_ret (a : A) : never_raises (ret a).
Proof. intros st e. discriminate. Qed.

Lemma never_raises_gets (f : state -> A) : never_raises (gets f).
Proof. intros st e. discriminate. Qed.

Lemma never_raises_timeout : never_raises (@timeout A).
Proof. intros st e. discriminate. Qed.

Lemma raises_only_never (ok : exn -> Prop) (m : M A) : never_raises m -> raises_only ok m.
Proof. intros Hm st e He. now destruct (Hm st e). Qed.

Lemma raises_only_bind (ok : exn -> Prop) (m : M A) (k : A -> M B) :
  raises_only ok m -> (forall a, raises_only ok (k a)) -> raises_only ok (bind m k).
Proof.
  intros Hm Hk st e. unfold bind. specialize (Hm st).
  destruct (m st) as [[a|e'|] st1]; cbn [fst] in *; [apply Hk| |done].
  intros [= <-]. now apply Hm.
Qed.

Lemma raises_only_try_except (ok : exn -> Prop) (m : M A) (h : exn -> M A) :
  (forall e, raises_only ok (h e)) -> raises_only ok (try_except m h).
Proof.
  intros Hh st e. unfold try_except.
  destruct (m st) as [[a|e'|] st1]; cbn [fst]; [done|apply Hh|done].
Qed.

End Keeps.

Lemma keeps_modify (f : state -> state) : (forall st, continues st (f st)) -> keeps (modify f).
Proof. intros Hf st. apply Hf. Qed.

Lemma never_raises_modify (f : state -> state) : never_raises (modify f).
Proof. intros st e. discriminate. Qed.

Lemma keeps_logger_info msg : keeps (logger_info msg).
Proof. apply keeps_modify, continues_add_log. Qed.

Lemma keeps_logger_error msg : keeps (logger_error msg).
Proof. apply keeps_modify, continues_add_log. Qed.

Lemma keeps_sleep d : keeps (sleep d).
Proof. apply keeps_modify, continues_add_sleep. Qed.

(** Splits a computation along its binds, handlers and case distinctions;
    [leaf] closes the calls of other functions. *)
Ltac keeps_with leaf :=
  repeat first
    [ lazymatch goal with
      | |- keeps (ret _) => apply keeps_ret
      | |- keeps (raise _) => apply keeps_raise
      | |- keeps timeout => apply keeps_timeout
      | |- keeps (gets _) => apply keeps_gets
      | |- keeps (lift _) => apply keeps_lift
      | |- keeps (logger_info _) => apply keeps_logger_info
      | |- keeps (logger_error _) => apply keeps_logger_error
      | |- keeps (sleep _) => apply keeps_sleep
      | |- keeps (modify _) =>
          apply keeps_modify; intros ?;
          first [ apply continues_add_log | apply continues_add_call
                | apply continues_add_sleep | apply continues_add_save
                | apply continues_set_files
                | apply continues_merge_translated | apply continues_merge_glossary ]
      | |- keeps (bind _ _) => apply keeps_bind; [|intros ?]
      | |- keeps (try_except _ _) => apply keeps_try_except; [|intros ?]
      | |- keeps (match ?x with _ => _ end) => destruct x
      end
    | leaf ].

Ltac never_raises_with leaf :=
  repeat first
    [ lazymatch goal with
      | |- never_raises (ret _) => apply never_raises_ret
      | |- never_raises timeout => apply never_raises_timeout
      | |- never_raises (gets _) => apply never_raises_gets
      | |- never_raises (modify _) => apply never_raises_modify
      | |- never_raises (logger_info _) => apply never_raises_modify
      | |- never_raises (logger_error _) => apply never_raises_modify
      | |- never_raises (sleep _) => apply never_raises_modify
      | |- never_raises (try_except _ _) => apply never_raises_try_except; intros ?
      | |- never_raises (bind _ _) => apply never_raises_bind; [|intros ?]
      | |- never_raises (match ?x with _ => _ end) => destruct x
      end
    | leaf ].

Ltac raises_only_with leaf :=
  repeat first
    [ lazymatch goal with
      | |- raises_only _ (ret _) => apply raises_only_never, never_raises_ret
      | |- raises_only _ timeout => apply raises_only_never, never_raises_timeout
      | |- raises_only _ (gets _) => apply raises_only_never, never_raises_gets
      | |- raises_only _ (modify _) => apply raises_only_never, never_raises_modify
      | |- raises_only _ (logger_info _) => apply raises_only_never, never_raises_modify
      | |- raises_only _ (logger_error _) => apply raises_only_never, never_raises_modify
      | |- raises_only _ (sleep _) => apply raises_only_never, never_raises_modify
      | |- raises_only _ (try_except _ _) => apply raises_only_try_except; intros ?
      | |- raises_only _ (bind _ _) => apply raises_only_bind; [|intros ?]
      | |- raises_only _ (match ?x with _ => _ end) => destruct x
      end
    | leaf ].

Lemma keeps_save_json disk data filename : keeps (save_json disk data filename).
Proof.
  unfold save_json, open_w, json_dump, replace, path_exists, unlink. keeps_with fail.
Qed.

(** [save_json] raises exactly when its clean-up does. *)
Lemma save_json_outcome disk data filename st :
  fst (save_json disk data filename st)
  = if save_raises disk filename st then Raise OSError else Ret tt.
Proof.
  set (temp_path := with_suffix filename ".tmp").
  unfold save_json, save_raises. fold temp_path.
  unfold open_w, json_dump, replace, unlink, path_exists, logger_error.
  destruct (disk (saves st)) as [|c|c|c] eqn:Hf; try destruct c;
    run_io; rewrite ?Hf; cbn [cleanup_of cleanup_raises]; run_io;
    rewrite ?bool_decide_eq_true_2 by (rewrite lookup_insert_eq; now eexists);
    run_io; rewrite ?lookup_insert_eq; try reflexivity.
  - case_bool_decide as Hex; [|reflexivity].
    destruct Hex as [c Hc]. run_io. now rewrite Hc.
  - now case_bool_decide.
Qed.

Lemma raises_only_save_json disk data filename :
  raises_only (cleanup_error disk) (save_json disk data filename).
Proof.
  intros st e. rewrite save_json_outcome. unfold save_raises.
  destruct (cleanup_raises _ _) eqn:Hr; [|discriminate].
  intros [= <-]. split; [reflexivity|]. exists (saves st). intros Hc.
  now rewrite (cleanup_works_returns _ _ Hc) in Hr.
Qed.

Lemma keeps_load_json filename default_value : keeps (load_json filename default_value).
Proof. unfold load_json. keeps_with fail. Qed.

Lemma keeps_prepare_request chunk : keeps (prepare_request chunk).
Proof. unfold prepare_request. keeps_with fail. Qed.

Lemma never_raises_prepare_request chunk : never_raises (prepare_request chunk).
Proof.
  intros st e. destruct (prepare_request_total chunk st) as (terms & Hsel & _).
  now rewrite (prepare_request_run _ _ _ Hsel).
Qed.

Lemma keeps_create_next_chunk remaining : keeps (create_next_chunk remaining).
Proof.
  unfold create_next_chunk. keeps_with ltac:(apply keeps_prepare_request).
Qed.

Lemma never_raises_create_next_chunk remaining : never_raises (create_next_chunk remaining).
Proof.
  unfold create_next_chunk. never_raises_with ltac:(apply never_raises_prepare_request).
Qed.

Lemma keeps_adjust_chunk_size success : keeps (adjust_chunk_size success).
Proof.
  intros st. rewrite adjust_chunk_size_run. cbn [snd].
  eapply continues_trans; [apply continues_adjust|apply continues_add_log].
Qed.

Lemma never_raises_adjust_chunk_size success : never_raises (adjust_chunk_size success).
Proof. unfold adjust_chunk_size. never_raises_with fail. Qed.

Section DriverKeeps.
Variable backend : nat -> request -> api_result.
Variable disk : nat -> fault.
Variable json_loads : str -> option json.

Lemma keeps_process_response blocks original_texts :
  keeps (process_response disk json_loads blocks original_texts).
Proof.
  unfold process_response, update, nonempty. keeps_with ltac:(apply keeps_save_json).
Qed.

Lemma never_raises_process_response blocks original_texts :
  never_raises (process_response disk json_loads blocks original_texts).
Proof.
  unfold process_response. never_raises_with fail.
Qed.

Lemma keeps_messages_create request_data : keeps (messages_create backend request_data).
Proof. unfold messages_create. keeps_with fail. Qed.

Lemma keeps_attempt all_texts request_data original_chunk retry_count :
  keeps (attempt backend disk json_loads all_texts request_data original_chunk retry_count).
Proof.
  unfold attempt.
  keeps_with ltac:(first [ apply keeps_messages_create | apply keeps_process_response
                         | apply keeps_adjust_chunk_size | apply keeps_save_json ]).
Qed.

Lemma raises_only_attempt all_texts request_data original_chunk retry_count :
  raises_only (cleanup_error disk)
    (attempt backend disk json_loads all_texts request_data original_chunk retry_count).
Proof.
  unfold attempt.
  raises_only_with ltac:(first [ apply raises_only_never, never_raises_adjust_chunk_size
                               | apply raises_only_save_json ]).
Qed.

Lemma keeps_retry_loop fuel all_texts request_data original_chunk remaining :
  forall retry_count,
    keeps (retry_loop backend disk json_loads fuel all_texts request_data original_chunk
             remaining retry_count).
Proof.
  induction fuel as [|fuel IH]; intros retry_count; cbn [retry_loop];
    destruct (retry_count <? max_retries);
    keeps_with ltac:(first [ apply keeps_attempt | apply IH ]).
Qed.

Lemma raises_only_retry_loop fuel all_texts request_data original_chunk remaining :
  forall retry_count,
    raises_only (cleanup_error disk)
      (retry_loop backend disk json_loads fuel all_texts request_data original_chunk
         remaining retry_count).
Proof.
  induction fuel as [|fuel IH]; intros retry_count; cbn [retry_loop];
    destruct (retry_count <? max_retries);
    raises_only_with ltac:(first [ apply raises_only_attempt | apply IH ]).
Qed.

Lemma keeps_chunk_loop fuel all_texts :
  forall remaining, keeps (chunk_loop backend disk json_loads fuel all_texts remaining).
Proof.
  induction fuel as [|fuel IH]; intros [|kv remaining]; cbn [chunk_loop];
    keeps_with ltac:(first [ apply keeps_create_next_chunk | apply keeps_retry_loop
                           | apply IH ]).
Qed.

Lemma raises_only_chunk_loop fuel all_texts :
  forall remaining,
    raises_only (cleanup_error disk)
      (chunk_loop backend disk json_loads fuel all_texts remaining).
Proof.
  induction fuel as [|fuel IH]; intros [|kv remaining]; cbn [chunk_loop];
    raises_only_with ltac:(first [ apply raises_only_never, never_raises_create_next_chunk
                                 | apply raises_only_retry_loop | apply IH ]).
Qed.

Lemma keeps_translate_all fuel all_texts :
  keeps (translate_all backend disk json_loads fuel all_texts).
Proof. unfold translate_all. keeps_with ltac:(apply keeps_chunk_loop). Qed.

Lemma raises_only_translate_all fuel all_texts :
  raises_only (cleanup_error disk) (translate_all backend disk json_loads fuel all_texts).
Proof.
  unfold translate_all. raises_only_with ltac:(apply raises_only_chunk_loop).
Qed.

End DriverKeeps.



(** X5: a run of [translate_all] only adds: every key of [translated] and
    of [glossary] is still a key afterwards, and the log and the list of
    backend calls are extended at their end. *)
Theorem translate_all_only_adds backend disk json_loads fuel all_texts st :
  (forall k : str,
     In k (keys (translated st)) ->
     In k (keys (translated (snd (translate_all backend disk json_loads fuel all_texts st)))))
  /\ (forall k : str,
        In k (keys (glossary st)) ->
        In k (keys (glossary (snd (translate_all backend disk json_loads fuel all_texts st)))))
  /\ (exists l,
        log (snd (translate_all backend disk json_loads fuel all_texts st)) = log st ++ l)
  /\ (exists c,
        calls (snd (translate_all backend disk json_loads fuel all_texts st)) = calls st ++ c).
Proof.
  destruct (keeps_translate_all backend disk json_loads fuel all_texts st)
    as (Ht & Hg & Hl & Hc & _).
  repeat split; assumption.
Qed.

(** X6: a run that starts with the budget at 1000 or in [1200, 2400] ends,
    or is cut short, with the budget at 1000 or in [1200, 2400]. *)
Theorem budget_in_range_throughout backend disk json_loads fuel all_texts st :
  target_length st = float_of_int 1000 \/ in_bounds (target_length st) = true ->
  target_length (snd (translate_all backend disk json_loads fuel all_texts st))
  = float_of_int 1000
  \/ in_bounds (target_length (snd (translate_all backend disk json_loads fuel all_texts st)))
     = true.
Proof.
  intros Hb.
  destruct (keeps_translate_all backend disk json_loads fuel all_texts st)
    as (_ & _ & _ & _ & _ & _ & Hbudget).
  now apply Hbudget.
Qed.

Lemma budget_in_range_throughout_witness :
  (target_length (init [] [] ∅) = float_of_int 1000
   \/ in_bounds (target_length (init [] [] ∅)) = true)
  /\ (target_length (snd (translate_all oops_backend sound_disk no_json 5 two_fragments
                            (init [] [] ∅)))
      = float_of_int 1000
      \/ in_bounds (target_length (snd (translate_all oops_backend sound_disk no_json 5
                                          two_fragments (init [] [] ∅))))
         = true).
Proof.
  split; [now left|].
  apply (budget_in_range_throughout oops_backend sound_disk no_json 5 two_fragments
           (init [] [] ∅)).
  left. reflexivity.
Defined.

(** ** The response merge *)

Lemma dict_get_update (d other : dict str str) (k : str) :
  List.NoDup (keys other) ->
  dict_get k (dict_update d other)
  = match dict_get k other with
    | Some v => Some v
    | None => dict_get k d
    end.
Proof.
  unfold dict_update. revert d.
  induction other as [|[k0 v0] other IH]; intros d Hnd; cbn [fold_left dict_get fst snd].
  - reflexivity.
  - cbn [keys map fst] in Hnd. fold (keys other) in Hnd.
    apply List.NoDup_cons_iff in Hnd as [Hfresh Hnd].
    rewrite IH by exact Hnd. rewrite dict_get_set.
    destruct (decide (k = k0)) as [->|Hne]; [|reflexivity].
    destruct (dict_get k0 other) eqn:Hget; [|reflexivity].
    exfalso. apply Hfresh. apply dict_get_keys. rewrite Hget. now eexists.
Qed.

(** A start on a directory whose [translations.json] holds the translations
    of the state leaves them as they are. *)
Lemma startup_translated st :
  files st !! translations_json = Some (JsonText (translated st)) ->
  translated (snd (startup st)) = translated st.
Proof.
  intros Hfile.
  unfold startup, load_json, logger_error, bind, gets, modify, ret, raise. cbv beta.
  destruct (files st !! glossary_json) as [[| | |]|];
    cbn [files set_glossary add_log]; rewrite ?Hfile; reflexivity.
Qed.

Lemma len_zero (d : dict str str) : (0 <? len d) = false -> d = [].
Proof.
  intros H. apply Z.ltb_ge in H. destruct d; [reflexivity|]. unfold len in H. cbn in H. lia.
Qed.

Section ProcessResponse.
Variable disk : nat -> fault.
Variable json_loads : str -> option json.

(** The [if "result" in result] block. *)
Lemma merge_result_run (v : option field) st :
  exists st',
    match v with
    | Some res =>
        update translated set_translated res ;;
        t <- gets translated ;;
        save_json disk t translations_json ;;
        logger_info (TranslatedTexts (len (entries res)))
    | None => ret tt
    end st
    = (match v with
       | None => Ret tt
       | Some (Mapping _) =>
           if save_raises disk translations_json st then Raise OSError else Ret tt
       | Some _ => Raise TypeError
       end, st')
    /\ translated st' = dict_update (translated st) (entries_of v)
    /\ glossary st' = glossary st /\ target_length st' = target_length st
    /\ calls st' = calls st /\ sleeps st' = sleeps st
    /\ (forall path : string,
          path <> translations_json -> path <> with_suffix translations_json ".tmp" ->
          files st' !! path = files st !! path)
    /\ files st' !! translations_json
       = match v, disk (saves st) with
         | Some (Mapping res), NoFault => Some (JsonText (dict_update (translated st) res))
         | _, _ => files st !! translations_json
         end.
Proof.
  destruct v as [[res|res|]|]; cbn [entries_of entries].
  - (* a mapping *)
    unfold update. unfold bind at 1 2, modify, ret. unfold bind at 1, gets.
    cbn [translated set_translated entries].
    set (st1 := set_translated (dict_update (translated st) res) st).
    destruct (save_json_spec disk (dict_update (translated st) res) translations_json st1)
      as (st2 & Hrun & Hsaved & Hg & Ht & Htl & Hc & Hs & Hsl); [apply temp_paths_differ|].
    change (save_raises disk translations_json st1)
      with (save_raises disk translations_json st) in Hrun.
    pose proof (save_json_other_files disk (dict_update (translated st) res)
                  translations_json st1) as Hother.
    rewrite Hrun in Hother. cbn [snd] in Hother.
    change (saves st1) with (saves st) in Hsaved. change (files st1) with (files st) in Hsaved.
    unfold bind. rewrite Hrun.
    destruct (save_raises disk translations_json st); unfold logger_info, modify;
      eexists; (split; [reflexivity|]);
      cbn [translated glossary target_length calls sleeps saves files add_log];
      rewrite Ht, Hg, Htl, Hc, Hsl; repeat split; try (intros; now apply Hother).
    all: unfold saved in Hsaved;
      destruct (disk (saves st));
        [destruct Hsaved as [-> _]; apply lookup_insert_eq|exact (proj1 Hsaved) ..].
  - (* a sequence *)
    unfold update, bind, modify. eexists. split; [reflexivity|]. repeat split; done.
  - (* a scalar *)
    unfold update, bind, modify. eexists. split; [reflexivity|]. repeat split; done.
  - exists st. split; [reflexivity|]. repeat split; done.
Qed.

(** The [if "new_terms" in result] block. *)
Lemma merge_terms_run (v : option field) st :
  exists o st',
    match v with
    | Some terms =>
        b <- nonempty terms ;;
        if b : bool then
          update glossary set_glossary terms ;;
          g <- gets glossary ;;
          save_json disk g glossary_json ;;
          logger_info (AddedNewTerms (entries terms))
        else ret tt
    | None => ret tt
    end st = (o, st')
    /\ o <> Timeout
    /\ glossary st' = dict_update (glossary st) (entries_of v)
    /\ translated st' = translated st /\ target_length st' = target_length st
    /\ calls st' = calls st /\ sleeps st' = sleeps st
    /\ (forall path : string,
          path <> glossary_json -> path <> with_suffix glossary_json ".tmp" ->
          files st' !! path = files st !! path).
Proof.
  destruct v as [[terms|terms|]|]; cbn [entries_of entries nonempty].
  - (* a mapping *)
    unfold bind at 1, ret at 1.
    destruct (0 <? len terms) eqn:Hlen.
    + unfold update. unfold bind at 1 2, modify, ret. unfold bind at 1, gets.
      cbn [glossary set_glossary entries].
      set (st1 := set_glossary (dict_update (glossary st) terms) st).
      destruct (save_json_spec disk (dict_update (glossary st) terms) glossary_json st1)
        as (st2 & Hrun & _ & Hg & Ht & Htl & Hc & Hs & Hsl); [apply temp_paths_differ|].
      pose proof (save_json_other_files disk (dict_update (glossary st) terms)
                    glossary_json st1) as Hother.
      rewrite Hrun in Hother. cbn [snd] in Hother.
      unfold bind. rewrite Hrun.
      destruct (save_raises disk glossary_json st1); unfold logger_info, modify;
        eexists _, _; (split; [reflexivity|]); (split; [discriminate|]);
        cbn [translated glossary target_length calls sleeps saves files add_log];
        rewrite Ht, Hg, Htl, Hc, Hsl; repeat split; intros; now apply Hother.
    + apply len_zero in Hlen. subst terms.
      exists (Ret tt), st. split; [reflexivity|]. split; [discriminate|]. repeat split; done.
  - (* a sequence *)
    unfold update, bind, modify, ret. eexists _, _. split; [reflexivity|].
    split; [discriminate|]. repeat split; done.
  - (* a scalar *)
    unfold bind, raise. exists (Raise TypeError), st. split; [reflexivity|].
    split; [discriminate|]. repeat split; done.
  - exists (Ret tt), st. split; [reflexivity|]. split; [discriminate|]. repeat split; done.
Qed.

(** The two handlers of [process_response] only log. *)
Lemma handlers_log blocks (e : exn) st :
  exists st',
    match e with
    | JSONDecodeError =>
        logger_error (ErrorProcessingResponse e) ;;
        logger_error (RawResponseText (first_text blocks))
    | _ =>
        logger_error (UnexpectedError e) ;;
        logger_error (RawResponse blocks)
    end st = (Ret tt, st')
    /\ only_logged st st'.
Proof. destruct e; eexists; (split; [reflexivity|]); repeat split. Qed.

Lemma process_response_spec blocks original_texts st :
  exists st',
    process_response disk json_loads blocks original_texts st = (Ret tt, st')
    /\ translated st' = merged_translated (parsed_response json_loads blocks) (translated st)
    /\ glossary st' = merged_glossary disk (parsed_response json_loads blocks) st
    /\ target_length st' = target_length st
    /\ calls st' = calls st /\ sleeps st' = sleeps st
    /\ (forall path : string,
          path <> translations_json -> path <> with_suffix translations_json ".tmp" ->
          path <> glossary_json -> path <> with_suffix glossary_json ".tmp" ->
          files st' !! path = files st !! path)
    /\ files st' !! translations_json
       = match parsed_response json_loads blocks with
         | Some (JObject r) =>
             match result r, disk (saves st) with
             | Some (Mapping res), NoFault =>
                 Some (JsonText (dict_update (translated st) res))
             | _, _ => files st !! translations_json
             end
         | _ => files st !! translations_json
         end.
Proof.
  unfold parsed_response.
  destruct (first_text blocks) as [|c text] eqn:Hfirst.
  - (* an empty text *)
    unfold process_response. rewrite Hfirst. eexists. split; [reflexivity|].
    repeat split; reflexivity.
  - destruct (json_loads (c :: text)) as [[r|quiet]|] eqn:Hjson.
    + (* an object *)
      unfold process_response. rewrite Hfirst.
      unfold try_except, bind at 1, logger_info at 1, modify at 1. rewrite Hjson.
      unfold bind at 1, ret at 1.
      set (st0 := add_log _ st).
      destruct (merge_result_run (result r) st0)
        as (st1 & H1 & Ht1 & Hg1 & Htl1 & Hc1 & Hsl1 & Ho1 & Hf1).
      change (save_raises disk translations_json st0)
        with (save_raises disk translations_json st) in H1.
      change (translated st0) with (translated st) in Ht1, Hf1.
      change (glossary st0) with (glossary st) in Hg1.
      change (target_length st0) with (target_length st) in Htl1.
      change (calls st0) with (calls st) in Hc1.
      change (sleeps st0) with (sleeps st) in Hsl1.
      change (files st0) with (files st) in Ho1, Hf1.
      change (saves st0) with (saves st) in Hf1.
      unfold bind at 1. rewrite H1.
      cbn [merged_translated merged_glossary].
      assert (forall e s,
                 exists st',
                   match e with
                   | JSONDecodeError =>
                       logger_error (ErrorProcessingResponse e) ;;
                       logger_error (RawResponseText (c :: text))
                   | _ =>
                       logger_error (UnexpectedError e) ;;
                       logger_error (RawResponse blocks)
                   end s = (Ret tt, st')
                   /\ only_logged s st') as Hcaught.
      { intros e s. pose proof (handlers_log blocks e s) as H. now rewrite Hfirst in H. }
      assert ((result_block_raises disk r st = true
               /\ exists e,
                    match result r with
                    | None => Ret tt
                    | Some (Mapping _) =>
                        if save_raises disk translations_json st then Raise OSError
                        else Ret tt
                    | Some _ => Raise TypeError
                    end = Raise e)
              \/ (result_block_raises disk r st = false
                  /\ match result r with
                     | None => Ret tt
                     | Some (Mapping _) =>
                         if save_raises disk translations_json st then Raise OSError
                         else Ret tt
                     | Some _ => Raise TypeError
                     end = Ret tt)) as [[Hraises [e ->]]|[Hraises ->]].
      { unfold result_block_raises.
        destruct (result r) as [[res|res|]|];
          [destruct (save_raises disk translations_json st)|..];
          first [ left; split; [reflexivity|now eexists] | right; split; reflexivity ]. }
      * (* the result block raises *)
        destruct (Hcaught e st1) as (st' & -> & Hg & Ht & Htl & Hf & Hc & _ & Hsl).
        exists st'. split; [reflexivity|]. rewrite Hraises.
        rewrite Hg, Ht, Htl, Hf, Hc, Hsl. repeat split; try assumption.
        intros path Hp1 Hp2 _ _. now apply Ho1.
      * (* the result block returns *)
        destruct (merge_terms_run (new_terms r) st1)
          as (o2 & st2 & H2 & Hnt & Hg2 & Ht2 & Htl2 & Hc2 & Hsl2 & Ho2).
        unfold bind at 1. rewrite H2.
        assert (exists st',
                   (let (o, st'0) :=
                      match o2 with
                      | Ret _ =>
                          match comment r with
                          | Some c0 => logger_info (TranslationComment c0)
                          | None => ret tt
                          end st2
                      | Raise e => (Raise e, st2)
                      | Timeout => (Timeout, st2)
                      end in
                    match o with
                    | Ret a => (Ret a, st'0)
                    | Raise e =>
                        match e with
                        | JSONDecodeError =>
                            logger_error (ErrorProcessingResponse e) ;;
                            logger_error (RawResponseText (c :: text))
                        | _ =>
                            logger_error (UnexpectedError e) ;;
                            logger_error (RawResponse blocks)
                        end st'0
                    | Timeout => (Timeout, st'0)
                    end) = (Ret tt, st')
                   /\ only_logged st2 st') as (st' & -> & Hg & Ht & Htl & Hf & Hc & _ & Hsl).
        { destruct o2 as [[]|e|]; [|apply Hcaught|done].
          destruct (comment r); eexists; (split; [reflexivity|]); repeat split. }
        exists st'. split; [reflexivity|]. rewrite Hraises.
        rewrite Hg, Ht, Htl, Hf, Hc, Hsl, Hg2, Ht2, Htl2, Hc2, Hsl2, Hg1.
        repeat split; try assumption.
        -- intros path Hp1 Hp2 Hp3 Hp4. now rewrite Ho2, Ho1.
        -- rewrite Ho2 by (vm_compute; discriminate). rewrite Hf1.
           now destruct (result r) as [[| |]|], (disk (saves st)).
    + (* a value that is no object *)
      unfold process_response. rewrite Hfirst.
      unfold try_except, bind at 1, logger_info at 1, modify at 1. rewrite Hjson.
      unfold bind at 1, ret at 1.
      destruct quiet; eexists; (split; [reflexivity|]); repeat split; reflexivity.
    + (* a text that does not parse *)
      rewrite process_response_unparseable by (rewrite Hfirst; done).
      eexists. split; [reflexivity|]. repeat split; reflexivity.
Qed.

(** X16: [process_response] always returns normally: an empty answer, a
    text that does not parse, an answer that is no object, a field that is
    no mapping and a save that raises are all absorbed.  It leaves the
    budget, the calls and the pauses alone.  In memory it merges the entries
    [update] takes from the result, and then those it takes from the new
    terms, unless the result block has ended in an exception before: the
    result is no mapping, or the save that follows its merge raises from
    its clean-up. *)
Theorem process_response_always_returns blocks original_texts st :
  exists st',
    process_response disk json_loads blocks original_texts st = (Ret tt, st')
    /\ translated st'
       = match parsed_response json_loads blocks with
         | Some (JObject r) => dict_update (translated st) (entries_of (result r))
         | _ => translated st
         end
    /\ glossary st'
       = match parsed_response json_loads blocks with
         | Some (JObject r) =>
             if result_block_raises disk r st then glossary st
             else dict_update (glossary st) (entries_of (new_terms r))
         | _ => glossary st
         end
    /\ target_length st' = target_length st
    /\ calls st' = calls st /\ sleeps st' = sleeps st.
Proof.
  destruct (process_response_spec blocks original_texts st)
    as (st' & Hrun & Ht & Hg & Htl & Hc & Hsl & _).
  exists st'. split; [exact Hrun|].
  split; [rewrite Ht; now destruct (parsed_response json_loads blocks) as [[|]|]|].
  split; [rewrite Hg; now destruct (parsed_response json_loads blocks) as [[|]|]|].
  repeat split; assumption.
Qed.

(** X17: a merged result overrides: after [process_response] an id of the
    result maps to its new translation, and every other id maps to what it
    mapped to before. *)
Theorem merged_result_overrides blocks original_texts st r res (k : str) :
  parsed_response json_loads blocks = Some (JObject r) ->
  result r = Some (Mapping res) ->
  List.NoDup (keys res) ->
  dict_get k (translated (snd (process_response disk json_loads blocks original_texts st)))
  = match dict_get k res with
    | Some v => Some v
    | None => dict_get k (translated st)
    end.
Proof.
  intros Hp Hr Hnd.
  destruct (process_response_spec blocks original_texts st) as (st' & Hrun & Ht & _).
  rewrite Hrun. cbn [snd]. rewrite Ht, Hp. cbn [merged_translated]. rewrite Hr.
  now apply dict_get_update.
Qed.


(** X19: among the data files of the save directory [process_response]
    touches only [translations.json], [glossary.json] and their temporary
    files; [translation.log] is the one other file it writes, through the
    logger. *)
Theorem process_response_touches_only_its_files blocks original_texts st (path : string) :
  path <> translations_json -> path <> with_suffix translations_json ".tmp" ->
  path <> glossary_json -> path <> with_suffix glossary_json ".tmp" ->
  path <> translation_log ->
  files (snd (process_response disk json_loads blocks original_texts st)) !! path
  = files st !! path.
Proof.
  intros H1 H2 H3 H4 _.
  destruct (process_response_spec blocks original_texts st)
    as (st' & Hrun & _ & _ & _ & _ & _ & Hother & _).
  rewrite Hrun. cbn [snd]. now apply Hother.
Qed.

End ProcessResponse.

Lemma merged_result_overrides_witness :
  (parsed_response (parses_to full_answer) braces = Some (JObject full_answer)
   /\ result full_answer = Some (Mapping two_translations)
   /\ List.NoDup (keys two_translations))
  /\ dict_get [65%N]
       (translated (snd (process_response sound_disk (parses_to full_answer) braces
                           two_fragments (init [] old_translations ∅))))
     = Some [0xC548; 0xB155]%N.
Proof.
  assert (List.NoDup (keys two_translations)) as Hnd
    by (repeat constructor; cbn; intuition discriminate).
  split; [split; [reflexivity|split; [reflexivity|exact Hnd]]|].
  exact (merged_result_overrides sound_disk (parses_to full_answer) braces two_fragments
           (init [] old_translations ∅) full_answer two_translations [65%N]
           eq_refl eq_refl Hnd).
Defined.


Lemma process_response_touches_only_its_files_witness :
  (failed_translations_json <> translations_json
   /\ failed_translations_json <> with_suffix translations_json ".tmp"
   /\ failed_translations_json <> glossary_json
   /\ failed_translations_json <> with_suffix glossary_json ".tmp"
   /\ failed_translations_json <> translation_log)
  /\ files (snd (process_response stuck_disk (parses_to full_answer) braces two_fragments
                   (init [] [] failed_directory))) !! failed_translations_json
     = files (init [] [] failed_directory) !! failed_translations_json.
Proof.
  assert (failed_translations_json <> translations_json) as H1 by (vm_compute; discriminate).
  assert (failed_translations_json <> with_suffix translations_json ".tmp") as H2
    by (vm_compute; discriminate).
  assert (failed_translations_json <> glossary_json) as H3 by (vm_compute; discriminate).
  assert (failed_translations_json <> with_suffix glossary_json ".tmp") as H4
    by (vm_compute; discriminate).
  assert (failed_translations_json <> translation_log) as H5 by (vm_compute; discriminate).
  split; [repeat split; assumption|].
  exact (process_response_touches_only_its_files stuck_disk (parses_to full_answer) braces
           two_fragments (init [] [] failed_directory) failed_translations_json
           H1 H2 H3 H4 H5).
Defined.

(** ** A pass of the retry loop *)

Section Passes.
Variable backend : nat -> request -> api_result.
Variable disk : nat -> fault.
Variable json_loads : str -> option json.

(** A call that is answered, with whatever text, ends the pass by [break]. *)
Lemma attempt_answered all_texts request_data original_chunk retry_count blocks st :
  backend (length (calls st)) request_data = ApiContent blocks ->
  all_texts <> [] ->
  exists st',
    attempt backend disk json_loads all_texts request_data original_chunk retry_count st
    = (Ret (Break (not_in (translated st') all_texts)), st')
    /\ translated st' = merged_translated (parsed_response json_loads blocks) (translated st)
    /\ glossary st' = merged_glossary disk (parsed_response json_loads blocks) st
    /\ calls st' = calls st ++ [request_data]
    /\ target_length st' = adjust true (target_length st)
    /\ sleeps st' = sleeps st ++ [1].
Proof.
  intros Hb Htexts. unfold attempt, messages_create, logger_info.
  unfold try_except, bind at 1 2 3 4 5 6, gets, modify.
  cbn [calls add_log]. rewrite Hb. unfold ret at 1.
  set (st0 := add_log _ (add_call _ _)).
  destruct (process_response_spec disk json_loads blocks original_chunk st0)
    as (st1 & Hrun & Ht & Hg & Htl & Hc & Hsl & _).
  change (merged_glossary disk (parsed_response json_loads blocks) st0)
    with (merged_glossary disk (parsed_response json_loads blocks) st) in Hg.
  rewrite Hrun. unfold bind at 1. rewrite adjust_chunk_size_run.
  assert ((len all_texts =? 0) = false) as ->.
  { apply Z.eqb_neq. destruct all_texts; [done|]. unfold len. cbn. lia. }
  unfold sleep, logger_info. run_io.
  match goal with |- exists st', (_, ?s) = _ /\ _ => exists s end.
  run_io. split; [reflexivity|].
  rewrite Ht, Hg, Htl, Hc, Hsl. repeat split; reflexivity.
Qed.

Lemma retry_loop_answered fuel all_texts request_data original_chunk remaining retry_count
    blocks st :
  retry_count < max_retries ->
  backend (length (calls st)) request_data = ApiContent blocks ->
  all_texts <> [] ->
  exists st',
    retry_loop backend disk json_loads (S fuel) all_texts request_data original_chunk
      remaining retry_count st
    = (Ret (not_in (translated st') all_texts), st')
    /\ translated st' = merged_translated (parsed_response json_loads blocks) (translated st)
    /\ glossary st' = merged_glossary disk (parsed_response json_loads blocks) st
    /\ calls st' = calls st ++ [request_data]
    /\ target_length st' = adjust true (target_length st)
    /\ sleeps st' = sleeps st ++ [1].
Proof.
  intros Hlt Hb Htexts. cbn [retry_loop].
  destruct (Z.ltb_spec retry_count max_retries) as [_|]; [|lia].
  destruct (attempt_answered all_texts request_data original_chunk retry_count blocks st
              Hb Htexts) as (st' & Hrun & Hrest).
  exists st'. unfold bind. rewrite Hrun. split; [reflexivity|exact Hrest].
Qed.

(** X7: a backend call that is answered ends the retry loop at once,
    whatever the answer and whatever the disk does: the pass takes the
    success adjustment and the pause of 1 and hands back the texts that are
    still untranslated.  What was merged is what [process_response] merges:
    the entries [update] takes from the result of an answer that is an
    object, and then those it takes from its new terms, unless the result is
    no mapping or the save that follows its merge raises from its
    clean-up. *)
Theorem answered_call_ends_the_retry_loop all_texts request_data original_chunk remaining
    blocks st :
  backend (length (calls st)) request_data = ApiContent blocks ->
  all_texts <> [] ->
  exists st',
    retry_loop backend disk json_loads (Z.to_nat max_retries) all_texts request_data
      original_chunk remaining 0 st
    = (Ret (not_in (translated st') all_texts), st')
    /\ translated st'
       = match parsed_response json_loads blocks with
         | Some (JObject r) => dict_update (translated st) (entries_of (result r))
         | _ => translated st
         end
    /\ glossary st'
       = match parsed_response json_loads blocks with
         | Some (JObject r) =>
             if result_block_raises disk r st then glossary st
             else dict_update (glossary st) (entries_of (new_terms r))
         | _ => glossary st
         end
    /\ calls st' = calls st ++ [request_data]
    /\ target_length st' = adjust true (target_length st)
    /\ sleeps st' = sleeps st ++ [1].
Proof.
  intros Hb Htexts. change (Z.to_nat max_retries) with 3%nat.
  destruct (retry_loop_answered 2 all_texts request_data original_chunk remaining 0 blocks st)
    as (st' & Hrun & Ht & Hg & Hrest); [unfold max_retries; lia|exact Hb|exact Htexts|].
  exists st'. split; [exact Hrun|].
  split; [rewrite Ht; now destruct (parsed_response json_loads blocks) as [[|]|]|].
  split; [rewrite Hg; now destruct (parsed_response json_loads blocks) as [[|]|]|].
  exact Hrest.
Qed.

(** The retry loop ends after one, two or three calls with the same
    request; it returns unless the clean-up of the save that records a
    chunk given up raises. *)
Lemma retry_loop_bounded all_texts request_data original_chunk remaining st :
  all_texts <> [] ->
  exists o st' n,
    retry_loop backend disk json_loads (Z.to_nat max_retries) all_texts request_data
      original_chunk remaining 0 st
    = (o, st')
    /\ calls st' = calls st ++ repeat request_data n
    /\ (1 <= n <= 3)%nat
    /\ (o = Ret remaining
        \/ o = Ret (not_in (translated st') all_texts)
        \/ (o = Raise OSError /\ n = 3%nat
            /\ cleanup_of (disk (saves st)) <> CleanupWorks)).
Proof.
  intros Htexts. change (Z.to_nat max_retries) with 3%nat.
  destruct (backend (length (calls st)) request_data) as [|blocks0] eqn:B0.
  - destruct (backend (S (length (calls st))) request_data) as [|blocks1] eqn:B1.
    + destruct (backend (S (S (length (calls st)))) request_data) as [|blocks2] eqn:B2.
      * destruct (retry_loop_exhausted backend disk json_loads all_texts request_data
                    original_chunk remaining st) as (st' & Hrun & Hc & _).
        { intros k Hk. destruct k as [|[|[|k]]]; [| | |lia].
          - now rewrite Nat.add_0_r.
          - now rewrite Nat.add_1_r.
          - now replace (length (calls st) + 2)%nat with (S (S (length (calls st)))) by lia. }
        change (Z.to_nat max_retries) with 3%nat in Hrun.
        eexists _, st', 3%nat. split; [exact Hrun|]. split; [exact Hc|]. split; [lia|].
        unfold save_raises. destruct (cleanup_raises _ _) eqn:Hr; [|now left].
        right. right. split; [reflexivity|]. split; [reflexivity|].
        intros Hcl. now rewrite (cleanup_works_returns _ _ Hcl) in Hr.
      * rewrite retry_loop_backoff by (done || (unfold max_retries; lia)).
        set (st1 := add_sleep _ _).
        rewrite retry_loop_backoff;
          [|unfold max_retries; lia|unfold max_retries; lia
           |change (calls st1) with (calls st ++ [request_data]);
            rewrite length_app, Nat.add_1_r; exact B1].
        set (st2 := add_sleep _ _).
        assert (calls st2 = calls st ++ [request_data; request_data]) as Hc2
          by (change (calls st2) with ((calls st ++ [request_data]) ++ [request_data]);
              now rewrite <- app_assoc).
        destruct (retry_loop_answered 0 all_texts request_data original_chunk remaining
                    (0 + 1 + 1) blocks2 st2) as (st' & Hrun & _ & _ & Hc & _);
          [unfold max_retries; lia| |done|].
        { rewrite Hc2, length_app. cbn [length].
          now replace (length (calls st) + 2)%nat with (S (S (length (calls st)))) by lia. }
        eexists _, st', 3%nat. split; [exact Hrun|].
        split; [now rewrite Hc, Hc2, <- app_assoc|]. split; [lia|]. right. now left.
    + rewrite retry_loop_backoff by (done || (unfold max_retries; lia)).
      set (st1 := add_sleep _ _).
      assert (calls st1 = calls st ++ [request_data]) as Hc1 by reflexivity.
      destruct (retry_loop_answered 1 all_texts request_data original_chunk remaining
                  (0 + 1) blocks1 st1) as (st' & Hrun & _ & _ & Hc & _);
        [unfold max_retries; lia| |done|].
      { now rewrite Hc1, length_app, Nat.add_1_r. }
      eexists _, st', 2%nat. split; [exact Hrun|].
      split; [now rewrite Hc, Hc1, <- app_assoc|]. split; [lia|]. right. now left.
  - destruct (retry_loop_answered 2 all_texts request_data original_chunk remaining
                0 blocks0 st) as (st' & Hrun & _ & _ & Hc & _);
      [unfold max_retries; lia|done|done|].
    eexists _, st', 1%nat. split; [exact Hrun|].
    split; [exact Hc|]. split; [lia|]. right. now left.
Qed.

(** X8: the retry loop always comes to an end, after one, two or three
    backend calls, and every one of them sends the same request: the payload
    is not rebuilt between retries.  The loop returns, unless the third call
    has failed too and the clean-up of the save that records the chunk
    raises. *)
Theorem retry_loop_sends_one_to_three_times all_texts request_data original_chunk remaining
    st :
  all_texts <> [] ->
  exists o st' n,
    retry_loop backend disk json_loads (Z.to_nat max_retries) all_texts request_data
      original_chunk remaining 0 st
    = (o, st')
    /\ calls st' = calls st ++ repeat request_data n
    /\ (1 <= n <= 3)%nat
    /\ ((exists remaining', o = Ret remaining')
        \/ (o = Raise OSError /\ n = 3%nat))
    /\ (cleanup_of (disk (saves st)) = CleanupWorks -> exists remaining', o = Ret remaining').
Proof.
  intros Htexts.
  destruct (retry_loop_bounded all_texts request_data original_chunk remaining st Htexts)
    as (o & st' & n & Hrun & Hc & Hn & Ho).
  exists o, st', n. split; [exact Hrun|]. split; [exact Hc|]. split; [exact Hn|].
  destruct Ho as [->|[->|(-> & -> & Hcl)]].
  - split; [left|intros _]; now eexists.
  - split; [left|intros _]; now eexists.
  - split; [now right|]. intros Hw. now destruct Hcl.
Qed.

End Passes.

Lemma answered_call_ends_the_retry_loop_witness :
  (oops_backend (length (calls (init [] [] ∅))) (mkRequest [] two_fragments)
   = ApiContent [[0x6F; 0x6F; 0x70; 0x73]%N]
   /\ two_fragments <> [])
  /\ exists st',
       retry_loop oops_backend sound_disk no_json (Z.to_nat max_retries) two_fragments
         (mkRequest [] two_fragments) two_fragments two_fragments 0 (init [] [] ∅)
       = (Ret (not_in (translated st') two_fragments), st')
       /\ calls st' = [mkRequest [] two_fragments]
       /\ sleeps st' = [1].
Proof.
  assert (oops_backend (length (calls (init [] [] ∅))) (mkRequest [] two_fragments)
          = ApiContent [[0x6F; 0x6F; 0x70; 0x73]%N]) as Hb by reflexivity.
  assert (two_fragments <> []) as Hne by discriminate.
  split; [split; assumption|].
  destruct (answered_call_ends_the_retry_loop oops_backend sound_disk no_json two_fragments
              (mkRequest [] two_fragments) two_fragments two_fragments _ (init [] [] ∅)
              Hb Hne) as (st' & Hrun & _ & _ & Hc & _ & Hs).
  exists st'. split; [exact Hrun|]. split; [exact Hc|exact Hs].
Defined.

Lemma retry_loop_sends_one_to_three_times_witness :
  two_fragments <> []
  /\ exists o st' n,
       retry_loop failing_backend stuck_disk no_json (Z.to_nat max_retries) two_fragments
         (mkRequest [] two_fragments) two_fragments two_fragments 0 (init [] [] ∅)
       = (o, st')
       /\ calls st' = repeat (mkRequest [] two_fragments) n
       /\ (1 <= n <= 3)%nat.
Proof.
  assert (two_fragments <> []) as Hne by discriminate.
  split; [exact Hne|].
  destruct (retry_loop_sends_one_to_three_times failing_backend stuck_disk no_json
              two_fragments (mkRequest [] two_fragments) two_fragments two_fragments
              (init [] [] ∅) Hne) as (o & st' & n & Hrun & Hc & Hn & _).
  exists o, st', n. split; [exact Hrun|]. split; [exact Hc|exact Hn].
Defined.

(** ** The shape of a chunk *)

Lemma chunk_length_app (c1 c2 : dict str str) :
  chunk_length (c1 ++ c2) = chunk_length c1 + chunk_length c2.
Proof.
  induction c1 as [|[k v] c1 IH]; cbn [app chunk_length fold_right snd]; [reflexivity|].
  fold (chunk_length (c1 ++ c2)). fold (chunk_length c1). rewrite IH. lia.
Qed.

Lemma not_in_cons_skip (done_ : dict str str) id_ text rest :
  dict_mem id_ done_ = true -> not_in done_ ((id_, text) :: rest) = not_in done_ rest.
Proof. intros Hm. unfold not_in. cbn [List.filter fst]. now rewrite Hm. Qed.

Lemma not_in_cons_keep (done_ : dict str str) id_ text rest :
  dict_mem id_ done_ = false ->
  not_in done_ ((id_, text) :: rest) = (id_, text) :: not_in done_ rest.
Proof. intros Hm. unfold not_in. cbn [List.filter fst]. now rewrite Hm. Qed.

Section ChunkShape.
Variable done_ : dict str str.
Variable target : spec_float.

(** The loop extends the chunk by the untranslated fragments, in order,
    until one of them would overflow the budget. *)
Lemma next_chunk_loop_prefix (items : dict str str) :
  forall (current_chunk : dict str str) (total_length : Z),
    List.NoDup (keys current_chunk ++ keys items) ->
    exists k : nat,
      next_chunk_loop done_ target items current_chunk total_length
      = current_chunk ++ firstn k (not_in done_ items)
      /\ forall id_ text : str,
           nth_error (not_in done_ items) k = Some (id_, text) ->
           int_gt_float
             (total_length + chunk_length (firstn k (not_in done_ items)) + len text) target
           = true.
Proof.
  induction items as [|[id0 text0] rest IH]; intros cur total Hnd; cbn [next_chunk_loop].
  - exists 0%nat. split; [now rewrite app_nil_r|]. intros id_ text Hnth. discriminate.
  - cbn [keys map fst] in Hnd. fold (keys rest) in Hnd.
    destruct (dict_mem id0 done_) eqn:Hm.
    + rewrite not_in_cons_skip by done. apply IH. now apply NoDup_remove_1 in Hnd.
    + rewrite not_in_cons_keep by done.
      destruct (int_gt_float (total + len text0) target) eqn:Hgt.
      * exists 0%nat. split; [now rewrite app_nil_r|].
        intros id_ text [= -> ->]. cbn [firstn chunk_length fold_right].
        now rewrite Z.add_0_r.
      * assert (~ In id0 (keys cur)) as Hfresh.
        { apply NoDup_remove_2 in Hnd. intros Hin. apply Hnd. apply in_or_app. now left. }
        rewrite (dict_set_fresh _ _ _ Hfresh).
        destruct (IH (cur ++ [(id0, text0)]) (total + len text0)) as (k & Hrun & Hmax).
        { unfold keys. rewrite map_app. cbn [map fst]. fold (keys cur). fold (keys rest).
          now rewrite <- app_assoc. }
        exists (S k). split.
        -- rewrite Hrun, <- app_assoc. reflexivity.
        -- intros id_ text Hnth. cbn [nth_error] in Hnth. specialize (Hmax id_ text Hnth).
           cbn [firstn chunk_length fold_right snd].
           fold (chunk_length (firstn k (not_in done_ rest))).
           rewrite <- Hmax. f_equal. lia.
Qed.

End ChunkShape.

Lemma next_chunk_loop_fits (done_ : dict str str) target items :
  next_chunk_loop done_ target items [] 0 <> [] ->
  int_gt_float (chunk_length (next_chunk_loop done_ target items [] 0)) target = false.
Proof.
  intros Hne. destruct (int_gt_float 0 target) eqn:H0.
  - exfalso. apply Hne. clear Hne.
    induction items as [|[k v] rest IH]; cbn [next_chunk_loop]; [done|].
    destruct (dict_mem k done_); [exact IH|].
    destruct (int_gt_float (0 + len v) target) eqn:Hgt; [done|].
    pose proof (len_nonneg v).
    rewrite (int_gt_float_mono (0 + len v) 0) in H0; [discriminate|lia|done].
  - apply next_chunk_loop_length; [cbn; lia|done].
Qed.

(** X9: over a dictionary, the chunk of [create_next_chunk] is a non-empty
    initial run of the untranslated fragments, in their order, and it is the
    longest one within budget: the untranslated fragment that follows the
    chunk, if there is one, would overflow it. *)
Theorem create_next_chunk_takes_longest_prefix remaining st request_data chunk st' :
  List.NoDup (keys remaining) ->
  create_next_chunk remaining st = (Ret (Some (request_data, chunk)), st') ->
  exists k : nat,
    (0 < k)%nat
    /\ chunk = firstn k (not_in (translated st) remaining)
    /\ forall id_ text : str,
         nth_error (not_in (translated st) remaining) k = Some (id_, text) ->
         int_gt_float (chunk_length chunk + len text) (target_length st) = true.
Proof.
  intros Hnd Hc. apply create_next_chunk_some in Hc as (Hchunk & Hne & _).
  destruct (next_chunk_loop_prefix (translated st) (target_length st) remaining [] 0)
    as (k & Hrun & Hmax); [exact Hnd|].
  cbn [app] in Hrun. rewrite Hrun in Hchunk. exists k. split; [|split].
  - destruct k; [|lia]. now subst chunk.
  - exact Hchunk.
  - intros id_ text Hnth. specialize (Hmax id_ text Hnth).
    rewrite Z.add_0_l in Hmax. now rewrite Hchunk.
Qed.

Lemma create_next_chunk_takes_longest_prefix_witness :
  (List.NoDup (keys two_fragments)
   /\ create_next_chunk two_fragments (init [] old_translations ∅)
      = (Ret (Some (mkRequest [] [([66%N], [0x4E16; 0x754C]%N)],
                    [([66%N], [0x4E16; 0x754C]%N)])),
         snd (create_next_chunk two_fragments (init [] old_translations ∅))))
  /\ exists k : nat,
       (0 < k)%nat
       /\ [([66%N], [0x4E16; 0x754C]%N)]
          = firstn k (not_in (translated (init [] old_translations ∅)) two_fragments).
Proof.
  assert (List.NoDup (keys two_fragments)) as Hnd
    by (repeat constructor; cbn; intuition discriminate).
  assert (create_next_chunk two_fragments (init [] old_translations ∅)
          = (Ret (Some (mkRequest [] [([66%N], [0x4E16; 0x754C]%N)],
                        [([66%N], [0x4E16; 0x754C]%N)])),
             snd (create_next_chunk two_fragments (init [] old_translations ∅)))) as Hrun
    by (vm_compute; reflexivity).
  split; [split; assumption|].
  destruct (create_next_chunk_takes_longest_prefix _ _ _ _ _ Hnd Hrun) as (k & Hk & Hchunk & _).
  exists k. split; assumption.
Defined.

(** X10: over a dictionary, [create_next_chunk] returns no chunk exactly
    when nothing is left untranslated or when the first untranslated
    fragment alone exceeds the budget; later fragments that would fit are
    not looked at. *)
Theorem create_next_chunk_returns_none_iff remaining st :
  List.NoDup (keys remaining) ->
  fst (create_next_chunk remaining st) = Ret None
  <-> match not_in (translated st) remaining with
      | [] => True
      | (id_, text) :: _ => int_gt_float (len text) (target_length st) = true
      end.
Proof.
  intros Hnd.
  destruct (next_chunk_loop_prefix (translated st) (target_length st) remaining [] 0)
    as (k & Hrun & Hmax); [exact Hnd|].
  cbn [app] in Hrun.
  destruct (next_chunk_loop (translated st) (target_length st) remaining [] 0)
    as [|kv chunk] eqn:Hloop.
  - rewrite create_next_chunk_none by exact Hloop. cbn [fst]. split; [intros _|done].
    destruct (not_in (translated st) remaining) as [|[id_ text] rest]; [done|].
    destruct k; [|discriminate]. specialize (Hmax id_ text eq_refl).
    cbn [firstn chunk_length fold_right] in Hmax. now rewrite !Z.add_0_l in Hmax.
  - destruct (create_next_chunk_nonempty remaining st) as (terms & Hsome);
      [rewrite Hloop; discriminate|].
    rewrite Hsome. cbn [fst]. split; [discriminate|].
    destruct (not_in (translated st) remaining) as [|[id_ text] rest]; [now destruct k|].
    intros Hgt. exfalso.
    pose proof (next_chunk_loop_fits (translated st) (target_length st) remaining) as Hfit.
    rewrite Hloop in Hfit. specialize (Hfit ltac:(discriminate)).
    destruct k; [discriminate|]. cbn [firstn] in Hrun.
    assert (In (id_, text) (kv :: chunk)) as Hin by (rewrite Hrun; now left).
    apply chunk_length_In in Hin.
    rewrite (int_gt_float_mono _ _ _ Hin Hfit) in Hgt. discriminate.
Qed.

Lemma create_next_chunk_returns_none_iff_witness :
  List.NoDup (keys oversized_fragment)
  /\ (fst (create_next_chunk oversized_fragment (init [] [] ∅)) = Ret None
      <-> int_gt_float (len (repeat 0x4F60%N 1001)) (float_of_int 1000) = true).
Proof.
  assert (List.NoDup (keys oversized_fragment)) as Hnd
    by (repeat constructor; cbn; intuition discriminate).
  split; [exact Hnd|].
  exact (create_next_chunk_returns_none_iff oversized_fragment (init [] [] ∅) Hnd).
Defined.

(** ** All chunks at once *)

Lemma prepare_request_spec chunk st :
  exists terms,
    prepare_request chunk st
    = (Ret (mkRequest terms chunk, chunk),
       add_log (INFO, FullRequestData (mkRequest terms chunk))
         (add_log (INFO, PreparingRequest (len terms)) st)).
Proof.
  destruct (prepare_request_total chunk st) as (terms & Hsel & _).
  exists terms. now apply prepare_request_run.
Qed.

Lemma create_chunk_loop_spec (items : dict str str) :
  forall (chunks : list (request * dict str str)) (current_chunk : dict str str)
         (current_length : Z) (st : state),
    List.NoDup (keys current_chunk ++ keys items) ->
    current_length = chunk_length current_chunk ->
    current_chunk = [] \/ well_sized (target_length st) current_chunk ->
    exists new st',
      create_chunk_loop items chunks current_chunk current_length st
      = (Ret (chunks ++ new), st')
      /\ translated st' = translated st /\ target_length st' = target_length st
      /\ glossary st' = glossary st /\ files st' = files st /\ calls st' = calls st
      /\ concat (map snd new) = current_chunk ++ not_in (translated st) items
      /\ List.Forall
           (fun rc => snd rc <> [] /\ request_texts (fst rc) = snd rc
                      /\ well_sized (target_length st) (snd rc)) new.
Proof.
  induction items as [|[id0 text0] rest IH]; intros chunks cur clen st Hnd Hlen Hsize;
    cbn [create_chunk_loop].
  - destruct cur as [|kv cur].
    + exists [], st. rewrite app_nil_r. repeat split; constructor.
    + destruct (prepare_request_spec (kv :: cur) st) as (terms & Hrun).
      unfold bind. rewrite Hrun. eexists [_], _. split; [reflexivity|].
      cbn [translated target_length glossary files calls add_log map snd fst concat
           request_texts].
      rewrite !app_nil_r. repeat split; try reflexivity.
      constructor; [|constructor]. cbn [fst snd request_texts].
      split; [discriminate|]. split; [reflexivity|].
      destruct Hsize as [|Hsize]; [discriminate|exact Hsize].
  - cbn [keys map fst] in Hnd. fold (keys rest) in Hnd.
    unfold bind at 1, gets at 1.
    destruct (dict_mem id0 (translated st)) eqn:Hm.
    + rewrite not_in_cons_skip by done.
      apply IH; [now apply NoDup_remove_1 in Hnd|done|done].
    + rewrite not_in_cons_keep by done.
      unfold bind at 1, gets at 1.
      destruct (int_gt_float (clen + len text0) (target_length st)
                && negb (bool_decide (cur = []))) eqn:Hcond.
      * (* the chunk is closed before the fragment *)
        apply andb_true_iff in Hcond as [Hgt Hne].
        apply negb_true_iff, bool_decide_eq_false in Hne.
        destruct (prepare_request_spec cur st) as (terms & Hrun).
        unfold bind at 1. rewrite Hrun.
        set (st1 := add_log _ (add_log _ st)).
        destruct (IH (chunks ++ [(mkRequest terms cur, cur)]) (dict_set id0 text0 [])
                    (0 + len text0) st1) as (new & st' & Hloop & Ht & Htl & Hg & Hf & Hc
                                             & Hcat & Hall).
        { cbn [dict_set keys map fst app].
          apply NoDup_remove_1 in Hnd as Hnd1. apply NoDup_remove_2 in Hnd as Hnd2.
          constructor.
          - intros Hin. apply Hnd2. apply in_or_app. now right.
          - now apply NoDup_app_remove_l in Hnd1. }
        { cbn [dict_set chunk_length fold_right snd]. lia. }
        { right. right. reflexivity. }
        exists ((mkRequest terms cur, cur) :: new), st'.
        rewrite Hloop, <- app_assoc. split; [reflexivity|].
        rewrite Ht, Htl, Hg, Hf, Hc.
        change (translated st1) with (translated st) in Hcat.
        change (target_length st1) with (target_length st) in Hall.
        repeat split; try reflexivity.
        -- cbn [map snd concat]. rewrite Hcat. reflexivity.
        -- constructor; [|exact Hall]. cbn [fst snd request_texts].
           split; [exact Hne|]. split; [reflexivity|].
           destruct Hsize as [|Hsize]; [done|exact Hsize].
      * (* the fragment joins the chunk *)
        assert (~ In id0 (keys cur)) as Hfresh.
        { apply NoDup_remove_2 in Hnd. intros Hin. apply Hnd. apply in_or_app. now left. }
        rewrite (dict_set_fresh _ _ _ Hfresh).
        destruct (IH chunks (cur ++ [(id0, text0)]) (clen + len text0) st)
          as (new & st' & Hloop & Hrest).
        { unfold keys. rewrite map_app. cbn [map fst]. fold (keys cur). fold (keys rest).
          now rewrite <- app_assoc. }
        { rewrite chunk_length_app, Hlen. cbn [chunk_length fold_right snd]. lia. }
        { right. apply andb_false_iff in Hcond as [Hfit|Hempty].
          - left. rewrite chunk_length_app, <- Hlen. cbn [chunk_length fold_right snd].
            now rewrite Z.add_0_r.
          - apply negb_false_iff, bool_decide_eq_true in Hempty. subst cur. now right. }
        exists new, st'. rewrite Hloop. split; [reflexivity|].
        rewrite <- app_assoc in Hrest. exact Hrest.
Qed.

(** X11: over a dictionary, [create_chunk] returns chunks that, laid end
    to end, are exactly the untranslated fragments in their order: none is
    lost, repeated or moved.  No chunk is empty, each request carries its
    chunk as texts, and nothing but the log is changed. *)
Theorem create_chunk_partitions_the_untranslated all_texts st :
  List.NoDup (keys all_texts) ->
  exists chunks st',
    create_chunk all_texts st = (Ret chunks, st')
    /\ concat (map snd chunks) = not_in (translated st) all_texts
    /\ List.Forall (fun rc => snd rc <> [] /\ request_texts (fst rc) = snd rc) chunks
    /\ translated st' = translated st /\ glossary st' = glossary st
    /\ target_length st' = target_length st /\ files st' = files st
    /\ calls st' = calls st.
Proof.
  intros Hnd.
  destruct (create_chunk_loop_spec all_texts [] [] 0 st)
    as (new & st' & Hloop & Ht & Htl & Hg & Hf & Hc & Hcat & Hall);
    [exact Hnd|reflexivity|now left|].
  exists new, st'. split; [exact Hloop|]. split; [exact Hcat|].
  split; [|repeat split; assumption].
  eapply List.Forall_impl; [|exact Hall]. intros rc (H1 & H2 & _). now split.
Qed.

Lemma create_chunk_partitions_the_untranslated_witness :
  List.NoDup (keys two_fragments)
  /\ exists chunks st',
       create_chunk two_fragments (init [] old_translations ∅) = (Ret chunks, st')
       /\ concat (map snd chunks) = [([66%N], [0x4E16; 0x754C]%N)].
Proof.
  assert (List.NoDup (keys two_fragments)) as Hnd
    by (repeat constructor; cbn; intuition discriminate).
  split; [exact Hnd|].
  destruct (create_chunk_partitions_the_untranslated two_fragments
              (init [] old_translations ∅) Hnd) as (chunks & st' & Hrun & Hcat & _).
  exists chunks, st'. split; [exact Hrun|exact Hcat].
Defined.

(** X12: over a dictionary, every chunk of [create_chunk] is within the
    budget unless it consists of a single fragment. *)
Theorem create_chunk_sizes all_texts st :
  List.NoDup (keys all_texts) ->
  exists chunks st',
    create_chunk all_texts st = (Ret chunks, st')
    /\ List.Forall
         (fun rc =>
            int_gt_float (chunk_length (snd rc)) (target_length st) = false
            \/ length (snd rc) = 1%nat) chunks.
Proof.
  intros Hnd.
  destruct (create_chunk_loop_spec all_texts [] [] 0 st)
    as (new & st' & Hloop & _ & _ & _ & _ & _ & _ & Hall);
    [exact Hnd|reflexivity|now left|].
  exists new, st'. split; [exact Hloop|].
  eapply List.Forall_impl; [|exact Hall]. intros rc (_ & _ & H). exact H.
Qed.

Lemma create_chunk_sizes_witness :
  List.NoDup (keys oversized_fragment)
  /\ exists chunks st',
       create_chunk oversized_fragment (init [] [] ∅) = (Ret chunks, st')
       /\ List.Forall
            (fun rc =>
               int_gt_float (chunk_length (snd rc)) (float_of_int 1000) = false
               \/ length (snd rc) = 1%nat) chunks.
Proof.
  assert (List.NoDup (keys oversized_fragment)) as Hnd
    by (repeat constructor; cbn; intuition discriminate).
  split; [exact Hnd|].
  exact (create_chunk_sizes oversized_fragment (init [] [] ∅) Hnd).
Defined.

(** ** More on the term selector *)

Lemma keys_dict_set_present (k v : str) (d : dict str str) :
  In k (keys d) -> keys (dict_set k v d) = keys d.
Proof.
  induction d as [|[k0 v0] d IH]; cbn [keys map fst In dict_set]; [done|].
  fold (keys d). intros Hin.
  destruct (decide (k = k0)) as [->|Hne]; cbn [keys map fst]; [reflexivity|].
  fold (keys (dict_set k v d)). f_equal. apply IH. destruct Hin; [congruence|done].
Qed.

Lemma keys_dict_set_fresh (k v : str) (d : dict str str) :
  ~ In k (keys d) -> keys (dict_set k v d) = keys d ++ [k].
Proof.
  intros Hn. rewrite dict_set_fresh by done. unfold keys. now rewrite map_app.
Qed.

Lemma StronglySorted_remove {A : Type} (R : A -> A -> Prop) (l1 l2 : list A) (x : A) :
  StronglySorted R (l1 ++ x :: l2) -> StronglySorted R (l1 ++ l2).
Proof.
  induction l1 as [|y l1 IH]; cbn [app]; intros Hs.
  - now apply StronglySorted_inv in Hs.
  - apply StronglySorted_inv in Hs as [Hs Hy]. constructor; [now apply IH|].
    rewrite List.Forall_forall in *. intros z Hz. apply Hy.
    apply in_app_or in Hz as [Hz|Hz]; apply in_or_app; [now left|right; now right].
Qed.

Lemma select_terms_keys_sorted (g chunk : dict str str) (sorted_terms : list str) :
  forall acc r : dict str str,
    StronglySorted longer_first (keys acc ++ sorted_terms) ->
    select_terms g chunk sorted_terms acc = Ret r ->
    StronglySorted longer_first (keys r).
Proof.
  induction sorted_terms as [|x rest IH]; intros acc r Hs; cbn [select_terms].
  - intros [= <-]. now rewrite app_nil_r in Hs.
  - pose proof (StronglySorted_remove _ _ _ _ Hs) as Hs'.
    destruct (existsb (fun text => str_in x text) (values chunk)); [|now apply IH].
    destruct (negb (is_subprocess x (keys acc))); [|now apply IH].
    destruct (dict_get x g) as [v|]; [|discriminate].
    apply IH. destruct (dict_mem x acc) eqn:Hmem.
    + apply dict_mem_keys in Hmem. now rewrite keys_dict_set_present.
    + assert (~ In x (keys acc)) as Hout by (rewrite <- dict_mem_keys, Hmem; discriminate).
      rewrite keys_dict_set_fresh by done. now rewrite <- app_assoc.
Qed.

(** X13: the terms dictionary of a request lists its terms longest
    first. *)
Theorem prepare_request_lists_longest_first chunk st :
  exists terms st',
    prepare_request chunk st = (Ret (mkRequest terms chunk, chunk), st')
    /\ StronglySorted (fun a b : str => len b <= len a) (keys terms).
Proof.
  destruct (prepare_request_total chunk st) as (terms & Hsel & _).
  exists terms. eexists. split; [now apply prepare_request_run|].
  apply (select_terms_keys_sorted _ _ _ [] terms) in Hsel; [exact Hsel|].
  apply sorted_by_len_desc_sorted.
Qed.

(** X14: no glossary term that occurs in the chunk goes unrepresented: it
    is in the terms dictionary itself, or it is part of a different term
    that is. *)
Theorem prepare_request_covers_every_occurring_term chunk st :
  exists terms st',
    prepare_request chunk st = (Ret (mkRequest terms chunk, chunk), st')
    /\ forall term : str,
         In term (keys (glossary st)) ->
         (exists text, In text (values chunk) /\ substring term text) ->
         In term (keys terms)
         \/ exists long_term,
              In long_term (keys terms) /\ term <> long_term /\ substring term long_term.
Proof.
  destruct (prepare_request_total chunk st) as (terms & Hsel & Hspec).
  exists terms. eexists. split; [now apply prepare_request_run|].
  intros term Hin Hocc.
  destruct (is_subprocess term (keys terms)) eqn:Hsub.
  - right. now apply is_subprocess_spec.
  - left. apply dict_get_keys in Hin as [v Hv]. apply dict_get_keys. exists v.
    apply Hspec. split; [exact Hv|]. split; [exact Hocc|].
    now apply is_subprocess_uncovered.
Qed.

(** ** The direction of an adjustment *)

Lemma adjust_success_grows t : bounds_form t -> SFleb t (adjust true t) = true.
Proof.
  intros (m & e & -> & Hd & He).
  unfold adjust, float_1_2, float_mul, SFmul, py_min. cbn [xorb].
  rewrite float_of_int_2400.
  assert (Z.pos (digits2_pos 5404319552844595) = 53) as Hc by (vm_compute; reflexivity).
  pose proof (mul_digits m _ Hd Hc) as HD.
  destruct (binary_round_aux_spec false (m * 5404319552844595) (e + -52))
    as (m' & e' & -> & Hd' & Hcase); [lia ..|].
  destruct (SFltb _ (S754_finite false m' e')) eqn:Hlt; apply SFleb_pos; [lia|].
  assert (Z.pos m <= Z.pos (m * 5404319552844595) / 4503599627370496) as Hq
    by (apply Z.div_le_lower_bound; lia).
  destruct HD as [HD|HD]; rewrite HD in *;
    change (2 ^ (105 - 53)) with 4503599627370496 in *; lia.
Qed.

Lemma adjust_failure_shrinks t : bounds_form t -> SFleb (adjust false t) t = true.
Proof.
  intros (m & e & -> & Hd & He).
  unfold adjust, float_0_8, float_mul, SFmul, py_max. cbn [xorb].
  rewrite float_of_int_1200.
  assert (Z.pos (digits2_pos 7205759403792794) = 53) as Hc by (vm_compute; reflexivity).
  pose proof (mul_digits m _ Hd Hc) as HD.
  pose proof (digits2_pos_bounds m) as Hm. rewrite Hd in Hm.
  change (2 ^ (53 - 1)) with 4503599627370496 in Hm.
  change (2 ^ 53) with 9007199254740992 in Hm.
  destruct (binary_round_aux_spec false (m * 7205759403792794) (e + -53))
    as (m' & e' & -> & Hd' & Hcase); [lia ..|].
  destruct (SFltb (S754_finite false m' e') _) eqn:Hlt; apply SFleb_pos; [lia|].
  assert (Z.pos (m * 7205759403792794) / 9007199254740992 < Z.pos m) as Hq
    by (apply Z.div_lt_upper_bound; lia).
  destruct HD as [HD|HD]; rewrite HD in *;
    change (2 ^ (105 - 53)) with 4503599627370496 in *;
    change (2 ^ (106 - 53)) with 9007199254740992 in *;
    change (2 ^ 53 - 1) with 9007199254740991 in *;
    change (2 ^ 52) with 4503599627370496 in *; lia.
Qed.

(** X15: within [1200, 2400] a success never lowers the budget and a
    failure never raises it. *)
Theorem adjustment_goes_the_right_way st :
  in_bounds (target_length st) = true ->
  SFleb (target_length st) (target_length (snd (adjust_chunk_size true st))) = true
  /\ SFleb (target_length (snd (adjust_chunk_size false st))) (target_length st) = true.
Proof.
  intros Hin. apply in_bounds_form in Hin. rewrite !adjust_chunk_size_run. cbn [snd].
  cbn [target_length add_log set_target_length].
  split; [now apply adjust_success_grows|now apply adjust_failure_shrinks].
Qed.

Lemma adjustment_goes_the_right_way_witness :
  in_bounds (target_length at_floor) = true
  /\ SFleb (target_length at_floor) (target_length (snd (adjust_chunk_size true at_floor)))
     = true
  /\ SFleb (target_length (snd (adjust_chunk_size false at_floor))) (target_length at_floor)
     = true.
Proof.
  split; [vm_compute; reflexivity|].
  apply (adjustment_goes_the_right_way at_floor). vm_compute. reflexivity.
Defined.

(** ** A run against a cooperative backend *)

Lemma not_in_length_le (done_ done' all_texts : dict str str) :
  (forall id_ : str, In id_ (keys done_) -> In id_ (keys done')) ->
  (length (not_in done' all_texts) <= length (not_in done_ all_texts))%nat.
Proof.
  intros Hsub. unfold not_in.
  induction all_texts as [|[k v] rest IH]; cbn [List.filter fst]; [done|].
  destruct (dict_mem k done') eqn:Hk'; destruct (dict_mem k done_) eqn:Hk;
    cbn [negb length]; try lia.
  apply dict_mem_keys, Hsub, dict_mem_keys in Hk. congruence.
Qed.

Lemma not_in_length_lt (done_ done' all_texts : dict str str) (id_ : str) :
  (forall id_ : str, In id_ (keys done_) -> In id_ (keys done')) ->
  In id_ (keys all_texts) -> ~ In id_ (keys done_) -> In id_ (keys done') ->
  (length (not_in done' all_texts) < length (not_in done_ all_texts))%nat.
Proof.
  intros Hsub Hin Hout Hin'.
  induction all_texts as [|[k v] rest IH]; [done|].
  pose proof (not_in_length_le done_ done' rest Hsub) as Hle.
  unfold not_in in *. cbn [List.filter fst keys map In] in *. fold (keys rest) in Hin.
  destruct (dict_mem k done') eqn:Hk'; destruct (dict_mem k done_) eqn:Hk; cbn [negb length].
  - destruct Hin as [->|Hin]; [|now apply IH]. apply dict_mem_keys in Hk. done.
  - lia.
  - apply dict_mem_keys, Hsub, dict_mem_keys in Hk. congruence.
  - destruct Hin as [->|Hin]; [|specialize (IH Hin); lia].
    apply dict_mem_keys in Hin'. congruence.
Qed.

Lemma dict_set_nonempty (k v : str) (d : dict str str) : dict_set k v d <> [].
Proof. destruct d as [|[k0 v0] d]; cbn [dict_set]; [|destruct (decide (k = k0))]; discriminate. Qed.

Lemma next_chunk_loop_grows (done_ : dict str str) target (items : dict str str) :
  forall (current_chunk : dict str str) (total_length : Z),
    current_chunk <> [] ->
    next_chunk_loop done_ target items current_chunk total_length <> [].
Proof.
  induction items as [|[k v] rest IH]; intros cur total Hne; cbn [next_chunk_loop]; [done|].
  destruct (dict_mem k done_); [now apply IH|].
  destruct (int_gt_float (total + len v) target); [done|].
  apply IH, dict_set_nonempty.
Qed.

Lemma next_chunk_loop_first_fits (done_ : dict str str) target (k v : str) rest :
  dict_mem k done_ = false ->
  int_gt_float (len v) target = false ->
  next_chunk_loop done_ target ((k, v) :: rest) [] 0 <> [].
Proof.
  intros Hk Hfit. cbn [next_chunk_loop]. rewrite Hk, Z.add_0_l, Hfit.
  apply next_chunk_loop_grows, dict_set_nonempty.
Qed.

Lemma budget_fits n t : n <= 1000 -> budget_ok t -> int_gt_float n t = false.
Proof.
  intros Hn [->|Hin]; [now apply initial_budget_fits|apply in_bounds_fits; [lia|done]].
Qed.

Section Cooperative.
Variable backend : nat -> request -> api_result.
Variable disk : nat -> fault.
Variable json_loads : str -> option json.
Variable all_texts : dict str str.
Hypothesis Hcoop : cooperative backend json_loads all_texts.
Hypothesis Hshort : forall id_ text : str, In (id_, text) all_texts -> len text <= 1000.

Lemma chunk_loop_completes (fuel : nat) :
  forall st,
    budget_ok (target_length st) ->
    (length (not_in (translated st) all_texts) <= fuel)%nat ->
    exists st',
      chunk_loop backend disk json_loads fuel all_texts (not_in (translated st) all_texts) st
      = (Ret tt, st')
      /\ not_in (translated st') all_texts = []
      /\ (exists c, calls st' = calls st ++ c
                    /\ (length c <= length (not_in (translated st) all_texts))%nat).
Proof.
  induction fuel as [|fuel IH]; intros st Hb Hlen.
  - destruct (not_in (translated st) all_texts) eqn:Hrem; [|cbn in Hlen; lia].
    exists st. split; [reflexivity|]. split; [exact Hrem|].
    exists []. rewrite app_nil_r. split; [reflexivity|cbn; lia].
  - destruct (not_in (translated st) all_texts) as [|[k v] rest] eqn:Hrem.
    + exists st. split; [reflexivity|]. split; [exact Hrem|].
      exists []. rewrite app_nil_r. split; [reflexivity|cbn; lia].
    + cbn [chunk_loop].
      assert (In (k, v) all_texts /\ dict_mem k (translated st) = false) as [Hin Hk].
      { assert (In (k, v) (not_in (translated st) all_texts)) as H by (rewrite Hrem; now left).
        unfold not_in in H. apply filter_In in H as [H1 H2]. cbn [fst] in H2.
        split; [exact H1|]. now apply negb_true_iff in H2. }
      assert (all_texts <> []) as Hne by (intros ->; destruct Hin).
      assert (forall id_ : str,
                 In id_ (keys ((k, v) :: rest)) ->
                 In id_ (keys all_texts) /\ ~ In id_ (keys (translated st))) as Hrest.
      { intros id_ H. rewrite <- Hrem in H. now apply not_in_keys in H. }
      assert (next_chunk_loop (translated st) (target_length st) ((k, v) :: rest) [] 0 <> [])
        as Hchunk.
      { apply next_chunk_loop_first_fits; [exact Hk|].
        apply budget_fits; [now apply (Hshort k)|exact Hb]. }
      destruct (create_next_chunk_nonempty ((k, v) :: rest) st Hchunk) as (terms & Hc).
      cbv zeta in Hc. unfold bind at 1. rewrite Hc.
      set (chunk := next_chunk_loop (translated st) (target_length st) ((k, v) :: rest) [] 0)
        in *.
      set (st1 := add_log _ (add_log _ st)).
      assert (forall id_ : str,
                 In id_ (keys chunk) ->
                 In id_ (keys all_texts) /\ ~ In id_ (keys (translated st))) as Hkeys.
      { intros id_ H. apply next_chunk_loop_keys in H as [[]|[H _]]. now apply Hrest. }
      destruct (Hcoop (length (calls st1)) (mkRequest terms chunk))
        as (blocks & resp & res & Hbk & Hp & Hr & Hcov).
      { intros id_ H. now apply Hkeys. }
      destruct (retry_loop_answered backend disk json_loads 2 all_texts (mkRequest terms chunk)
                  chunk ((k, v) :: rest) 0 blocks st1)
        as (st2 & Hrun & Ht & _ & Hcalls & Htl & _);
        [unfold max_retries; lia|exact Hbk|exact Hne|].
      change (Z.to_nat max_retries) with 3%nat. unfold bind. rewrite Hrun.
      rewrite Hp in Ht. cbn [merged_translated] in Ht. rewrite Hr in Ht.
      change (translated st1) with (translated st) in Ht.
      change (target_length st1) with (target_length st) in Htl.
      change (calls st1) with (calls st) in Hcalls.
      assert (length (not_in (translated st2) all_texts) < S (length rest))%nat as Hlt.
      { change (S (length rest)) with (length ((k, v) :: rest)). rewrite <- Hrem.
        destruct chunk as [|[k0 v0] chunk0]; [done|].
        assert (In k0 (keys ((k0, v0) :: chunk0))) as H0 by now left.
        destruct (Hkeys k0 H0) as [Hall Hnew].
        apply (not_in_length_lt _ _ _ k0); [|exact Hall|exact Hnew|].
        - intros id_ H. rewrite Ht. apply keys_dict_update. now left.
        - rewrite Ht. apply keys_dict_update. right. now apply Hcov. }
      cbn [length] in Hlen.
      destruct (IH st2) as (st' & Hloop & Hdone & c & Hc' & Hlc);
        [rewrite Htl; now apply budget_ok_adjust|lia|].
      exists st'. split; [exact Hloop|]. split; [exact Hdone|].
      exists (mkRequest terms chunk :: c). rewrite Hc', Hcalls, <- app_assoc.
      split; [reflexivity|]. cbn [length]. lia.
Qed.


End Cooperative.


(** ** What goes out to the backend *)

Section Requests.
Variable backend : nat -> request -> api_result.
Variable disk : nat -> fault.
Variable json_loads : str -> option json.
Variable all_texts : dict str str.

Lemma fresh_request_earlier st st' r :
  (forall id_ : str, In id_ (keys (translated st)) -> In id_ (keys (translated st'))) ->
  fresh_request all_texts st' r -> fresh_request all_texts st r.
Proof.
  intros Hsub [Hne Hfresh]. split; [exact Hne|].
  intros id_ Hin. destruct (Hfresh id_ Hin) as [Hall Hnew]. split; [exact Hall|auto].
Qed.

Lemma chunk_loop_sends_fresh (fuel : nat) :
  forall (remaining : dict str str) st,
    (forall id_ : str, In id_ (keys remaining) -> In id_ (keys all_texts)) ->
    exists c,
      calls (snd (chunk_loop backend disk json_loads fuel all_texts remaining st))
      = calls st ++ c
      /\ List.Forall (fresh_request all_texts st) c.
Proof.
  induction fuel as [|fuel IH]; intros [|kv remaining] st Hsub; cbn [chunk_loop];
    try (exists []; rewrite app_nil_r; split; [reflexivity|constructor]).
  unfold bind at 1.
  destruct (next_chunk_loop (translated st) (target_length st) (kv :: remaining) [] 0)
    as [|kv0 chunk0] eqn:Hloop.
  - rewrite create_next_chunk_none by exact Hloop.
    exists []. rewrite app_nil_r. split; [reflexivity|constructor].
  - destruct (create_next_chunk_nonempty (kv :: remaining) st) as (terms & Hc);
      [rewrite Hloop; discriminate|].
    rewrite Hloop in Hc. cbv zeta in Hc. rewrite Hc.
    set (chunk := kv0 :: chunk0) in *. set (st1 := add_log _ (add_log _ st)).
    assert (fresh_request all_texts st (mkRequest terms chunk)) as Hfresh.
    { split; [discriminate|]. cbn [request_texts]. intros id_ Hin.
      change (In id_ (keys chunk)) in Hin. rewrite <- Hloop in Hin.
      apply next_chunk_loop_keys in Hin as [[]|[Hin Hm]]. split; [now apply Hsub|].
      rewrite <- dict_mem_keys, Hm. discriminate. }
    assert (all_texts <> []) as Hne.
    { intros Hnil. specialize (Hsub (fst kv) ltac:(now left)). rewrite Hnil in Hsub.
      destruct Hsub. }
    destruct (retry_loop_bounded backend disk json_loads all_texts (mkRequest terms chunk)
                chunk (kv :: remaining) st1 Hne)
      as (o & st2 & n & Hrun & Hcalls & _ & Ho).
    pose proof (keeps_retry_loop backend disk json_loads (Z.to_nat max_retries) all_texts
                  (mkRequest terms chunk) chunk (kv :: remaining) 0 st1) as Hkeeps.
    rewrite Hrun in Hkeeps. cbn [snd] in Hkeeps. destruct Hkeeps as (Hgrow & _).
    change (translated st1) with (translated st) in Hgrow.
    change (calls st1) with (calls st) in Hcalls.
    assert (List.Forall (fresh_request all_texts st) (repeat (mkRequest terms chunk) n))
      as Hsent.
    { apply List.Forall_forall. intros r Hin. apply repeat_spec in Hin. now subst r. }
    assert (forall remaining' : dict str str,
               (forall id_ : str, In id_ (keys remaining') -> In id_ (keys all_texts)) ->
               exists c,
                 calls (snd (chunk_loop backend disk json_loads fuel all_texts remaining' st2))
                 = calls st ++ c
                 /\ List.Forall (fresh_request all_texts st) c) as Hnext.
    { intros remaining' Hsub'. destruct (IH remaining' st2 Hsub') as (c & Hc2 & Hall).
      exists (repeat (mkRequest terms chunk) n ++ c). split.
      - now rewrite Hc2, Hcalls, <- app_assoc.
      - apply List.Forall_app. split; [exact Hsent|].
        eapply List.Forall_impl; [|exact Hall].
        intros r. now apply fresh_request_earlier. }
    unfold bind. rewrite Hrun.
    destruct Ho as [->|[->|(-> & _)]].
    + now apply Hnext.
    + apply Hnext. intros id_ Hin. now apply not_in_keys in Hin.
    + exists (repeat (mkRequest terms chunk) n). split; [exact Hcalls|exact Hsent].
Qed.

(** X21: every request a run of [translate_all] sends carries at least
    one fragment, and only fragments of [all_texts] that had no translation
    when the run began: nothing already translated is sent again and nothing
    foreign is sent. *)
Theorem translate_all_sends_only_untranslated (fuel : nat) st :
  exists c,
    calls (snd (translate_all backend disk json_loads fuel all_texts st)) = calls st ++ c
    /\ List.Forall
         (fun r =>
            request_texts r <> []
            /\ forall id_ : str,
                 In id_ (keys (request_texts r)) ->
                 In id_ (keys all_texts) /\ ~ In id_ (keys (translated st))) c.
Proof.
  unfold translate_all.
  unfold bind at 1, gets at 1. unfold bind at 1, logger_info at 1, modify at 1.
  set (st0 := add_log _ st).
  destruct (chunk_loop_sends_fresh fuel (not_in (translated st) all_texts) st0)
    as (c & Hc & Hall).
  { intros id_ Hin. now apply not_in_keys in Hin. }
  exists c. split; [|exact Hall].
  unfold bind at 1.
  destruct (chunk_loop backend disk json_loads fuel all_texts
              (not_in (translated st) all_texts) st0) as [[[]|e|] st1];
    cbn [snd] in Hc; exact Hc.
Qed.

End Requests.

(** ** The two chunkers side by side *)

Lemma create_chunk_loop_returns (items : dict str str) :
  forall (chunks : list (request * dict str str)) (current_chunk : dict str str)
         (current_length : Z) (st : state),
    exists new st',
      create_chunk_loop items chunks current_chunk current_length st
      = (Ret (chunks ++ new), st').
Proof.
  induction items as [|[id0 text0] rest IH]; intros chunks cur clen st;
    cbn [create_chunk_loop].
  - destruct cur as [|kv cur].
    + exists [], st. now rewrite app_nil_r.
    + destruct (prepare_request_spec (kv :: cur) st) as (terms & Hrun).
      unfold bind. rewrite Hrun. now eexists [_], _.
  - unfold bind at 1, gets at 1.
    destruct (dict_mem id0 (translated st)); [apply IH|].
    unfold bind at 1, gets at 1.
    destruct (int_gt_float (clen + len text0) (target_length st)
              && negb (bool_decide (cur = []))); [|apply IH].
    destruct (prepare_request_spec cur st) as (terms & Hrun).
    unfold bind at 1. rewrite Hrun.
    destruct (IH (chunks ++ [(mkRequest terms cur, cur)]) (dict_set id0 text0 [])
                (0 + len text0)
                (add_log (INFO, FullRequestData (mkRequest terms cur))
                   (add_log (INFO, PreparingRequest (len terms)) st)))
      as (new & st' & Hloop).
    exists ((mkRequest terms cur, cur) :: new), st'.
    now rewrite Hloop, <- app_assoc.
Qed.

(** Where [next_chunk_loop] stops with a chunk, [create_chunk_loop] closes
    the same chunk first. *)
Lemma create_chunk_loop_first (items : dict str str) :
  forall (chunks : list (request * dict str str)) (current_chunk : dict str str)
         (current_length : Z) (st st1 : state) (rc : request * dict str str),
    next_chunk_loop (translated st) (target_length st) items current_chunk current_length
    <> [] ->
    prepare_request
      (next_chunk_loop (translated st) (target_length st) items current_chunk current_length)
      st
    = (Ret rc, st1) ->
    exists rest st',
      create_chunk_loop items chunks current_chunk current_length st
      = (Ret (chunks ++ rc :: rest), st').
Proof.
  induction items as [|[id0 text0] rest IH]; intros chunks cur clen st st1 rc;
    cbn [create_chunk_loop next_chunk_loop].
  - intros Hne Hrun. destruct cur as [|kv cur]; [done|].
    unfold bind. rewrite Hrun. now exists [], st1.
  - unfold bind at 1, gets at 1.
    destruct (dict_mem id0 (translated st)); [apply IH|].
    unfold bind at 1, gets at 1.
    destruct (int_gt_float (clen + len text0) (target_length st)) eqn:Hgt;
      cbn [andb]; [|apply IH].
    intros Hne Hrun.
    rewrite (bool_decide_eq_false_2 _ Hne). cbn [negb].
    unfold bind at 1. rewrite Hrun.
    destruct (create_chunk_loop_returns rest (chunks ++ [rc]) (dict_set id0 text0 [])
                (0 + len text0) st1) as (new & st' & Hloop).
    exists new, st'. now rewrite Hloop, <- app_assoc.
Qed.

(** X22: whenever [create_next_chunk] returns a chunk, it is the first
    chunk [create_chunk] returns on the same texts, with the same request:
    the two chunkers part ways only where [create_next_chunk] returns
    nothing. *)
Theorem create_next_chunk_is_first_of_create_chunk remaining st rc st1 :
  create_next_chunk remaining st = (Ret (Some rc), st1) ->
  exists rest st', create_chunk remaining st = (Ret (rc :: rest), st').
Proof.
  rewrite create_next_chunk_unfold.
  destruct (next_chunk_loop (translated st) (target_length st) remaining [] 0)
    as [|kv c] eqn:Hloop; [discriminate|].
  destruct (prepare_request_spec (kv :: c) st) as (terms & Hrun).
  unfold bind. rewrite Hrun. unfold ret. intros [= <- <-].
  eapply (create_chunk_loop_first remaining [] [] 0 st); rewrite Hloop; [discriminate|].
  exact Hrun.
Qed.

Lemma create_next_chunk_is_first_of_create_chunk_witness :
  create_next_chunk two_fragments (init [] old_translations ∅)
  = (Ret (Some (mkRequest [] [([66%N], [0x4E16; 0x754C]%N)], [([66%N], [0x4E16; 0x754C]%N)])),
     snd (create_next_chunk two_fragments (init [] old_translations ∅)))
  /\ exists rest st',
       create_chunk two_fragments (init [] old_translations ∅)
       = (Ret ((mkRequest [] [([66%N], [0x4E16; 0x754C]%N)], [([66%N], [0x4E16; 0x754C]%N)])
               :: rest), st').
Proof.
  assert (create_next_chunk two_fragments (init [] old_translations ∅)
          = (Ret (Some (mkRequest [] [([66%N], [0x4E16; 0x754C]%N)],
                        [([66%N], [0x4E16; 0x754C]%N)])),
             snd (create_next_chunk two_fragments (init [] old_translations ∅)))) as Hrun
    by (vm_compute; reflexivity).
  split; [exact Hrun|].
  exact (create_next_chunk_is_first_of_create_chunk _ _ _ _ Hrun).
Defined.

(** ** The back-off schedule *)

Section Backoff.
Variable backend : nat -> request -> api_result.
Variable disk : nat -> fault.
Variable json_loads : str -> option json.

(** X23: the schedule of a retry loop whose first [failures] calls raise
    and whose next call, if fewer than three have raised, is answered.  A
    failed attempt that is not the third is followed by a pause of twice its
    number, the answered call by a pause of 1, and the third failure by no
    pause at all; the budget takes one failure adjustment per raising call
    and one success adjustment for the answered call; the loop ends after
    the answered call or after the third failure, in which case it returns
    unless the clean-up of the save that records the chunk raises. *)
Theorem retry_loop_backs_off all_texts request_data original_chunk remaining st
    (failures : nat) :
  all_texts <> [] ->
  (failures <= 3)%nat ->
  (forall k : nat, (k < failures)%nat ->
     backend (length (calls st) + k) request_data = ApiRaises) ->
  ((failures < 3)%nat ->
   exists blocks, backend (length (calls st) + failures) request_data = ApiContent blocks) ->
  exists o st',
    retry_loop backend disk json_loads (Z.to_nat max_retries) all_texts request_data
      original_chunk remaining 0 st
    = (o, st')
    /\ sleeps st'
       = sleeps st ++ firstn failures [2; 4] ++ (if (failures <? 3)%nat then [1] else [])
    /\ target_length st'
       = (if (failures <? 3)%nat then adjust true else fun t => t)
           (Nat.iter failures (adjust false) (target_length st))
    /\ length (calls st') = (length (calls st) + Nat.min (S failures) 3)%nat
    /\ ((failures < 3)%nat -> o = Ret (not_in (translated st') all_texts))
    /\ (failures = 3%nat -> o = Ret remaining \/ o = Raise OSError).
Proof.
  intros Htexts Hle Hfail Hanswer. change (Z.to_nat max_retries) with 3%nat.
  destruct failures as [|[|[|[|failures]]]]; [| | | |lia].
  - (* the first call is answered *)
    destruct Hanswer as [blocks Hb]; [lia|]. rewrite Nat.add_0_r in Hb.
    destruct (retry_loop_answered backend disk json_loads 2 all_texts request_data
                original_chunk remaining 0 blocks st)
      as (st' & Hrun & _ & _ & Hc & Htl & Hs); [unfold max_retries; lia|done|done|].
    eexists _, st'. split; [exact Hrun|]. cbn [Nat.ltb Nat.leb firstn Nat.iter nat_rect].
    rewrite Hs, Htl, Hc, length_app. cbn [length Nat.min app].
    repeat split; try reflexivity; lia.
  - (* the second call is answered *)
    destruct Hanswer as [blocks Hb]; [lia|].
    pose proof (Hfail 0%nat ltac:(lia)) as B0. rewrite Nat.add_0_r in B0.
    rewrite retry_loop_backoff by (done || (unfold max_retries; lia)).
    set (st1 := add_sleep _ _).
    destruct (retry_loop_answered backend disk json_loads 1 all_texts request_data
                original_chunk remaining (0 + 1) blocks st1)
      as (st' & Hrun & _ & _ & Hc & Htl & Hs); [unfold max_retries; lia| |done|].
    { change (calls st1) with (calls st ++ [request_data]). now rewrite length_app. }
    eexists _, st'. split; [exact Hrun|]. cbn [Nat.ltb Nat.leb firstn Nat.iter nat_rect].
    rewrite Hs, Htl, Hc. change (sleeps st1) with (sleeps st ++ [2]).
    change (target_length st1) with (adjust false (target_length st)).
    change (calls st1) with (calls st ++ [request_data]).
    rewrite !length_app, <- app_assoc. cbn [length Nat.min].
    repeat split; try reflexivity; lia.
  - (* the third call is answered *)
    destruct Hanswer as [blocks Hb]; [lia|].
    pose proof (Hfail 0%nat ltac:(lia)) as B0. rewrite Nat.add_0_r in B0.
    pose proof (Hfail 1%nat ltac:(lia)) as B1.
    rewrite retry_loop_backoff by (done || (unfold max_retries; lia)).
    set (st1 := add_sleep _ _).
    rewrite retry_loop_backoff;
      [|unfold max_retries; lia|unfold max_retries; lia
       |change (calls st1) with (calls st ++ [request_data]); now rewrite length_app].
    set (st2 := add_sleep _ _).
    assert (sleeps st2 = sleeps st ++ [2; 4]) as Hs2
      by (change (sleeps st2) with ((sleeps st ++ [2]) ++ [4]); now rewrite <- app_assoc).
    assert (target_length st2 = adjust false (adjust false (target_length st))) as Ht2
      by reflexivity.
    assert (length (calls st2) = length (calls st) + 2)%nat as Hc2
      by (change (calls st2) with ((calls st ++ [request_data]) ++ [request_data]);
          rewrite !length_app; cbn [length]; lia).
    destruct (retry_loop_answered backend disk json_loads 0 all_texts request_data
                original_chunk remaining (0 + 1 + 1) blocks st2)
      as (st' & Hrun & _ & _ & Hc & Htl & Hs); [unfold max_retries; lia| |done|].
    { now rewrite Hc2. }
    eexists _, st'. split; [exact Hrun|]. cbn [Nat.ltb Nat.leb firstn Nat.iter nat_rect].
    rewrite Hs, Htl, Hc, Hs2, Ht2, length_app, Hc2, <- app_assoc. cbn [length Nat.min].
    repeat split; try reflexivity; lia.
  - (* the three calls raise *)
    destruct (retry_loop_exhausted backend disk json_loads all_texts request_data
                original_chunk remaining st Hfail)
      as (st' & Hrun & Hc & _ & _ & Hs & Htl & _).
    change (Z.to_nat max_retries) with 3%nat in Hrun.
    eexists _, st'. split; [exact Hrun|]. cbn [Nat.ltb Nat.leb firstn Nat.iter nat_rect].
    rewrite Hs, Htl, Hc, length_app, app_nil_r. cbn [length Nat.min].
    repeat split; try reflexivity; try lia.
    intros _. destruct (save_raises disk failed_translations_json st); [now right|now left].
Qed.

End Backoff.

Lemma retry_loop_backs_off_witness :
  (two_fragments <> []
   /\ (2 <= 3)%nat
   /\ (forall k : nat, (k < 2)%nat ->
         (fun (n : nat) (_ : request) =>
            if (n <? 2)%nat then ApiRaises else ApiContent braces)
           (length (calls (init [] [] ∅)) + k)%nat (mkRequest [] two_fragments)
         = ApiRaises)
   /\ ((2 < 3)%nat ->
       exists blocks,
         (fun (n : nat) (_ : request) =>
            if (n <? 2)%nat then ApiRaises else ApiContent braces)
           (length (calls (init [] [] ∅)) + 2)%nat (mkRequest [] two_fragments)
         = ApiContent blocks))
  /\ exists o st',
       retry_loop
         (fun (n : nat) (_ : request) =>
            if (n <? 2)%nat then ApiRaises else ApiContent braces)
         sound_disk (parses_to full_answer) (Z.to_nat max_retries) two_fragments
         (mkRequest [] two_fragments) two_fragments two_fragments 0 (init [] [] ∅)
       = (o, st')
       /\ sleeps st' = [2; 4; 1]
       /\ length (calls st') = 3%nat.
Proof.
  assert (two_fragments <> []) as H1 by discriminate.
  assert (2 <= 3)%nat as H2 by lia.
  assert (forall k : nat, (k < 2)%nat ->
            (fun (n : nat) (_ : request) =>
               if (n <? 2)%nat then ApiRaises else ApiContent braces)
              (length (calls (init [] [] ∅)) + k)%nat (mkRequest [] two_fragments)
            = ApiRaises) as H3.
  { intros k Hk. destruct k as [|[|k]]; [reflexivity|reflexivity|lia]. }
  assert ((2 < 3)%nat ->
          exists blocks,
            (fun (n : nat) (_ : request) =>
               if (n <? 2)%nat then ApiRaises else ApiContent braces)
              (length (calls (init [] [] ∅)) + 2)%nat (mkRequest [] two_fragments)
            = ApiContent blocks) as H4.
  { intros _. now exists braces. }
  split; [split; [exact H1|split; [exact H2|split; [exact H3|exact H4]]]|].
  destruct (retry_loop_backs_off _ sound_disk (parses_to full_answer) two_fragments
              (mkRequest [] two_fragments) two_fragments two_fragments (init [] [] ∅) 2
              H1 H2 H3 H4) as (o & st' & Hrun & Hs & _ & Hc & _).
  exists o, st'. split; [exact Hrun|]. split; [exact Hs|exact Hc].
Defined.

(** ** How fast the budget saturates *)

Lemma scaled_bounds t :
  bounds_form t -> 5277655813324800 <= scaled t <= 2 * 5277655813324800.
Proof.
  intros (m & e & -> & Hd & [[-> Hm]|[-> Hm]]); cbn [scaled].
  - pose proof (digits2_pos_bounds m) as Hb. rewrite Hd in Hb.
    change (2 ^ 53) with 9007199254740992 in Hb.
    change (2 ^ (-42 + 42)) with 1. lia.
  - pose proof (digits2_pos_bounds m) as Hb. rewrite Hd in Hb.
    change (2 ^ (53 - 1)) with 4503599627370496 in Hb.
    change (2 ^ (-41 + 42)) with 2. lia.
Qed.

Ltac pow2_consts :=
  change (2 ^ (105 - 53)) with 4503599627370496 in *;
  change (2 ^ (106 - 53)) with 9007199254740992 in *;
  change (2 ^ 53 - 1) with 9007199254740991 in *;
  change (2 ^ (53 - 1)) with 4503599627370496 in *;
  change (2 ^ 53) with 9007199254740992 in *;
  change (2 ^ 52) with 4503599627370496 in *.

Lemma adjust_success_step t :
  bounds_form t ->
  adjust true t = float_of_int 2400 \/ 119 * scaled t <= 100 * scaled (adjust true t).
Proof.
  intros (m & e & -> & Hd & He).
  unfold adjust, float_1_2, float_mul, SFmul, py_min. cbn [xorb].
  rewrite float_of_int_2400.
  assert (Z.pos (digits2_pos 5404319552844595) = 53) as Hc by (vm_compute; reflexivity).
  pose proof (mul_digits m _ Hd Hc) as HD.
  pose proof (digits2_pos_bounds m) as Hm. rewrite Hd in Hm.
  destruct (binary_round_aux_spec false (m * 5404319552844595) (e + -52))
    as (m' & e' & -> & Hd' & Hcase); [lia ..|].
  destruct (SFltb _ (S754_finite false m' e')) eqn:Hlt; [now left|right].
  assert (~ (-41 < e' \/ (-41 = e' /\ 5277655813324800 < Z.pos m'))) as Hle
    by (rewrite <- SFltb_pos, Hlt; discriminate).
  cbn [scaled].
  destruct HD as [HD|HD]; rewrite HD in *; pow2_consts.
  - pose proof (Z.mul_succ_div_gt (Z.pos (m * 5404319552844595)) 4503599627370496
                  ltac:(lia)) as Hq.
    rewrite Pos2Z.inj_mul in *.
    destruct Hcase as [[-> Hm']|(-> & Hm' & Hq')].
    + replace (e + -52 + 105 - 53) with e by lia.
      destruct Hm' as [Hm' _].
      assert (0 <= 2 ^ (e + 42)) by (apply Z.pow_nonneg; lia).
      assert (119 * Z.pos m <= 100 * Z.pos m') as Hstep by lia.
      apply Z.mul_le_mono_nonneg_r with (p := 2 ^ (e + 42)) in Hstep; [|done]. lia.
    + destruct He as [[-> _]|[-> _]]; [|lia].
      change (2 ^ (-42 + 42)) with 1. change (2 ^ (-42 + -52 + 105 - 52 + 42)) with 2. lia.
  - pose proof (Z.mul_succ_div_gt (Z.pos (m * 5404319552844595)) 9007199254740992
                  ltac:(lia)) as Hq.
    rewrite Pos2Z.inj_mul in *.
    destruct He as [[-> _]|[-> _]]; [|destruct Hcase as [[-> _]|(-> & _)]; lia].
    destruct Hcase as [[-> Hm']|(-> & _)]; [|lia].
    change (2 ^ (-42 + 42)) with 1. change (2 ^ (-42 + -52 + 106 - 53 + 42)) with 2. lia.
Qed.

Lemma adjust_failure_step t :
  bounds_form t ->
  adjust false t = float_of_int 1200 \/ 100 * scaled (adjust false t) <= 81 * scaled t.
Proof.
  intros (m & e & -> & Hd & He).
  unfold adjust, float_0_8, float_mul, SFmul, py_max. cbn [xorb].
  rewrite float_of_int_1200.
  assert (Z.pos (digits2_pos 7205759403792794) = 53) as Hc by (vm_compute; reflexivity).
  pose proof (mul_digits m _ Hd Hc) as HD.
  pose proof (digits2_pos_bounds m) as Hm. rewrite Hd in Hm.
  destruct (binary_round_aux_spec false (m * 7205759403792794) (e + -53))
    as (m' & e' & -> & Hd' & Hcase); [lia ..|].
  destruct (SFltb (S754_finite false m' e') _) eqn:Hlt; [now left|right].
  assert (~ (e' < -42 \/ (e' = -42 /\ Z.pos m' < 5277655813324800))) as Hge
    by (rewrite <- SFltb_pos, Hlt; discriminate).
  cbn [scaled].
  destruct HD as [HD|HD]; rewrite HD in *; pow2_consts.
  - pose proof (Z.mul_div_le (Z.pos (m * 7205759403792794)) 4503599627370496
                  ltac:(lia)) as Hq.
    rewrite Pos2Z.inj_mul in *.
    destruct He as [[-> _]|[-> _]]; [destruct Hcase as [[-> _]|(-> & Hm' & Hq')]|].
    + lia.
    + change (2 ^ (-42 + 42)) with 1. change (2 ^ (-42 + -53 + 105 - 52 + 42)) with 1. lia.
    + destruct Hcase as [[-> Hm']|(-> & Hm' & Hq')].
      * change (2 ^ (-41 + 42)) with 2. change (2 ^ (-41 + -53 + 105 - 53 + 42)) with 1. lia.
      * change (2 ^ (-41 + 42)) with 2. change (2 ^ (-41 + -53 + 105 - 52 + 42)) with 2. lia.
  - pose proof (Z.mul_div_le (Z.pos (m * 7205759403792794)) 9007199254740992
                  ltac:(lia)) as Hq.
    rewrite Pos2Z.inj_mul in *.
    destruct Hcase as [[-> Hm']|(-> & Hm' & Hq')]; [|lia].
    replace (e + -53 + 106 - 53) with e by lia.
    assert (0 <= 2 ^ (e + 42)) by (apply Z.pow_nonneg; lia).
    assert (100 * Z.pos m' <= 81 * Z.pos m) as Hstep by lia.
    apply Z.mul_le_mono_nonneg_r with (p := 2 ^ (e + 42)) in Hstep; [|done]. lia.
Qed.

Lemma adjust_success_saturates t :
  bounds_form t -> adjust true (adjust true (adjust true (adjust true t))) = float_of_int 2400.
Proof.
  assert (adjust true (float_of_int 2400) = float_of_int 2400) as Hcap
    by (vm_compute; reflexivity).
  intros H0.
  pose proof (adjust_success_form _ H0) as H1.
  pose proof (adjust_success_form _ H1) as H2.
  pose proof (adjust_success_form _ H2) as H3.
  pose proof (adjust_success_form _ H3) as H4.
  destruct (adjust_success_step _ H0) as [E|S1]; [now rewrite E, !Hcap|].
  destruct (adjust_success_step _ H1) as [E|S2]; [now rewrite E, !Hcap|].
  destruct (adjust_success_step _ H2) as [E|S3]; [now rewrite E, !Hcap|].
  destruct (adjust_success_step _ H3) as [E|S4]; [exact E|].
  apply scaled_bounds in H0, H4. lia.
Qed.

Lemma adjust_failure_saturates t :
  bounds_form t ->
  adjust false (adjust false (adjust false (adjust false t))) = float_of_int 1200.
Proof.
  assert (adjust false (float_of_int 1200) = float_of_int 1200) as Hfloor
    by (vm_compute; reflexivity).
  intros H0.
  pose proof (adjust_failure_form _ H0) as H1.
  pose proof (adjust_failure_form _ H1) as H2.
  pose proof (adjust_failure_form _ H2) as H3.
  pose proof (adjust_failure_form _ H3) as H4.
  destruct (adjust_failure_step _ H0) as [E|S1]; [now rewrite E, !Hfloor|].
  destruct (adjust_failure_step _ H1) as [E|S2]; [now rewrite E, !Hfloor|].
  destruct (adjust_failure_step _ H2) as [E|S3]; [now rewrite E, !Hfloor|].
  destruct (adjust_failure_step _ H3) as [E|S4]; [exact E|].
  apply scaled_bounds in H0, H4. lia.
Qed.

Lemma adjust_all_target (events : list bool) :
  forall st,
    target_length (snd (adjust_all events st))
    = fold_left (fun t success => adjust success t) events (target_length st).
Proof.
  induction events as [|success rest IH]; intros st; [reflexivity|].
  cbn [adjust_all fold_left]. unfold bind at 1. rewrite adjust_chunk_size_run.
  now rewrite IH.
Qed.

(** X24: from anywhere in [1200, 2400], four successes in a row bring the
    budget to the cap of 2400 and four failures in a row bring it to the
    floor of 1200. *)
Theorem budget_saturates_in_four_steps st :
  in_bounds (target_length st) = true ->
  target_length (snd (adjust_all [true; true; true; true] st)) = float_of_int 2400
  /\ target_length (snd (adjust_all [false; false; false; false] st)) = float_of_int 1200.
Proof.
  intros Hin. apply in_bounds_form in Hin. rewrite !adjust_all_target. cbn [fold_left].
  split; [now apply adjust_success_saturates|now apply adjust_failure_saturates].
Qed.

Lemma budget_saturates_in_four_steps_witness :
  in_bounds (target_length at_floor) = true
  /\ target_length (snd (adjust_all [true; true; true; true] at_floor)) = float_of_int 2400
  /\ target_length (snd (adjust_all [false; false; false; false] at_floor))
     = float_of_int 1200.
Proof.
  split; [vm_compute; reflexivity|].
  apply (budget_saturates_in_four_steps at_floor). vm_compute. reflexivity.
Defined.

(** ** An answer that does not parse, again and again *)

(** With a backend whose answer never parses, every pass of the driver loop
    finds the two fragments untranslated, builds the same chunk and sends it
    once, on the success path; the loop only stops when the fuel runs out. *)
Lemma chunk_loop_unparseable disk (fuel : nat) :
  forall st : state,
    translated st = [] -> glossary st = [] -> budget_ok (target_length st) ->
    exists st',
      chunk_loop oops_backend disk no_json fuel two_fragments two_fragments st
      = (Timeout, st')
      /\ calls st' = calls st ++ repeat (mkRequest [] two_fragments) fuel
      /\ translated st' = []
      /\ files st' = files st.
Proof.
  induction fuel as [|fuel IH]; intros st Ht Hg Hbudget.
  - exists st. split; [reflexivity|]. split; [now rewrite app_nil_r|]. split; [exact Ht|done].
  - assert (forall n, n <= 1000 -> int_gt_float n (target_length st) = false) as Hfits
      by (intros n Hn; now apply budget_fits).
    assert (create_next_chunk two_fragments st
            = (Ret (Some (mkRequest [] two_fragments, two_fragments)),
               add_log (INFO, FullRequestData (mkRequest [] two_fragments))
                 (add_log (INFO, PreparingRequest 0) st))) as Hchunk.
    { rewrite create_next_chunk_unfold, Ht.
      assert (next_chunk_loop [] (target_length st) two_fragments [] 0 = two_fragments) as ->.
      { cbn [next_chunk_loop two_fragments dict_mem dict_get].
        change (0 + len [20320%N; 22909%N]) with 2. rewrite (Hfits 2) by lia.
        change (2 + len [19990%N; 30028%N]) with 4. rewrite (Hfits 4) by lia.
        reflexivity. }
      unfold two_fragments at 1. cbv iota beta. fold two_fragments.
      unfold bind. rewrite (prepare_request_run _ _ []); [reflexivity|].
      now rewrite Hg. }
    cbn [chunk_loop two_fragments]. fold two_fragments.
    unfold bind at 1. rewrite Hchunk. unfold bind at 1.
    set (st1 := add_log _ _).
    change (Z.to_nat max_retries) with 3%nat. cbn [retry_loop].
    change (0 <? max_retries) with true. cbv iota. unfold bind at 1.
    rewrite (attempt_unparseable oops_backend disk no_json two_fragments
               (mkRequest [] two_fragments) two_fragments 0 [[0x6F; 0x6F; 0x70; 0x73]%N] st1)
      by (reflexivity || discriminate).
    change (translated st1) with (translated st). rewrite Ht.
    change (not_in [] two_fragments) with two_fragments.
    set (st2 := unparsed_pass _ _ _ _ _).
    destruct (IH st2) as (st' & Hloop & Hcalls' & Htr' & Hfiles').
    + exact Ht.
    + exact Hg.
    + change (target_length st2) with (adjust true (target_length st)).
      now apply budget_ok_adjust.
    + exists st'. split; [exact Hloop|]. split; [|split; [exact Htr'|exact Hfiles']].
      rewrite Hcalls'. change (calls st2) with (calls st ++ [mkRequest [] two_fragments]).
      now rewrite <- app_assoc.
Qed.

(** An answer that does not parse is never counted as a failure: however
    long the run, the same chunk goes out once per pass, nothing is
    translated, nothing is written and [failed_translations.json] never
    appears. *)
Lemma unparseable_response_is_sent_again disk (fuel : nat) :
  exists st',
    translate_all oops_backend disk no_json fuel two_fragments (init [] [] ∅)
    = (Timeout, st')
    /\ calls st' = repeat (mkRequest [] two_fragments) fuel
    /\ translated st' = []
    /\ files st' !! failed_translations_json = None.
Proof.
  unfold translate_all, bind at 1 2, gets, logger_info, modify.
  change (not_in (translated (init [] [] ∅)) two_fragments) with two_fragments.
  destruct (chunk_loop_unparseable disk fuel
              (add_log (INFO, StartingTranslation (len two_fragments) (len (@nil (str * str))))
                 (init [] [] ∅)))
    as (st' & Hloop & Hcalls & Htr & Hfiles); [reflexivity|reflexivity|now left|].
  exists st'. unfold bind. cbn [translated init].
  split; [now rewrite Hloop|]. split; [exact Hcalls|]. split; [exact Htr|].
  now rewrite Hfiles.
Qed.
